(** * WhisperWave: the LMS noise-cancellation core and the noise classifier

    A shallow embedding of [src/lib/audio-processor.ts] (the adaptive filter,
    its post-processing and the per-channel driver) and of the classifier
    component (feature extraction, simulated scoring, arg-max selection).

    Numbers.  A JavaScript [number] and a [Float32Array] element are modelled
    by an exact rational ([Qc], canonical rationals, so that equality is
    Leibniz equality and every definition computes).  Rounding of the binary
    formats is outside the model: every statement below is a statement about
    the arithmetic the code writes down, carried out exactly.  NaN and the
    infinities are not rationals; module [Js] adds them to the numbers, with
    the rules of IEEE 754 for the special values, and holds the
    post-processing over these numbers, because [applyPostProcessing] treats
    an array with a NaN or an infinite sample differently from an array of
    finite samples.

    Arrays.  A typed array is a [list Qc] indexed by [Z].  A write outside
    the bounds is ignored, as typed arrays do.  A read outside the bounds
    (JavaScript: [undefined]) yields a default; the loops of the source read
    inside the bounds only (their counters range over the lengths, and the
    one read of [extractFeatures] that depends on the data is guarded).
    Division by zero (JavaScript: NaN or an infinity) yields zero in [Qc];
    it occurs only in the energy and zero-crossing features of an empty
    channel, and the statements about the values of these two features
    assume a channel of at least one sample.

    Randomness.  [Math.random()] is an input: a computation of type [Rand]
    reads its values off a stream, in the order of the calls.

    Loops.  [for (i = lo; i < hi; i++)] and [for (j = hi; j > lo; j--)] are
    the combinators [for_up] and [for_down]; loop counters are integers
    ([Z]) because the source subtracts them ([n - k >= 0], [i + j] with
    negative [j]). *)

From Stdlib Require Import QArith Qcanon Qround Lqa.
From stdpp Require Import base numbers list strings.

Local Open Scope Z_scope.

(** ** Numbers *)

Abbreviation dec q := (Q2Qc q%Q) (only parsing).

Global Instance Qc_inhabited : Inhabited Qc := populate 0%Qc.

(** [Math.abs], [Math.max], [Math.min]. *)
Definition Math_abs (x : Qc) : Qc := if decide (x < 0)%Qc then (- x)%Qc else x.
Definition Math_max (x y : Qc) : Qc := if decide (x < y)%Qc then y else x.
Definition Math_min (x y : Qc) : Qc := if decide (y < x)%Qc then y else x.

(** The integer [n] as a number. *)
Definition num (n : Z) : Qc := Q2Qc (inject_Z n).

(** ** Arrays *)

(** [a[i]] *)
Definition rd {A} `{Inhabited A} (a : list A) (i : Z) : A :=
  if decide (0 ≤ i) then a !!! Z.to_nat i else inhabitant.

(** [a[i] = v] *)
Definition wr {A} (a : list A) (i : Z) (v : A) : list A :=
  if decide (0 ≤ i) then <[Z.to_nat i := v]> a else a.

(** [a.length] *)
Definition len {A} (a : list A) : Z := Z.of_nat (length a).

(** [new Float32Array(n)] (every element is zero; [.fill(0)] changes
    nothing). *)
Definition new_Float32Array (n : nat) : list Qc := replicate n 0%Qc.

(** ** Loops *)

Fixpoint iterate {S} (fuel : nat) (i step : Z) (body : Z → S → S) (s : S) : S :=
  match fuel with
  | O => s
  | S fuel' => iterate fuel' (i + step) step body (body i s)
  end.

(** [for (i = lo; i < hi; i++) body] *)
Definition for_up {S} (lo hi : Z) (body : Z → S → S) (s : S) : S :=
  iterate (Z.to_nat (hi - lo)) lo 1 body s.

(** [for (j = hi; j > lo; j--) body] *)
Definition for_down {S} (hi lo : Z) (body : Z → S → S) (s : S) : S :=
  iterate (Z.to_nat (hi - lo)) hi (-1) body s.

(** ** [src/lib/audio-processor.ts] *)

(** *** [applyPostProcessing] *)

Definition windowSize : Z := 3.

(** Step 1 of [applyPostProcessing]: the copy into [temp] and the moving
    average written back into [signal]. *)
Definition movingAverage (signal : list Qc) : list Qc :=
  let temp := new_Float32Array (length signal) in
  let temp := for_up 0 (len signal) (λ i temp, wr temp i (rd signal i)) temp in
  for_up windowSize (len signal - windowSize) (λ i signal,
    let sum := for_up (- windowSize) (windowSize + 1)
                 (λ j sum, (sum + rd temp (i + j))%Qc) 0%Qc in
    wr signal i (sum / num (2 * windowSize + 1))%Qc) signal.

(** The running maximum of step 2, on finite samples ([Js.maxAmplitude] is
    the same loop on arrays that may hold NaN or an infinity). *)
Definition maxAmplitude (signal : list Qc) : Qc :=
  for_up 0 (len signal) (λ i m, Math_max m (Math_abs (rd signal i))) 0%Qc.

(** Step 2 of [applyPostProcessing]: amplitude normalisation, on finite
    samples ([Js.normalize] is the same code on arrays that may hold NaN or
    an infinity). *)
Definition normalize (signal : list Qc) : list Qc :=
  let maxAmplitude := maxAmplitude signal in
  if decide (dec 0.9 < maxAmplitude)%Qc then
    let scaleFactor := (dec 0.9 / maxAmplitude)%Qc in
    for_up 0 (len signal) (λ i signal, wr signal i (rd signal i * scaleFactor)%Qc) signal
  else signal.

Definition applyPostProcessing (signal : list Qc) : list Qc :=
  normalize (movingAverage signal).

(** *** [applyLMSFilter] *)

(** The variables the sample loop of [applyLMSFilter] mutates. *)
Record LoopState := {
  st_weights : list Qc;
  st_buffer : list Qc;
  st_prevOutput : Qc;
  st_outputSignal : list Qc
}.

(** The body of [for (let n = 0; n < inputSignal.length; n++)]. *)
Definition lmsBody (inputSignal : list Qc) (stepSize : Qc) (filterLength : Z)
    (n : Z) (st : LoopState) : LoopState :=
  let buffer := for_down (filterLength - 1) 0
                  (λ j buffer, wr buffer j (rd buffer (j - 1))) (st_buffer st) in
  let buffer := wr buffer 0 (rd inputSignal n) in
  let y := for_up 0 filterLength (λ k y,
             if decide (n - k >= 0) then (y + rd (st_weights st) k * rd buffer k)%Qc
             else y) 0%Qc in
  let error := (rd inputSignal n + st_prevOutput st)%Qc in
  let weights := for_up 0 filterLength (λ k weights,
                   if decide (n - k >= 0)
                   then wr weights k (rd weights k - stepSize * error * rd buffer k)%Qc
                   else weights) (st_weights st) in
  {| st_weights := weights; st_buffer := buffer; st_prevOutput := y;
     st_outputSignal := wr (st_outputSignal st) n error |}.

(** The sample loop of [applyLMSFilter], from the freshly allocated filter
    state to the state after the last sample. *)
Definition lmsLoop (inputSignal outputSignal : list Qc) (stepSize : Qc)
    (filterLength : nat) : LoopState :=
  for_up 0 (len inputSignal)
    (lmsBody inputSignal stepSize (Z.of_nat filterLength))
    {| st_weights := new_Float32Array filterLength;
       st_buffer := new_Float32Array filterLength;
       st_prevOutput := 0%Qc;
       st_outputSignal := outputSignal |}.

(** [applyLMSFilter(inputSignal, outputSignal, stepSize, filterLength)]; the
    result is the content of [outputSignal] when the call returns. *)
Definition applyLMSFilter (inputSignal outputSignal : list Qc) (stepSize : Qc)
    (filterLength : nat) : list Qc :=
  applyPostProcessing
    (st_outputSignal (lmsLoop inputSignal outputSignal stepSize filterLength)).

(** *** [processAudio] *)

(** The Web Audio [AudioBuffer]: its three read-only attributes and the
    sample data of its channels. *)
Module AudioBuffer.
Record t := {
  numberOfChannels : nat;
  length : nat;
  sampleRate : Qc;
  channels : list (list Qc)
}.
End AudioBuffer.

(** An [AudioBuffer] as the Web Audio API hands it out: as many channels as
    [numberOfChannels] says, each of [length] samples. *)
Definition validBuffer (b : AudioBuffer.t) : Prop :=
  length (AudioBuffer.channels b) = AudioBuffer.numberOfChannels b ∧
  ∀ c, c ∈ AudioBuffer.channels b → length c = AudioBuffer.length b.

(** [audioContext.createBuffer(numberOfChannels, length, sampleRate)]: a
    fresh buffer of silence. *)
Definition createBuffer (numberOfChannels length : nat) (sampleRate : Qc)
    : AudioBuffer.t :=
  {| AudioBuffer.numberOfChannels := numberOfChannels;
     AudioBuffer.length := length;
     AudioBuffer.sampleRate := sampleRate;
     AudioBuffer.channels := replicate numberOfChannels (new_Float32Array length) |}.

(** [buffer.getChannelData(channel)] *)
Definition getChannelData (b : AudioBuffer.t) (channel : Z) : list Qc :=
  rd (AudioBuffer.channels b) channel.

(** The array [getChannelData] returns is the buffer's own storage: what
    [applyLMSFilter] writes into [outputData] is written into the buffer. *)
Definition setChannelData (b : AudioBuffer.t) (channel : Z) (data : list Qc)
    : AudioBuffer.t :=
  {| AudioBuffer.numberOfChannels := AudioBuffer.numberOfChannels b;
     AudioBuffer.length := AudioBuffer.length b;
     AudioBuffer.sampleRate := AudioBuffer.sampleRate b;
     AudioBuffer.channels := wr (AudioBuffer.channels b) channel data |}.

(** [String.prototype.toLowerCase] on the ASCII letters (other bytes are
    kept). *)
Definition toLowerCaseAscii (c : Ascii.ascii) : Ascii.ascii :=
  let n := Ascii.N_of_ascii c in
  if decide (65 ≤ n ≤ 90)%N then Ascii.ascii_of_N (n + 32) else c.

Fixpoint toLowerCase (s : string) : string :=
  match s with
  | EmptyString => EmptyString
  | String c s' => String (toLowerCaseAscii c) (toLowerCase s')
  end.

(** The [switch (noiseType.toLowerCase())] of [processAudio]: the filter
    call made for one channel. *)
Definition filterChannel (noiseType : string) (inputData outputData : list Qc)
    : list Qc :=
  let label := toLowerCase noiseType in
  if decide (label = "lawnmower") then
    applyLMSFilter inputData outputData (dec 0.01) 32
  else if decide (label = "traffic") then
    applyLMSFilter inputData outputData (dec 0.005) 128
  else if decide (label = "construction") then
    applyLMSFilter inputData outputData (dec 0.008) 64
  else if decide (label = "fan/hvac") then
    applyLMSFilter inputData outputData (dec 0.003) 256
  else
    applyLMSFilter inputData outputData (dec 0.01) 128.

(** [processAudio(originalBuffer, audioContext, noiseType)]; the context is
    only used to allocate the result, and the simulated delay is left out. *)
Definition processAudio (originalBuffer : AudioBuffer.t) (noiseType : string)
    : AudioBuffer.t :=
  let processedBuffer :=
    createBuffer (AudioBuffer.numberOfChannels originalBuffer)
                 (AudioBuffer.length originalBuffer)
                 (AudioBuffer.sampleRate originalBuffer) in
  for_up 0 (Z.of_nat (AudioBuffer.numberOfChannels originalBuffer))
    (λ channel processedBuffer,
       let inputData := getChannelData originalBuffer channel in
       let outputData := getChannelData processedBuffer channel in
       setChannelData processedBuffer channel
         (filterChannel noiseType inputData outputData))
    processedBuffer.

(** The one-channel buffer that holds channel [i] of [b]. *)
Definition onlyChannel (b : AudioBuffer.t) (i : Z) : AudioBuffer.t :=
  {| AudioBuffer.numberOfChannels := 1;
     AudioBuffer.length := AudioBuffer.length b;
     AudioBuffer.sampleRate := AudioBuffer.sampleRate b;
     AudioBuffer.channels := [getChannelData b i] |}.

(** ** The classifier component *)

(** *** The random source

    [Math.random()] is the only source of non-determinism.  The values it
    returns are an input of the model: a computation reads them off a stream
    in the order the code calls [Math.random()]. *)

Definition Rand (A : Type) : Type := (nat → Qc) → A * (nat → Qc).

Global Instance Rand_ret : MRet Rand := λ A x r, (x, r).
Global Instance Rand_bind : MBind Rand := λ A B f m r,
  let '(x, r') := m r in f x r'.

Definition Math_random : Rand Qc := λ r, (r O, λ n, r (S n)).

(** [l.forEach(f)] where [f] updates the state [s]. *)
Fixpoint forEach {A S} (l : list A) (f : A → S → Rand S) (s : S) : Rand S :=
  match l with
  | [] => mret s
  | x :: l' => s' ← f x s; forEach l' f s'
  end.

(** *** Objects used as maps

    [scores] is an object with string keys; [Object.entries] lists them in
    insertion order, and the selection depends on that order. *)

Fixpoint obj_set (o : list (string * Qc)) (k : string) (v : Qc)
    : list (string * Qc) :=
  match o with
  | [] => [(k, v)]
  | (k', v') :: o' =>
      if decide (k' = k) then (k, v) :: o' else (k', v') :: obj_set o' k v
  end.

Definition Object_entries (o : list (string * Qc)) : list (string * Qc) := o.

(** [Number.parseFloat(x.toFixed(2))]: the nearest multiple of 1/100, the
    larger one when two are equally near; a negative [x] is rounded as
    [-x] and negated. *)
Definition roundHundredths (x : Qc) : Qc :=
  (num (Qfloor (x * num 100 + dec 0.5)%Qc) / num 100)%Qc.

Definition toFixed2 (x : Qc) : Qc :=
  if decide (x < 0)%Qc then (- roundHundredths (- x))%Qc else roundHundredths x.

(** *** [extractFeatures] *)

Definition NOISE_TYPES : list string :=
  ["Lawnmower"; "Traffic"; "Construction"; "Fan/HVAC"; "Crowd"; "Wind"].

Record Features := {
  energy : Qc;
  zeroCrossings : Qc;
  spectralCentroid : Qc;
  spectralFlatness : Qc;
  periodicity : Qc
}.

Definition frameSize : Z := 1024.

(** The periodicity loop nest of [extractFeatures]. *)
Definition sumCorrelation (channelData : list Qc) : Qc :=
  let length := len channelData in
  for_up 1 frameSize (λ lag sumCorrelation,
    let correlation :=
      for_up 0 frameSize (λ i correlation,
        if decide (i + lag < length)
        then (correlation + rd channelData i * rd channelData (i + lag))%Qc
        else correlation) 0%Qc in
    (sumCorrelation + Math_abs correlation)%Qc) 0%Qc.

(** [extractFeatures(buffer)].  On an empty channel the two divisions by
    [channelData.length] divide zero by zero: NaN in the source, zero
    here. *)
Definition extractFeatures (buffer : AudioBuffer.t) : Rand Features :=
  let channelData := getChannelData buffer 0 in
  let energy :=
    (foldl (λ sum val, sum + val * val) 0 channelData / num (len channelData))%Qc in
  let zeroCrossings :=
    for_up 1 (len channelData) (λ i zeroCrossings,
      if decide ((0 ≤ rd channelData i ∧ rd channelData (i - 1) < 0) ∨
                 (rd channelData i < 0 ∧ 0 ≤ rd channelData (i - 1)))%Qc
      then (zeroCrossings + 1)%Qc else zeroCrossings) 0%Qc in
  let zeroCrossings := (zeroCrossings / num (len channelData))%Qc in
  let spectralCentroid := (zeroCrossings * num 10000)%Qc in
  random ← Math_random;
  let spectralFlatness := (random * dec 0.5 + dec 0.2)%Qc in
  mret {| energy := energy;
          zeroCrossings := zeroCrossings;
          spectralCentroid := spectralCentroid;
          spectralFlatness := spectralFlatness;
          periodicity := (sumCorrelation channelData / num frameSize)%Qc |}.

(** *** [simulateModelPrediction] *)

(** The condition of the [if] in each [case] of the [switch (type)]. *)
Definition thresholdPredicate (type : string) (features : Features) : bool :=
  if decide (type = "Lawnmower") then
    bool_decide (dec 0.1 < energy features ∧ dec 0.5 < periodicity features)%Qc
  else if decide (type = "Traffic") then
    bool_decide (dec 0.05 < energy features ∧ energy features < dec 0.2 ∧
                 periodicity features < dec 0.3)%Qc
  else if decide (type = "Construction") then
    bool_decide (dec 0.15 < energy features ∧ dec 0.3 < zeroCrossings features)%Qc
  else if decide (type = "Fan/HVAC") then
    bool_decide (energy features < dec 0.1 ∧ zeroCrossings features < dec 0.2 ∧
                 dec 0.6 < periodicity features)%Qc
  else if decide (type = "Crowd") then
    bool_decide (periodicity features < dec 0.2)%Qc
  else if decide (type = "Wind") then
    bool_decide (energy features < dec 0.15 ∧ zeroCrossings features < dec 0.15)%Qc
  else false.

(** The amount each [case] adds when its condition holds. *)
Definition bonus (type : string) : Qc :=
  if decide (type = "Lawnmower") then dec 0.5
  else if decide (type = "Traffic") then dec 0.4
  else if decide (type = "Construction") then dec 0.3
  else if decide (type = "Fan/HVAC") then dec 0.6
  else if decide (type = "Crowd") then dec 0.3
  else if decide (type = "Wind") then dec 0.4
  else 0%Qc.

(** The score of one archetype from its base score. *)
Definition scoreOf (type : string) (features : Features) (base : Qc) : Qc :=
  let score := base in
  let score := if thresholdPredicate type features
               then (score + bonus type)%Qc else score in
  let score := Math_min 1%Qc score in
  toFixed2 score.

Definition simulateModelPrediction (features : Features)
    : Rand (list (string * Qc)) :=
  forEach NOISE_TYPES (λ type scores,
    random ← Math_random;
    let score := (dec 0.1 + random * dec 0.2)%Qc in
    mret (obj_set scores type (scoreOf type features score))) [].

(** *** [classifyNoise] *)

(** The [forEach] over [Object.entries(scores)]: the running maximum and the
    type that reached it. *)
Definition selectHighest (scores : list (string * Qc)) : Qc * string :=
  foldl (λ '(highestScore, detectedType) '(type, score),
           if decide (highestScore < score)%Qc then (score, type)
           else (highestScore, detectedType))
        (0%Qc, "") (Object_entries scores).

(** What one classification hands to the component's state and to
    [onClassified]. *)
Record Classification := {
  features : Features;
  confidenceScores : list (string * Qc);
  noiseType : string
}.

Definition classifyNoise (audioBuffer : AudioBuffer.t) : Rand Classification :=
  features ← extractFeatures audioBuffer;
  scores ← simulateModelPrediction features;
  let '(highestScore, detectedType) := selectHighest scores in
  mret {| features := features; confidenceScores := scores;
          noiseType := detectedType |}.

(** ** The specification's own definitions

    Second definitions, written from the words of the specification and not
    from the code, to compare the code with.  The adaptive filter of
    section 4.3 is a state machine over the samples whose state is the
    weight vector, the delay line and the feedback term; it has no
    [n - k >= 0] guard: the specification sums and updates over all [k]. *)

Module Spec.

Record FilterState := {
  weights : list Qc;
  delayLine : list Qc;
  prevOutput : Qc
}.

(** weights = zeros(L), delayLine = zeros(L), prevOutput = 0 *)
Definition init (L : nat) : FilterState :=
  {| weights := replicate L 0%Qc; delayLine := replicate L 0%Qc;
     prevOutput := 0%Qc |}.

(** Shift the delay line right by one and insert [x] at index 0. *)
Definition shiftIn (x : Qc) (delayLine : list Qc) : list Qc :=
  take (length delayLine) (x :: delayLine).

Definition sum (l : list Qc) : Qc := foldr Qcplus 0%Qc l.

(** y = sum over k of weights[k] * delayLine[k] *)
Definition filterOutput (weights delayLine : list Qc) : Qc :=
  sum (zip_with Qcmult weights delayLine).

(** One sample: the emitted error and the next state. *)
Definition step (mu x : Qc) (st : FilterState) : Qc * FilterState :=
  let d := shiftIn x (delayLine st) in
  let y := filterOutput (weights st) d in
  let e := (x + prevOutput st)%Qc in
  (e, {| weights := zip_with (λ w dk, w - mu * e * dk)%Qc (weights st) d;
         delayLine := d;
         prevOutput := y |}).

Fixpoint run (mu : Qc) (st : FilterState) (input : list Qc)
    : list Qc * FilterState :=
  match input with
  | [] => ([], st)
  | x :: input' =>
      let '(e, st') := step mu x st in
      let '(es, st'') := run mu st' input' in
      (e :: es, st'')
  end.

Definition runLMS (inputSignal : list Qc) (mu : Qc) (L : nat) : list Qc :=
  (run mu (init L) inputSignal).1.

(** Section 4.1: the sum over lag in [1, 1024) of the absolute value of
    the sum over i in [0, 1024) of signal[i] * signal[i + lag], only where
    i + lag is in bounds, divided by 1024. *)
Definition periodicity (signal : list Qc) : Qc :=
  (sum ((λ lag,
          Math_abs (sum ((λ i : Z, rd signal i * rd signal (i + lag)%Z)
                         <$> filter (λ i, i + lag < len signal)%Z (seqZ 0 1024))))
        <$> seqZ 1 1023)
   / num 1024)%Qc.

(** Section 4.4: the centered moving average with window radius 3, a
    7-tap box filter around index [i]. *)
Definition boxAverage (signal : list Qc) (i : Z) : Qc :=
  (sum ((λ j, rd signal (i + j)) <$> seqZ (-3) 7) / num 7)%Qc.

End Spec.

(** ** The loop variables as a state of the specification's machine *)

Definition filterState (st : LoopState) : Spec.FilterState :=
  {| Spec.weights := st_weights st; Spec.delayLine := st_buffer st;
     Spec.prevOutput := st_prevOutput st |}.

(** Before sample [n]: both arrays have [filterLength] elements and the
    delay line is zero from index [n] on. *)
Definition loopInv (filterLength : nat) (n : Z) (st : LoopState) : Prop :=
  length (st_weights st) = filterLength ∧ length (st_buffer st) = filterLength ∧
  ∀ k, n ≤ k < Z.of_nat filterLength → rd (st_buffer st) k = 0%Qc.

(** ** The claims' phrases and concrete inputs *)

(** "Its threshold predicate is the only one matching." *)
Definition onlyFanMatches (f : Features) : Prop :=
  ∀ type, type ∈ NOISE_TYPES → thresholdPredicate type f = true → type = "Fan/HVAC".

(** Every value [Math.random()] returns lies in [0, 1). *)
Definition unitDraws (rnd : nat → Qc) : Prop :=
  ∀ n, (0 <= rnd n)%Qc ∧ (rnd n < 1)%Qc.

(** The score the classifier reports for Fan/HVAC when its predicate holds:
    min(1, base + 0.6) rounded to two decimals, [base] being made from the
    fifth value of the random source (one is used by [extractFeatures],
    three by the archetypes before Fan/HVAC). *)
Definition fanScore (rnd : nat → Qc) : Qc :=
  toFixed2 (Math_min 1%Qc (dec 0.1 + rnd 4%nat * dec 0.2 + dec 0.6)%Qc).

(** The scenario of section 8.6 with the sentence in brackets read as part
    of the conclusion. *)
Definition hvacScenarioAsStated (audioBuffer : AudioBuffer.t) (rnd : nat → Qc)
    : Prop :=
  let c := (classifyNoise audioBuffer rnd).1 in
  unitDraws rnd →
  (dec 0.6 < periodicity (features c))%Qc →
  (energy (features c) < dec 0.1)%Qc →
  (zeroCrossings (features c) < dec 0.2)%Qc →
  noiseType c = "Fan/HVAC" ∧
  confidenceScores c !! 3%nat = Some ("Fan/HVAC", fanScore rnd) ∧
  onlyFanMatches (features c).

(** Four samples. *)
Definition fourSamples : list Qc := [dec 0.5; dec 1; dec (-0.25); dec 0.75].

(** A steady hum: 120 samples of 0.3, one channel, 44.1 kHz. *)
Definition hum : AudioBuffer.t :=
  {| AudioBuffer.numberOfChannels := 1;
     AudioBuffer.length := 120;
     AudioBuffer.sampleRate := num 44100;
     AudioBuffer.channels := [replicate 120 (dec 0.3)] |}.

(** The same hum with a second, different channel. *)
Definition humStereo : AudioBuffer.t :=
  {| AudioBuffer.numberOfChannels := 2;
     AudioBuffer.length := 120;
     AudioBuffer.sampleRate := num 44100;
     AudioBuffer.channels := [replicate 120 (dec 0.3); replicate 120 (dec (-0.8))] |}.

(** A short two-channel buffer. *)
Definition shortStereo : AudioBuffer.t :=
  {| AudioBuffer.numberOfChannels := 2;
     AudioBuffer.length := 4;
     AudioBuffer.sampleRate := num 44100;
     AudioBuffer.channels := [fourSamples; [dec 2; dec (-2); dec 2; dec (-2)]] |}.

(** A random source: the fifth value is 0, every other value is 0.999. *)
Definition humDraws : nat → Qc :=
  λ n, if decide (n = 4%nat) then 0%Qc else dec 0.999.

(** ** Further code of the repository

    The rest of [src/lib/audio-processor.ts], the caller of [processAudio]
    in the page component, and the way the classifier component displays
    its scores. *)

(** [applySpectralSubtraction(inputData, outputData, fftSize, overlapFactor)]
    (audio-processor.ts); the result is the content of [outputData] when
    the call returns.  The last two parameters are not used by the body. *)
Definition applySpectralSubtraction (inputData outputData : list Qc)
    (fftSize overlapFactor : Qc) : list Qc :=
  for_up 0 (len inputData)
    (λ i outputData, wr outputData i (rd inputData i * dec 0.8)%Qc) outputData.

(** [noiseType || "unknown"], for [noiseType : string | null]: [null] and
    the empty string are falsy. *)
Definition orUnknown (noiseType : option string) : string :=
  match noiseType with
  | Some type => if decide (type = "") then "unknown" else type
  | None => "unknown"
  end.

(** [processNoiseCancellation] of the page component: the value of the state
    variable [processedAudio] after the call.  Without audio or without an
    audio context the function returns at once. *)
Definition processNoiseCancellation (originalAudio : option AudioBuffer.t)
    (audioContext : bool) (noiseType : option string)
    (processedAudio : option AudioBuffer.t) : option AudioBuffer.t :=
  match originalAudio with
  | None => processedAudio
  | Some buffer =>
      if audioContext then Some (processAudio buffer (orUnknown noiseType))
      else processedAudio
  end.

(** [Math.round]: the nearest integer, the larger one of two equally near. *)
Definition Math_round (x : Qc) : Qc := num (Qfloor (x + dec 0.5)%Qc).

(** The percentage the classifier component prints beside a score:
    [Math.round(score * 100)]. *)
Definition percentShown (score : Qc) : Qc := Math_round (score * num 100)%Qc.

(** [array.sort(compare)].  The sort is stable, and [compare(a, b) > 0]
    puts [a] after [b]; for a comparator that orders consistently the
    result of a stable sort is unique, and it is the one of this insertion
    sort. *)
Fixpoint insertSorted {A} (compare : A → A → Qc) (a : A) (l : list A) : list A :=
  match l with
  | [] => [a]
  | b :: l' =>
      if decide (0 < compare a b)%Qc then b :: insertSorted compare a l'
      else a :: l
  end.

Definition Array_sort {A} (compare : A → A → Qc) (l : list A) : list A :=
  foldr (insertSorted compare) [] l.

(** The rows of the confidence list, in the order the component renders
    them: [Object.entries(confidenceScores).sort(([, a], [, b]) => b - a)]. *)
Definition displayedScores (confidenceScores : list (string * Qc))
    : list (string * Qc) :=
  Array_sort (λ '(_, a) '(_, b), b - a)%Qc (Object_entries confidenceScores).

(** A buffer of silence: two channels of five zeros. *)
Definition silentStereo : AudioBuffer.t := createBuffer 2 5 (num 48000).

(** Features of a quiet, periodic noise. *)
Definition quietFeatures : Features :=
  {| energy := dec 0.05; zeroCrossings := dec 0.1; spectralCentroid := num 1000;
     spectralFlatness := dec 0.45; periodicity := dec 0.7 |}.

(** 2047 samples of 0.3 followed by [tail], one channel. *)
Definition longTone (tail : list Qc) : AudioBuffer.t :=
  {| AudioBuffer.numberOfChannels := 1;
     AudioBuffer.length := 2047 + length tail;
     AudioBuffer.sampleRate := num 44100;
     AudioBuffer.channels := [replicate 2047 (dec 0.3) ++ tail] |}.

(** An entry at position [i] that no entry beats and that beats every
    entry before it. *)
Definition firstMaxAt (scores : list (string * Qc)) (i : nat) (e : string * Qc)
    : Prop :=
  scores !! i = Some e ∧
  Forall (λ '(_, s), s <= e.2)%Qc scores ∧
  Forall (λ '(_, s), s < e.2)%Qc (take i scores).

(** The state of the specification's machine for the input of opposite
    polarity: the same weights, the delay line and the feedback term
    negated. *)
Definition negState (st : Spec.FilterState) : Spec.FilterState :=
  {| Spec.weights := Spec.weights st;
     Spec.delayLine := Qcopp <$> Spec.delayLine st;
     Spec.prevOutput := (- Spec.prevOutput st)%Qc |}.

(** ** Samples that are not finite

    A [Float32Array] also holds NaN and the two infinities, and the sample
    loop of [applyLMSFilter] stores them once the weights have diverged.
    The numbers of this module are the rationals together with these three
    values; the operations follow IEEE 754 on the special values and are
    exact on the rationals (the sign of a zero is not modelled: a zero
    divisor counts as positive).  An element read outside the bounds is
    [undefined], which arithmetic turns into NaN. *)

Module Js.

Inductive number := Fin (q : Qc) | PosInf | NegInf | NaN.

Global Instance number_inhabited : Inhabited number := populate NaN.

(** [Number.isFinite] *)
Definition isFinite (x : number) : Prop :=
  match x with Fin _ => True | _ => False end.

(** [x + y] *)
Definition add (x y : number) : number :=
  match x, y with
  | NaN, _ | _, NaN => NaN
  | Fin a, Fin b => Fin (a + b)%Qc
  | PosInf, NegInf | NegInf, PosInf => NaN
  | PosInf, _ | _, PosInf => PosInf
  | NegInf, _ | _, NegInf => NegInf
  end.

Definition signed (positive : bool) : number :=
  if positive then PosInf else NegInf.

(** [x * y] *)
Definition mul (x y : number) : number :=
  match x, y with
  | NaN, _ | _, NaN => NaN
  | Fin a, Fin b => Fin (a * b)%Qc
  | PosInf, Fin b | Fin b, PosInf =>
      if decide (b = 0%Qc) then NaN else signed (bool_decide (0 < b)%Qc)
  | NegInf, Fin b | Fin b, NegInf =>
      if decide (b = 0%Qc) then NaN else signed (bool_decide (b < 0)%Qc)
  | PosInf, PosInf | NegInf, NegInf => PosInf
  | PosInf, NegInf | NegInf, PosInf => NegInf
  end.

(** [x / y] *)
Definition div (x y : number) : number :=
  match x, y with
  | NaN, _ | _, NaN => NaN
  | Fin a, Fin b =>
      if decide (b = 0%Qc)
      then (if decide (a = 0%Qc) then NaN else signed (bool_decide (0 < a)%Qc))
      else Fin (a / b)%Qc
  | Fin _, (PosInf | NegInf) => Fin 0%Qc
  | PosInf, Fin b => signed (bool_decide (0 <= b)%Qc)
  | NegInf, Fin b => signed (bool_decide (b < 0)%Qc)
  | (PosInf | NegInf), (PosInf | NegInf) => NaN
  end.

(** [Math.abs] *)
Definition Math_abs (x : number) : number :=
  match x with
  | Fin a => Fin (Math_abs a)
  | PosInf | NegInf => PosInf
  | NaN => NaN
  end.

(** [Math.max]: NaN as soon as one argument is NaN. *)
Definition Math_max (x y : number) : number :=
  match x, y with
  | NaN, _ | _, NaN => NaN
  | PosInf, _ | _, PosInf => PosInf
  | NegInf, z | z, NegInf => z
  | Fin a, Fin b => Fin (Math_max a b)
  end.

(** [x > y]: false as soon as one side is NaN. *)
Definition gt (x y : number) : bool :=
  match x, y with
  | NaN, _ | _, NaN => false
  | Fin a, Fin b => bool_decide (b < a)%Qc
  | _, PosInf | NegInf, _ => false
  | PosInf, _ | _, NegInf => true
  end.

(** [x <= y]: false as soon as one side is NaN. *)
Definition le (x y : number) : bool :=
  match x, y with
  | NaN, _ | _, NaN => false
  | Fin a, Fin b => bool_decide (a <= b)%Qc
  | _, PosInf | NegInf, _ => true
  | PosInf, _ | _, NegInf => false
  end.

Definition new_Float32Array (n : nat) : list number := replicate n (Fin 0%Qc).

(** [applyPostProcessing] (audio-processor.ts), statement by statement as
    above, over these numbers. *)
Definition movingAverage (signal : list number) : list number :=
  let temp := new_Float32Array (length signal) in
  let temp := for_up 0 (len signal) (λ i temp, wr temp i (rd signal i)) temp in
  for_up windowSize (len signal - windowSize) (λ i signal,
    let sum := for_up (- windowSize) (windowSize + 1)
                 (λ j sum, add sum (rd temp (i + j))) (Fin 0%Qc) in
    wr signal i (div sum (Fin (num (2 * windowSize + 1))))) signal.

Definition maxAmplitude (signal : list number) : number :=
  for_up 0 (len signal) (λ i m, Math_max m (Math_abs (rd signal i))) (Fin 0%Qc).

Definition normalize (signal : list number) : list number :=
  let maxAmplitude := maxAmplitude signal in
  if gt maxAmplitude (Fin (dec 0.9)) then
    let scaleFactor := div (Fin (dec 0.9)) maxAmplitude in
    for_up 0 (len signal)
      (λ i signal, wr signal i (mul (rd signal i) scaleFactor)) signal
  else signal.

Definition applyPostProcessing (signal : list number) : list number :=
  normalize (movingAverage signal).

End Js.

(** The amplitude bound as the specification states it, for every array:
    no sample of the post-processed signal exceeds 0.9 in absolute value. *)
Definition amplitudeBoundAsStated (signal : list Js.number) : Prop :=
  Forall (λ x, Js.gt (Js.Math_abs x) (Js.Fin (dec 0.9)) = false)
    (Js.applyPostProcessing signal).

(** Three samples, the second one NaN. *)
Definition nanSignal : list Js.number :=
  [Js.Fin (dec 0.5); Js.NaN; Js.Fin (num 4)].

(** Nine finite samples, 1 to 9. *)
Definition ramp : list Js.number :=
  Js.Fin <$> (num <$> [1; 2; 3; 4; 5; 6; 7; 8; 9]).

(** ** Loop rules *)

Section loops.
Context {S : Type}.
Implicit Types (body : Z → S → S) (s : S).

Lemma iterate_last fuel i step body s :
  iterate (Datatypes.S fuel) i step body s
  = body (i + Z.of_nat fuel * step) (iterate fuel i step body s).
Proof.
  revert i s. induction fuel as [|fuel IH]; intros i s.
  - simpl. f_equal. lia.
  - change (iterate (Datatypes.S (Datatypes.S fuel)) i step body s)
      with (iterate (Datatypes.S fuel) (i + step) step body (body i s)).
    rewrite IH. simpl. f_equal. lia.
Qed.

Lemma for_up_nil lo hi body s : hi ≤ lo → for_up lo hi body s = s.
Proof. intros. unfold for_up. by replace (Z.to_nat (hi - lo)) with O by lia. Qed.

Lemma for_up_last lo hi body s :
  lo ≤ hi → for_up lo (hi + 1) body s = body hi (for_up lo hi body s).
Proof.
  intros. unfold for_up.
  replace (Z.to_nat (hi + 1 - lo)) with (Datatypes.S (Z.to_nat (hi - lo))) by lia.
  rewrite iterate_last. f_equal. lia.
Qed.

Lemma for_down_nil hi lo body s : hi ≤ lo → for_down hi lo body s = s.
Proof. intros. unfold for_down. by replace (Z.to_nat (hi - lo)) with O by lia. Qed.

Lemma for_down_last hi lo body s :
  lo ≤ hi → for_down hi (lo - 1) body s = body lo (for_down hi lo body s).
Proof.
  intros. unfold for_down.
  replace (Z.to_nat (hi - (lo - 1))) with (Datatypes.S (Z.to_nat (hi - lo))) by lia.
  rewrite iterate_last. f_equal. lia.
Qed.

(** The invariant rule of an upward loop: [P i s] reads "[s] is the state
    when the counter is [i]". *)
Lemma for_up_inv (P : Z → S → Prop) lo hi body s :
  lo ≤ hi →
  P lo s →
  (∀ i s, lo ≤ i < hi → P i s → P (i + 1) (body i s)) →
  P hi (for_up lo hi body s).
Proof.
  intros Hle H0 Hstep.
  assert (∀ m : nat, lo + Z.of_nat m ≤ hi →
            P (lo + Z.of_nat m) (for_up lo (lo + Z.of_nat m) body s)) as Hm.
  { induction m as [|m IH]; intros Hm.
    - rewrite for_up_nil by lia. by replace (lo + Z.of_nat 0) with lo by lia.
    - replace (lo + Z.of_nat (Datatypes.S m)) with (lo + Z.of_nat m + 1) by lia.
      rewrite for_up_last by lia. apply Hstep; [lia|]. apply IH. lia. }
  specialize (Hm (Z.to_nat (hi - lo))).
  replace (lo + Z.of_nat (Z.to_nat (hi - lo))) with hi in Hm by lia.
  apply Hm. lia.
Qed.

(** The invariant rule of a downward loop. *)
Lemma for_down_inv (P : Z → S → Prop) hi lo body s :
  lo ≤ hi →
  P hi s →
  (∀ j s, lo < j ≤ hi → P j s → P (j - 1) (body j s)) →
  P lo (for_down hi lo body s).
Proof.
  intros Hle H0 Hstep.
  assert (∀ m : nat, lo ≤ hi - Z.of_nat m →
            P (hi - Z.of_nat m) (for_down hi (hi - Z.of_nat m) body s)) as Hm.
  { induction m as [|m IH]; intros Hm.
    - rewrite for_down_nil by lia. by replace (hi - Z.of_nat 0) with hi by lia.
    - replace (hi - Z.of_nat (Datatypes.S m)) with (hi - Z.of_nat m - 1) by lia.
      rewrite for_down_last by lia. apply Hstep; [lia|]. apply IH. lia. }
  specialize (Hm (Z.to_nat (hi - lo))).
  replace (hi - Z.of_nat (Z.to_nat (hi - lo))) with lo in Hm by lia.
  apply Hm. lia.
Qed.

(** Two bodies that agree on the range of the counter run the same loop. *)
Lemma for_up_ext lo hi body1 body2 s :
  (∀ i s, lo ≤ i < hi → body1 i s = body2 i s) →
  for_up lo hi body1 s = for_up lo hi body2 s.
Proof.
  intros Hext. destruct (decide (lo ≤ hi)) as [Hle|Hgt].
  - apply (for_up_inv (λ i r, r = for_up lo i body2 s) lo hi body1 s Hle).
    + by rewrite for_up_nil.
    + intros i r Hi ->. rewrite for_up_last by lia. by apply Hext.
  - by rewrite !for_up_nil by lia.
Qed.
End loops.

(** ** Array rules *)

Section arrays.
Context {A : Type} `{Inhabited A}.
Implicit Types (a b : list A) (i j : Z) (v : A).

Lemma len_nonneg a : 0 ≤ len a.
Proof. unfold len. lia. Qed.

Lemma len_wr a i v : len (wr a i v) = len a.
Proof. unfold len, wr. case_decide; by rewrite ?length_insert. Qed.

Lemma rd_wr_eq a i v : 0 ≤ i < len a → rd (wr a i v) i = v.
Proof.
  unfold len, rd, wr. intros Hi. rewrite !decide_True by lia.
  rewrite list_lookup_total_insert_eq; [done|lia].
Qed.

Lemma rd_wr_ne a i j v : i ≠ j → rd (wr a i v) j = rd a j.
Proof.
  unfold rd, wr. intros Hne. repeat case_decide; try done.
  rewrite list_lookup_total_insert_ne; [done|lia].
Qed.

Lemma rd_wr a i j v :
  0 ≤ i < len a → rd (wr a i v) j = if decide (j = i) then v else rd a j.
Proof.
  intros. case_decide; [subst; by apply rd_wr_eq | by apply rd_wr_ne].
Qed.

Lemma wr_outside a i v : ¬ (0 ≤ i < len a) → wr a i v = a.
Proof.
  unfold wr, len. intros Hi. case_decide; [|done].
  apply list_insert_ge. lia.
Qed.

Lemma rd_lookup a i v : a !! Z.to_nat i = Some v → 0 ≤ i → rd a i = v.
Proof.
  unfold rd. intros Hl Hi. rewrite decide_True by done.
  by rewrite list_lookup_total_alt, Hl.
Qed.

(** Two arrays of one length with the same elements are equal. *)
Lemma array_ext a b :
  len a = len b → (∀ i, 0 ≤ i < len a → rd a i = rd b i) → a = b.
Proof.
  unfold len. intros Hlen Hrd. apply list_eq_same_length with (length a); [lia|lia|].
  intros n x y Hn Hx Hy. specialize (Hrd (Z.of_nat n) ltac:(lia)).
  rewrite (rd_lookup a _ x), (rd_lookup b _ y) in Hrd; try lia; try done.
  all: by rewrite Nat2Z.id.
Qed.

Lemma rd_app_l a b i : 0 ≤ i < len a → rd (a ++ b) i = rd a i.
Proof.
  unfold rd, len. intros. rewrite !decide_True by lia.
  rewrite !list_lookup_total_alt, lookup_app_l; [done|lia].
Qed.

Lemma rd_app_last a v i : i = len a → rd (a ++ [v]) i = v.
Proof.
  unfold rd, len. intros ->. rewrite decide_True by lia.
  rewrite list_lookup_total_alt, lookup_app_r by lia.
  by replace (Z.to_nat (Z.of_nat (length a)) - length a)%nat with O by lia.
Qed.

Lemma rd_take a (n : nat) i : 0 ≤ i < Z.of_nat n → rd (take n a) i = rd a i.
Proof.
  unfold rd. intros. rewrite !decide_True by lia.
  rewrite !list_lookup_total_alt, lookup_take_lt; [done|lia].
Qed.

Lemma rd_cons_pos v a i : 0 < i → rd (v :: a) i = rd a (i - 1).
Proof.
  unfold rd. intros. rewrite !decide_True by lia.
  replace (Z.to_nat i) with (Datatypes.S (Z.to_nat (i - 1))) by lia. done.
Qed.

Lemma rd_replicate (n : nat) v i : 0 ≤ i < Z.of_nat n → rd (replicate n v) i = v.
Proof.
  unfold rd. intros. rewrite decide_True by lia.
  rewrite list_lookup_total_alt, lookup_replicate_2; [done|lia].
Qed.

Lemma take_rd a (n : nat) :
  (n < length a)%nat → take (Datatypes.S n) a = take n a ++ [rd a (Z.of_nat n)].
Proof.
  intros Hn. destruct (lookup_lt_is_Some_2 a n Hn) as [x Hx].
  rewrite (take_S_r _ _ x Hx). f_equal. f_equal. symmetry.
  apply rd_lookup; [by rewrite Nat2Z.id | lia].
Qed.

(** A loop that rewrites element [i] from element [i] alone. *)
Lemma for_up_pointwise (g : Z → A → A) lo hi a :
  0 ≤ lo → hi ≤ len a →
  let r := for_up lo hi (λ i a, wr a i (g i (rd a i))) a in
  len r = len a ∧
  ∀ i, rd r i = if decide (lo ≤ i < hi) then g i (rd a i) else rd a i.
Proof.
  intros Hlo Hhi. destruct (decide (lo ≤ hi)) as [Hle|Hgt]; cycle 1.
  { simpl. rewrite for_up_nil by lia. split; [done|].
    intros i. by rewrite decide_False by lia. }
  apply (for_up_inv (λ k r, len r = len a ∧
           ∀ i, rd r i = if decide (lo ≤ i < k) then g i (rd a i) else rd a i)
           lo hi _ a Hle).
  - split; [done|]. intros i. by rewrite decide_False by lia.
  - intros k r Hk [Hlen Hr]. split; [by rewrite len_wr|].
    intros i. rewrite rd_wr by lia. case_decide as Hik.
    + subst i. rewrite decide_True by lia. rewrite Hr.
      by rewrite decide_False by lia.
    + rewrite Hr. repeat case_decide; try done; lia.
Qed.
End arrays.

(** ** The sample loop against the specification's state machine *)

Lemma rd_zip_with (f : Qc → Qc → Qc) (a b : list Qc) i :
  0 ≤ i < len a → 0 ≤ i < len b → rd (zip_with f a b) i = f (rd a i) (rd b i).
Proof.
  unfold len. intros Ha Hb.
  destruct (lookup_lt_is_Some_2 a (Z.to_nat i)) as [x Hx]; [lia|].
  destruct (lookup_lt_is_Some_2 b (Z.to_nat i)) as [y Hy]; [lia|].
  rewrite (rd_lookup a i x), (rd_lookup b i y) by (done || lia).
  apply rd_lookup; [|lia]. rewrite lookup_zip_with, Hx. simpl. by rewrite Hy.
Qed.

Lemma wr_rd_id (a : list Qc) i : wr a i (rd a i) = a.
Proof.
  destruct (decide (0 ≤ i < len a)) as [Hi|Hi]; [|by apply wr_outside].
  unfold wr, rd, len in *. rewrite !decide_True by lia.
  apply list_insert_id. rewrite list_lookup_total_alt.
  destruct (lookup_lt_is_Some_2 a (Z.to_nat i)) as [x ->]; [lia|done].
Qed.

Lemma sum_snoc (l : list Qc) (x : Qc) : Spec.sum (l ++ [x]) = (Spec.sum l + x)%Qc.
Proof.
  unfold Spec.sum. induction l as [|y l IH]; simpl; [ring|]. rewrite IH. ring.
Qed.

Lemma run_snoc mu st input x :
  Spec.run mu st (input ++ [x])
  = let '(es, st') := Spec.run mu st input in
    let '(e, st'') := Spec.step mu x st' in
    (es ++ [e], st'').
Proof.
  revert st. induction input as [|x0 input IH]; intros st; [done|].
  simpl. rewrite IH. by destruct (Spec.run mu _ input) as [es st1].
Qed.

Lemma run_length mu st input : length (Spec.run mu st input).1 = length input.
Proof.
  revert st. induction input as [|x input IH]; intros st; [done|].
  simpl. specialize (IH (Spec.step mu x st).2).
  destruct (Spec.run mu _ input). simpl in *. by rewrite IH.
Qed.

Section refinement.
Variables (inputSignal : list Qc) (stepSize : Qc) (filterLength : nat).

Local Abbreviation L := (Z.of_nat filterLength).

(** The delay-line update of the code is the shift of the specification. *)
Lemma shift_loop (x : Qc) (b : list Qc) :
  length b = filterLength →
  wr (for_down (L - 1) 0 (λ j buffer, wr buffer j (rd buffer (j - 1))) b) 0 x
  = Spec.shiftIn x b.
Proof.
  intros Hb. destruct (decide (L = 0)) as [HL|HL].
  { destruct b; [|simpl in Hb; lia]. by rewrite for_down_nil by lia. }
  assert (len b = L) as Hlen by (unfold len; lia).
  pose proof (for_down_inv (λ j b', len b' = len b ∧
                ∀ i, rd b' i = if decide (j < i < L) then rd b (i - 1) else rd b i)
                (L - 1) 0 (λ j buffer, wr buffer j (rd buffer (j - 1))) b) as Hinv.
  destruct Hinv as [Hl Hr]; [lia| |intros j b' Hj [Hl Hr]|].
  - split; [done|]. intros i. by rewrite decide_False by lia.
  - split; [by rewrite len_wr|]. intros i. rewrite rd_wr by lia.
    rewrite !Hr. repeat case_decide; subst; try done; lia.
  - apply array_ext.
    + rewrite len_wr, Hl. unfold Spec.shiftIn, len. rewrite length_take. simpl. lia.
    + intros i Hi. rewrite len_wr, Hl in Hi. unfold Spec.shiftIn.
      rewrite rd_take by lia. rewrite rd_wr by lia. case_decide as Hi0.
      * by subst i.
      * rewrite rd_cons_pos by lia. rewrite Hr. by rewrite decide_True by lia.
Qed.

(** The guarded sum of the code is the full sum of the specification as
    long as the delay line is still zero beyond index [n]. *)
Lemma guarded_output (n : Z) (w d : list Qc) :
  length w = filterLength → length d = filterLength →
  (∀ k, n < k < L → rd d k = 0%Qc) →
  for_up 0 L (λ k y, if decide (n - k >= 0) then (y + rd w k * rd d k)%Qc else y) 0%Qc
  = Spec.filterOutput w d.
Proof.
  intros Hw Hd Hz.
  pose proof (for_up_inv (λ k y, y = Spec.filterOutput (take (Z.to_nat k) w)
                                                     (take (Z.to_nat k) d))
                0 L (λ k y, if decide (n - k >= 0)
                            then (y + rd w k * rd d k)%Qc else y) 0%Qc) as Hinv.
  simpl in Hinv. rewrite Hinv; [|lia|done|].
  - by rewrite Nat2Z.id, !take_ge by lia.
  - intros k y Hk ->.
    replace (Z.to_nat (k + 1)) with (Datatypes.S (Z.to_nat k)) by lia.
    rewrite !take_rd by lia. rewrite !Z2Nat.id by lia.
    unfold Spec.filterOutput. rewrite zip_with_app by (rewrite !length_take; lia).
    simpl. rewrite sum_snoc. case_decide; [done|].
    rewrite (Hz k) by lia. ring.
Qed.

(** The guarded weight update of the code is the full update of the
    specification under the same condition. *)
Lemma guarded_update (n : Z) (c : Qc) (w d : list Qc) :
  length w = filterLength → length d = filterLength →
  (∀ k, n < k < L → rd d k = 0%Qc) →
  for_up 0 L (λ k weights, if decide (n - k >= 0)
                           then wr weights k (rd weights k - c * rd d k)%Qc
                           else weights) w
  = zip_with (λ wk dk, wk - c * dk)%Qc w d.
Proof.
  intros Hw Hd Hz.
  rewrite (for_up_ext _ _ _
             (λ k a, wr a k ((λ k v, if decide (n - k >= 0)
                                     then (v - c * rd d k)%Qc else v) k (rd a k)))).
  2:{ intros k a _. simpl. case_decide; [done|]. by rewrite wr_rd_id. }
  destruct (for_up_pointwise
              (λ k v, if decide (n - k >= 0) then (v - c * rd d k)%Qc else v) 0 L w)
    as [Hl Hr]; [lia|unfold len; lia|].
  apply array_ext.
  - rewrite Hl. unfold len. rewrite length_zip_with. lia.
  - intros i Hi. rewrite Hl in Hi. rewrite Hr.
    rewrite rd_zip_with by (unfold len in *; lia).
    unfold len in Hi. rewrite decide_True by lia. case_decide; [done|].
    rewrite (Hz i) by lia. ring.
Qed.

Local Abbreviation loopInv := (loopInv filterLength).

Lemma lmsBody_step (n : Z) (st : LoopState) :
  0 ≤ n → loopInv n st →
  let r := lmsBody inputSignal stepSize L n st in
  let s := Spec.step stepSize (rd inputSignal n) (filterState st) in
  filterState r = s.2 ∧
  st_outputSignal r = wr (st_outputSignal st) n s.1 ∧
  loopInv (n + 1) r.
Proof.
  intros Hn (Hw & Hb & Hz). unfold lmsBody. simpl.
  rewrite (shift_loop _ _ Hb).
  assert (length (Spec.shiftIn (rd inputSignal n) (st_buffer st)) = filterLength)
    as Hb'.
  { unfold Spec.shiftIn. rewrite length_take. simpl. lia. }
  assert (∀ k, n < k < L →
            rd (Spec.shiftIn (rd inputSignal n) (st_buffer st)) k = 0%Qc) as Hz'.
  { intros k Hk. unfold Spec.shiftIn. rewrite rd_take by lia.
    rewrite rd_cons_pos by lia. apply Hz. lia. }
  rewrite (guarded_output _ _ _ Hw Hb' Hz').
  rewrite (guarded_update _ _ _ _ Hw Hb' Hz').
  split; [done|]. split; [done|]. split; [|split; [done|]]; simpl.
  - rewrite length_zip_with. lia.
  - intros k Hk. apply Hz'. lia.
Qed.

(** After the loop the variables hold the final state of the
    specification's machine, and the samples written are its emitted
    errors. *)
Lemma lmsLoop_refines (outputSignal : list Qc) :
  length outputSignal = length inputSignal →
  let r := lmsLoop inputSignal outputSignal stepSize filterLength in
  let s := Spec.run stepSize (Spec.init filterLength) inputSignal in
  filterState r = s.2 ∧ st_outputSignal r = s.1.
Proof.
  intros Hout. simpl.
  set (run n := Spec.run stepSize (Spec.init filterLength)
                  (take (Z.to_nat n) inputSignal)).
  pose proof (for_up_inv (λ n st,
      filterState st = (run n).2 ∧ loopInv n st ∧
      len (st_outputSignal st) = len outputSignal ∧
      ∀ i, 0 ≤ i < len outputSignal →
           rd (st_outputSignal st) i
           = if decide (i < n) then rd (run n).1 i else rd outputSignal i)
    0 (len inputSignal) (lmsBody inputSignal stepSize L)
    {| st_weights := new_Float32Array filterLength;
       st_buffer := new_Float32Array filterLength;
       st_prevOutput := 0%Qc; st_outputSignal := outputSignal |}) as Hinv.
  destruct Hinv as (Hst & _ & Hl & Hr).
  - apply len_nonneg.
  - split; [done|]. split.
    + split; [apply length_replicate|]. split; [apply length_replicate|].
      intros k Hk. simpl. unfold new_Float32Array. apply rd_replicate. lia.
    + split; [done|]. intros i Hi. by rewrite decide_False by lia.
  - intros n st Hn (Hst & Hinv & Hl & Hr).
    destruct (lmsBody_step n st) as (Hst' & Hout' & Hinv'); [lia|done|].
    assert (run (n + 1)
            = let '(es, st') := run n in
              let '(e, st'') := Spec.step stepSize (rd inputSignal n) st' in
              (es ++ [e], st'')) as Hrun.
    { unfold run. replace (Z.to_nat (n + 1)) with (Datatypes.S (Z.to_nat n)) by lia.
      rewrite take_rd by (unfold len in Hn; lia).
      rewrite run_snoc. by rewrite Z2Nat.id by lia. }
    assert (length (run n).1 = Z.to_nat n) as Hlen.
    { unfold run. rewrite run_length, length_take. unfold len in Hn. lia. }
    rewrite Hst in Hst', Hout'. rewrite Hrun.
    destruct (run n) as [es sst]. simpl in *.
    destruct (Spec.step stepSize (rd inputSignal n) sst) as [e sst'']. simpl in *.
    split; [done|]. split; [done|]. rewrite Hout'. split; [by rewrite len_wr|].
    intros i Hi. unfold len in Hn. destruct (decide (i = n)) as [->|Hne].
    + rewrite rd_wr_eq by lia. rewrite decide_True by lia.
      by rewrite rd_app_last by (unfold len; lia).
    + rewrite rd_wr_ne by done. rewrite Hr by done.
      repeat case_decide; try done; try lia.
      rewrite rd_app_l; [done|unfold len; lia].
  - unfold lmsLoop. unfold run in *.
    unfold len in *. rewrite Nat2Z.id, take_ge in * by lia.
    split; [done|]. apply array_ext.
    + unfold len. rewrite run_length. lia.
    + intros i Hi. unfold len in *. rewrite Hr by lia. by rewrite decide_True by lia.
Qed.
End refinement.

(** ** Exact arithmetic on the rationals

    Order facts about [Qc] are proved on the underlying fractions, where
    [lra] applies. *)

Local Open Scope Qc_scope.

Lemma this_plus (x y : Qc) : (this (x + y) == this x + this y)%Q.
Proof. simpl. apply Qred_correct. Qed.

Lemma this_mult (x y : Qc) : (this (x * y) == this x * this y)%Q.
Proof. simpl. apply Qred_correct. Qed.

Lemma this_opp (x : Qc) : (this (- x) == - this x)%Q.
Proof. simpl. apply Qred_correct. Qed.

Lemma this_minus (x y : Qc) : (this (x - y) == this x - this y)%Q.
Proof. unfold Qcminus. rewrite this_plus, this_opp. reflexivity. Qed.

Lemma this_Q2Qc (q : Q) : (this (Q2Qc q) == q)%Q.
Proof. simpl. apply Qred_correct. Qed.

Lemma Qc_eq_Qeq (x y : Qc) : x = y -> (this x == this y)%Q.
Proof. intros ->. reflexivity. Qed.

Ltac qc2q :=
  unfold Qcle, Qclt in *;
  repeat match goal with
  | H : @eq Qc ?x ?y |- _ => apply Qc_eq_Qeq in H
  | |- @eq Qc ?x ?y => apply Qc_is_canon
  end;
  rewrite ?this_plus, ?this_mult, ?this_opp, ?this_minus, ?this_Q2Qc in *.

Lemma this_num (n : Z) : (this (num n) == inject_Z n)%Q.
Proof. apply this_Q2Qc. Qed.

Lemma Math_abs_nonneg x : 0 <= Math_abs x.
Proof. unfold Math_abs. case_decide; qc2q; lra. Qed.

Lemma Math_abs_mult_nonneg x c : 0 <= c -> Math_abs (x * c) = Math_abs x * c.
Proof.
  intros Hc. unfold Math_abs. repeat case_decide; try ring.
  - destruct (decide (c = 0)) as [->|Hne]; [ring|].
    assert (0 < c) as Hpos.
    { apply Qcle_lt_or_eq in Hc as [?|?]; [done|congruence]. }
    exfalso. apply Qcnot_lt_le in H0. apply (Qclt_not_le _ _ H).
    rewrite <- (Qcmult_0_l c). by apply Qcmult_le_compat_r.
  - destruct (decide (c = 0)) as [->|Hne]; [ring|].
    assert (0 < c) as Hpos.
    { apply Qcle_lt_or_eq in Hc as [?|?]; [done|congruence]. }
    exfalso. apply H. rewrite <- (Qcmult_0_l c). by apply Qcmult_lt_compat_r.
Qed.

Lemma Math_max_ge_l x y : x <= Math_max x y.
Proof. unfold Math_max. case_decide; qc2q; lra. Qed.

Lemma Math_max_ge_r x y : y <= Math_max x y.
Proof. unfold Math_max. case_decide; qc2q; lra. Qed.

Lemma Math_max_cases x y : Math_max x y = x ∨ Math_max x y = y.
Proof. unfold Math_max. case_decide; auto. Qed.

Lemma scale_bound x peak :
  Math_abs x <= peak -> dec 0.9 < peak -> Math_abs (x * (dec 0.9 / peak)) <= dec 0.9.
Proof.
  intros Hx Hp.
  assert (0 < peak) as Hpos by (qc2q; lra).
  assert (peak * (dec 0.9 / peak) = dec 0.9) as E.
  { field. intros ->. qc2q. lra. }
  assert (0 <= dec 0.9 / peak) as Hc.
  { apply (Qcmult_lt_0_le_reg_r _ _ peak Hpos).
    rewrite Qcmult_0_l, (Qcmult_comm _ peak), E. done. }
  rewrite Math_abs_mult_nonneg by done.
  rewrite <- E at 2. by apply Qcmult_le_compat_r.
Qed.

(** *** [applyPostProcessing] *)

Local Open Scope Z_scope.

Lemma rd_fmap {A B} `{Inhabited A, Inhabited B} (f : A → B) (a : list A) i :
  0 ≤ i < len a → rd (f <$> a) i = f (rd a i).
Proof.
  unfold len. intros Hi.
  destruct (lookup_lt_is_Some_2 a (Z.to_nat i)) as [x Hx]; [lia|].
  rewrite (rd_lookup a i x) by (done || lia).
  apply rd_lookup; [|lia]. by rewrite list_lookup_fmap, Hx.
Qed.

(** The copy loop leaves [temp] equal to [signal]. *)
Lemma copy_loop (signal : list Qc) :
  for_up 0 (len signal) (λ i temp, wr temp i (rd signal i))
    (new_Float32Array (length signal)) = signal.
Proof.
  destruct (for_up_pointwise (λ i _, rd signal i) 0 (len signal)
              (new_Float32Array (length signal))) as [Hl Hr]; [lia| |].
  { unfold len, new_Float32Array. rewrite length_replicate. lia. }
  assert (len (new_Float32Array (length signal)) = len signal) as Hlen.
  { unfold len, new_Float32Array. by rewrite length_replicate. }
  apply array_ext; [by rewrite Hl|].
  intros i Hi. rewrite Hl, Hlen in Hi. rewrite Hr. by rewrite decide_True by lia.
Qed.


Lemma window_sum (temp : list Qc) i :
  (for_up (- windowSize) (windowSize + 1) (λ j sum, (sum + rd temp (i + j))%Qc) 0%Qc
   / num (2 * windowSize + 1))%Qc
  = Spec.boxAverage temp i.
Proof.
  unfold Spec.boxAverage. f_equal.
  change (0 + rd temp (i + -3) + rd temp (i + -2) + rd temp (i + -1)
          + rd temp (i + 0) + rd temp (i + 1) + rd temp (i + 2) + rd temp (i + 3)
          = rd temp (i + -3) + (rd temp (i + -2) + (rd temp (i + -1)
            + (rd temp (i + 0) + (rd temp (i + 1) + (rd temp (i + 2)
            + (rd temp (i + 3) + 0)))))))%Qc.
  ring.
Qed.

Lemma movingAverage_spec (signal : list Qc) :
  len (movingAverage signal) = len signal ∧
  ∀ i, rd (movingAverage signal) i
       = if decide (3 ≤ i < len signal - 3) then Spec.boxAverage signal i
         else rd signal i.
Proof.
  unfold movingAverage. rewrite copy_loop.
  rewrite (for_up_ext _ _ _ (λ i a, wr a i ((λ i _, Spec.boxAverage signal i) i (rd a i)))).
  2:{ intros i a _. by rewrite window_sum. }
  apply (for_up_pointwise (λ i _, Spec.boxAverage signal i)); unfold windowSize; lia.
Qed.

Lemma maxAmplitude_spec (signal : list Qc) :
  (0 <= maxAmplitude signal)%Qc ∧
  Forall (λ x, Math_abs x <= maxAmplitude signal)%Qc signal ∧
  (maxAmplitude signal = 0%Qc ∨ maxAmplitude signal ∈ Math_abs <$> signal).
Proof.
  pose proof (for_up_inv (λ k m,
      (0 <= m)%Qc ∧
      (∀ i, 0 ≤ i < k → (Math_abs (rd signal i) <= m)%Qc) ∧
      (m = 0%Qc ∨ ∃ i, 0 ≤ i < k ∧ m = Math_abs (rd signal i)))
    0 (len signal) (λ i m, Math_max m (Math_abs (rd signal i))) 0%Qc) as Hinv.
  destruct Hinv as (H0 & Hub & Hatt).
  - apply len_nonneg.
  - split; [done|]. split; [intros; lia|by left].
  - intros k m Hk (H0 & Hub & Hatt). split; [|split].
    + apply Qcle_trans with m; [done|apply Math_max_ge_l].
    + intros i Hi. destruct (decide (i = k)) as [->|Hne]; [apply Math_max_ge_r|].
      apply Qcle_trans with m; [apply Hub; lia|apply Math_max_ge_l].
    + destruct (Math_max_cases m (Math_abs (rd signal k))) as [->| ->].
      * destruct Hatt as [?|(i & Hi & ?)]; [by left|right]. exists i. split; [lia|done].
      * right. exists k. split; [lia|done].
  - fold (maxAmplitude signal) in *. split; [done|]. split.
    + apply Forall_lookup. intros n x Hx.
      assert (n < length signal)%nat by (by eapply lookup_lt_Some).
      rewrite <- (rd_lookup signal (Z.of_nat n) x); [|by rewrite Nat2Z.id|lia].
      apply Hub. unfold len. lia.
    + destruct Hatt as [?|(i & Hi & Hm)]; [by left|right]. rewrite Hm.
      apply list_elem_of_fmap. exists (rd signal i). split; [done|].
      apply list_elem_of_lookup. exists (Z.to_nat i). unfold len in Hi.
      destruct (lookup_lt_is_Some_2 signal (Z.to_nat i)) as [x Hx]; [lia|].
      by rewrite (rd_lookup signal i x) by (done || lia).
Qed.

Lemma normalize_spec (signal : list Qc) :
  normalize signal
  = if decide (dec 0.9 < maxAmplitude signal)%Qc
    then (λ x, x * (dec 0.9 / maxAmplitude signal))%Qc <$> signal
    else signal.
Proof.
  unfold normalize. case_decide; [|done].
  destruct (for_up_pointwise (λ _ v, v * (dec 0.9 / maxAmplitude signal))%Qc
              0 (len signal) signal) as [Hl Hr]; [lia|lia|].
  apply array_ext.
  - rewrite Hl. unfold len. by rewrite length_fmap.
  - intros i Hi. rewrite Hl in Hi. rewrite Hr, rd_fmap by done.
    by rewrite decide_True by lia.
Qed.

Lemma normalize_bound (signal : list Qc) :
  Forall (λ x, Math_abs x <= dec 0.9)%Qc (normalize signal).
Proof.
  rewrite normalize_spec. destruct (maxAmplitude_spec signal) as (_ & Hub & _).
  case_decide as Hp.
  - apply Forall_fmap. eapply Forall_impl; [exact Hub|].
    intros x Hx. simpl. by apply scale_bound.
  - eapply Forall_impl; [exact Hub|]. intros x Hx. simpl.
    apply Qcle_trans with (maxAmplitude signal); [done|]. by apply Qcnot_lt_le.
Qed.

(** *** Arrays of finite samples

    On an array of finite samples the post-processing over the numbers of
    [Js] is the post-processing over the rationals. *)

Section simulation.
Context {S T : Type} (R : S → T → Prop).

(** Two loops over one range whose bodies preserve a relation between
    their states. *)
Lemma for_up_sim lo hi (body1 : Z → S → S) (body2 : Z → T → T) s t :
  R s t →
  (∀ i s t, lo ≤ i < hi → R s t → R (body1 i s) (body2 i t)) →
  R (for_up lo hi body1 s) (for_up lo hi body2 t).
Proof.
  intros H0 Hstep. destruct (decide (lo ≤ hi)) as [Hle|Hgt].
  - apply (for_up_inv (λ k s', R s' (for_up lo k body2 t)) lo hi body1 s Hle).
    + by rewrite for_up_nil.
    + intros i s' Hi HR. rewrite for_up_last by lia. by apply Hstep.
  - by rewrite !for_up_nil by lia.
Qed.
End simulation.

Lemma wr_fmap {A B} (f : A → B) (a : list A) i v :
  wr (f <$> a) i (f v) = f <$> wr a i v.
Proof. unfold wr. case_decide; [|done]. by rewrite list_fmap_insert. Qed.

Lemma len_fmap {A B} (f : A → B) (a : list A) : len (f <$> a) = len a.
Proof. unfold len. by rewrite length_fmap. Qed.

Lemma finite_samples (signal : list Js.number) :
  Forall Js.isFinite signal ↔ ∃ l : list Qc, signal = Js.Fin <$> l.
Proof.
  split.
  - induction 1 as [|x signal Hx _ [l ->]]; [by exists []|].
    destruct x as [q| | |]; try done. by exists (q :: l).
  - intros [l ->]. apply Forall_fmap. by apply Forall_true.
Qed.

Lemma window_length_nonzero : num (2 * windowSize + 1) ≠ 0%Qc.
Proof. by intros [=]. Qed.

Lemma movingAverage_finite (l : list Qc) :
  Js.movingAverage (Js.Fin <$> l) = Js.Fin <$> movingAverage l.
Proof.
  unfold Js.movingAverage, movingAverage. rewrite length_fmap, len_fmap.
  assert (for_up 0 (len l) (λ i temp, wr temp i (rd (Js.Fin <$> l) i))
            (Js.new_Float32Array (length l))
          = Js.Fin <$> for_up 0 (len l) (λ i temp, wr temp i (rd l i))
                         (new_Float32Array (length l))) as ->.
  { apply (for_up_sim (λ a' a, a' = Js.Fin <$> a)).
    - unfold Js.new_Float32Array, new_Float32Array. by rewrite fmap_replicate.
    - intros i a' a Hi ->. by rewrite rd_fmap, wr_fmap. }
  rewrite copy_loop.
  apply (for_up_sim (λ a' a, a' = Js.Fin <$> a)); [done|].
  intros i a' a Hi ->. unfold windowSize in Hi.
  assert (for_up (- windowSize) (windowSize + 1)
            (λ j sum, Js.add sum (rd (Js.Fin <$> l) (i + j))) (Js.Fin 0%Qc)
          = Js.Fin (for_up (- windowSize) (windowSize + 1)
                      (λ j sum, (sum + rd l (i + j))%Qc) 0%Qc)) as ->.
  { apply (for_up_sim (λ m' m, m' = Js.Fin m)); [done|].
    intros j m' m Hj ->. unfold windowSize in Hj. by rewrite rd_fmap by lia. }
  cbn [Js.div]. rewrite decide_False by apply window_length_nonzero.
  exact (wr_fmap Js.Fin a i _).
Qed.

Lemma maxAmplitude_finite (l : list Qc) :
  Js.maxAmplitude (Js.Fin <$> l) = Js.Fin (maxAmplitude l).
Proof.
  unfold Js.maxAmplitude, maxAmplitude. rewrite len_fmap.
  apply (for_up_sim (λ m' m, m' = Js.Fin m)); [done|].
  intros i m' m Hi ->. by rewrite rd_fmap.
Qed.

Lemma normalize_finite (l : list Qc) :
  Js.normalize (Js.Fin <$> l) = Js.Fin <$> normalize l.
Proof.
  unfold Js.normalize, normalize. rewrite maxAmplitude_finite, len_fmap.
  cbn [Js.gt]. case_bool_decide as Hp.
  - rewrite decide_True by done. cbn [Js.div].
    rewrite decide_False.
    2:{ intros E. rewrite E in Hp. by vm_compute in Hp. }
    apply (for_up_sim (λ a' a, a' = Js.Fin <$> a)); [done|].
    intros i a' a Hi ->. destruct (decide (0 ≤ i < len a)) as [Hin|Hout].
    + rewrite rd_fmap by done. exact (wr_fmap Js.Fin a i _).
    + by rewrite !wr_outside by (by rewrite ?len_fmap).
  - by rewrite decide_False by done.
Qed.

Lemma applyPostProcessing_finite (l : list Qc) :
  Js.applyPostProcessing (Js.Fin <$> l) = Js.Fin <$> applyPostProcessing l.
Proof.
  unfold Js.applyPostProcessing, applyPostProcessing.
  by rewrite movingAverage_finite, normalize_finite.
Qed.

(** A NaN sample makes the running maximum NaN, and the normalisation
    then leaves the array as it is. *)
Lemma maxAmplitude_NaN (signal : list Js.number) :
  Js.NaN ∈ signal → Js.maxAmplitude signal = Js.NaN.
Proof.
  intros Hin. apply list_elem_of_lookup in Hin as [n Hn].
  pose proof (lookup_lt_Some _ _ _ Hn) as Hlt.
  apply (for_up_inv (λ k m, Z.of_nat n < k → m = Js.NaN) 0 (len signal));
    [apply len_nonneg|lia| |unfold len; lia].
  intros k m Hk IH Hnk. destruct (decide (k = Z.of_nat n)) as [->|Hne].
  - rewrite (rd_lookup signal _ Js.NaN) by (by rewrite ?Nat2Z.id || lia).
    by destruct m.
  - rewrite IH by lia. done.
Qed.

Lemma normalize_NaN (signal : list Js.number) :
  Js.NaN ∈ signal → Js.normalize signal = signal.
Proof. intros Hin. unfold Js.normalize. by rewrite maxAmplitude_NaN. Qed.

(** *** Silence *)

Lemma boxAverage_unfold (signal : list Qc) i :
  Spec.boxAverage signal i
  = ((rd signal (i + -3) + (rd signal (i + -2) + (rd signal (i + -1)
      + (rd signal (i + 0) + (rd signal (i + 1) + (rd signal (i + 2)
      + (rd signal (i + 3) + 0))))))) / num 7)%Qc.
Proof. done. Qed.

Lemma movingAverage_zeros (n : nat) :
  movingAverage (replicate n 0%Qc) = replicate n 0%Qc.
Proof.
  destruct (movingAverage_spec (replicate n 0%Qc)) as [Hl Hr].
  apply array_ext; [done|]. intros i Hi. rewrite Hl in Hi. rewrite Hr.
  unfold len in *. rewrite length_replicate in *.
  case_decide; [|done]. rewrite boxAverage_unfold.
  rewrite !rd_replicate by lia. by apply Qc_is_canon.
Qed.

Lemma normalize_zeros (n : nat) : normalize (replicate n 0%Qc) = replicate n 0%Qc.
Proof.
  rewrite normalize_spec.
  destruct (maxAmplitude_spec (replicate n 0%Qc)) as (_ & _ & Hatt).
  assert (maxAmplitude (replicate n 0%Qc) = 0%Qc) as ->.
  { destruct Hatt as [?|Hin]; [done|].
    apply list_elem_of_fmap in Hin as (x & -> & Hx).
    by apply elem_of_replicate in Hx as [-> _]. }
  done.
Qed.

Lemma run_cons mu st x input :
  Spec.run mu st (x :: input)
  = let '(e, st') := Spec.step mu x st in
    let '(es, st'') := Spec.run mu st' input in
    (e :: es, st'').
Proof. done. Qed.

Lemma run_zeros mu (L N : nat) :
  Spec.run mu (Spec.init L) (replicate N 0%Qc) = (replicate N 0%Qc, Spec.init L).
Proof.
  assert (Spec.step mu 0%Qc (Spec.init L) = (0%Qc, Spec.init L)) as Hstep.
  { unfold Spec.step, Spec.init. simpl.
    assert (Spec.shiftIn 0%Qc (replicate L 0%Qc) = replicate L 0%Qc) as ->.
    { unfold Spec.shiftIn. rewrite length_replicate.
      change (0%Qc :: replicate L 0%Qc) with (replicate (S L) 0%Qc).
      rewrite take_replicate. f_equal. lia. }
    f_equal. f_equal.
    - induction L as [|L IH]; [done|]. simpl. rewrite IH. f_equal. ring.
    - unfold Spec.filterOutput, Spec.sum.
      induction L as [|L IH]; [done|]. simpl. rewrite IH. ring. }
  induction N as [|N IH]; [done|].
  change (replicate (S N) 0%Qc) with (0%Qc :: replicate N 0%Qc).
  by rewrite run_cons, Hstep, IH.
Qed.

(** *** [processAudio] *)

Lemma rd_elem_of {A} `{Inhabited A} (a : list A) i : 0 ≤ i < len a → rd a i ∈ a.
Proof.
  unfold len. intros Hi.
  destruct (lookup_lt_is_Some_2 a (Z.to_nat i)) as [x Hx]; [lia|].
  rewrite (rd_lookup a i x) by (done || lia).
  apply list_elem_of_lookup. by exists (Z.to_nat i).
Qed.

Lemma applyPostProcessing_length (signal : list Qc) :
  length (applyPostProcessing signal) = length signal.
Proof.
  unfold applyPostProcessing. rewrite normalize_spec.
  destruct (movingAverage_spec signal) as [Hl _]. unfold len in Hl.
  case_decide; rewrite ?length_fmap; lia.
Qed.

Lemma applyLMSFilter_spec (inputSignal outputSignal : list Qc) stepSize filterLength :
  length outputSignal = length inputSignal →
  applyLMSFilter inputSignal outputSignal stepSize filterLength
  = applyPostProcessing (Spec.runLMS inputSignal stepSize filterLength).
Proof.
  intros Hlen. unfold applyLMSFilter, Spec.runLMS.
  by destruct (lmsLoop_refines inputSignal stepSize filterLength outputSignal Hlen)
    as [_ ->].
Qed.

Lemma filterChannel_length noiseType (inputData outputData : list Qc) :
  length outputData = length inputData →
  length (filterChannel noiseType inputData outputData) = length inputData.
Proof.
  intros Hlen. unfold filterChannel.
  repeat case_decide; rewrite applyLMSFilter_spec by done;
    rewrite applyPostProcessing_length; unfold Spec.runLMS; apply run_length.
Qed.

(** The result of [processAudio]: the attributes of the input, and in each
    channel the filter run on that channel of the input and on a fresh
    channel of silence. *)
Lemma processAudio_spec (originalBuffer : AudioBuffer.t) (noiseType : string) :
  length (AudioBuffer.channels originalBuffer)
  = AudioBuffer.numberOfChannels originalBuffer →
  processAudio originalBuffer noiseType
  = {| AudioBuffer.numberOfChannels := AudioBuffer.numberOfChannels originalBuffer;
       AudioBuffer.length := AudioBuffer.length originalBuffer;
       AudioBuffer.sampleRate := AudioBuffer.sampleRate originalBuffer;
       AudioBuffer.channels :=
         (λ inputData, filterChannel noiseType inputData
                         (new_Float32Array (AudioBuffer.length originalBuffer)))
         <$> AudioBuffer.channels originalBuffer |}.
Proof.
  intros Hn. unfold processAudio.
  set (silence := new_Float32Array (AudioBuffer.length originalBuffer)).
  set (nch := AudioBuffer.numberOfChannels originalBuffer) in *.
  set (F := λ inputData, filterChannel noiseType inputData silence).
  pose proof (for_up_inv (λ k pb,
      AudioBuffer.numberOfChannels pb = nch ∧
      AudioBuffer.length pb = AudioBuffer.length originalBuffer ∧
      AudioBuffer.sampleRate pb = AudioBuffer.sampleRate originalBuffer ∧
      len (AudioBuffer.channels pb) = Z.of_nat nch ∧
      ∀ i, 0 ≤ i < Z.of_nat nch →
           rd (AudioBuffer.channels pb) i
           = if decide (i < k) then F (rd (AudioBuffer.channels originalBuffer) i)
             else silence)
    0 (Z.of_nat nch)
    (λ channel processedBuffer,
       let inputData := getChannelData originalBuffer channel in
       let outputData := getChannelData processedBuffer channel in
       setChannelData processedBuffer channel
         (filterChannel noiseType inputData outputData))
    (createBuffer nch (AudioBuffer.length originalBuffer)
       (AudioBuffer.sampleRate originalBuffer))) as Hinv.
  destruct Hinv as (H1 & H2 & H3 & Hl & Hr).
  - lia.
  - simpl. split; [done|]. split; [done|]. split; [done|]. split.
    + unfold len. by rewrite length_replicate.
    + intros i Hi. rewrite decide_False by lia. apply rd_replicate. lia.
  - intros k pb Hk (H1 & H2 & H3 & Hl & Hr). simpl.
    split; [done|]. split; [done|]. split; [done|]. split; [by rewrite len_wr|].
    intros i Hi. rewrite rd_wr by lia. unfold getChannelData.
    case_decide as Hik.
    + subst i. rewrite decide_True by lia. rewrite Hr by lia.
      by rewrite decide_False by lia.
    + rewrite Hr by lia. repeat case_decide; try done; lia.
  - destruct (for_up _ _ _ _) as [n l r cs]. simpl in *. subst n l r. f_equal.
    apply array_ext.
    + rewrite Hl. unfold len. rewrite length_fmap. lia.
    + intros i Hi. rewrite Hl in Hi. rewrite Hr by lia.
      rewrite decide_True by lia. rewrite rd_fmap; [done|unfold len; lia].
Qed.

(** *** The classifier *)

Lemma simulateModelPrediction_unfold (f : Features) (rnd : nat → Qc) :
  (simulateModelPrediction f rnd).1
  = (λ '(k, type), (type, scoreOf type f (dec 0.1 + rnd k * dec 0.2)%Qc))
    <$> [(0%nat, "Lawnmower"); (1%nat, "Traffic"); (2%nat, "Construction");
         (3%nat, "Fan/HVAC"); (4%nat, "Crowd"); (5%nat, "Wind")].
Proof. reflexivity. Qed.

Lemma extractFeatures_rest (b : AudioBuffer.t) (rnd : nat → Qc) :
  (extractFeatures b rnd).2 = λ n, rnd (S n).
Proof. reflexivity. Qed.

Lemma classifyNoise_unfold (b : AudioBuffer.t) (rnd : nat → Qc) :
  let f := (extractFeatures b rnd).1 in
  let scores := (simulateModelPrediction f (λ n, rnd (S n))).1 in
  (classifyNoise b rnd).1
  = {| features := f; confidenceScores := scores;
       noiseType := (selectHighest scores).2 |}.
Proof.
  intros f scores. subst f scores. unfold classifyNoise, mbind, Rand_bind.
  pose proof (extractFeatures_rest b rnd) as Hr.
  destruct (extractFeatures b rnd) as [f r]. cbv [snd fst] in *. subst r.
  destruct (simulateModelPrediction f _) as [scores r].
  by destruct (selectHighest scores).
Qed.

(** *** Rounding to hundredths *)

Local Open Scope Qc_scope.

Lemma this_inv (x : Qc) : (this (/ x) == / this x)%Q.
Proof. simpl. apply Qred_correct. Qed.

Lemma this_div (x y : Qc) : (this (x / y) == this x / this y)%Q.
Proof. unfold Qcdiv. rewrite this_mult, this_inv. reflexivity. Qed.

Lemma this_hundredths (z : Z) : (this (num z / num 100) == inject_Z z * (1 # 100))%Q.
Proof. rewrite this_div, !this_num. reflexivity. Qed.

Lemma roundHundredths_bounds (a b : Z) (x : Qc) :
  num a / num 100 <= x → x <= num b / num 100 →
  num a / num 100 <= roundHundredths x ∧ roundHundredths x <= num b / num 100.
Proof.
  intros Ha Hb. unfold roundHundredths.
  set (y := this (x * num 100 + dec 0.5)).
  assert (y == this x * 100 + (1 # 2))%Q as Hy.
  { unfold y. rewrite this_plus, this_mult, this_num, this_Q2Qc.
    change (inject_Z 100) with 100%Q. lra. }
  unfold Qcle in *. rewrite !this_hundredths in *.
  assert (a ≤ Qfloor y)%Z as Hlo.
  { rewrite <- (Qfloor_Z a). apply Qfloor_resp_le. rewrite Hy. lra. }
  assert (Qfloor y ≤ b)%Z as Hhi.
  { assert (Qfloor y < b + 1)%Z; [|lia]. rewrite Zlt_Qlt.
    apply Qle_lt_trans with y; [apply Qfloor_le|].
    rewrite Hy, inject_Z_plus. change (inject_Z 1) with 1%Q. lra. }
  rewrite Zle_Qle in Hlo, Hhi. split; lra.
Qed.

Lemma toFixed2_bounds (a b : Z) (x : Qc) :
  (0 ≤ a)%Z → num a / num 100 <= x → x <= num b / num 100 →
  num a / num 100 <= toFixed2 x ∧ toFixed2 x <= num b / num 100.
Proof.
  intros H0 Ha Hb. unfold toFixed2. rewrite decide_False.
  - by apply roundHundredths_bounds.
  - apply Qcle_not_lt. apply Qcle_trans with (num a / num 100); [|done].
    unfold Qcle. rewrite this_hundredths. rewrite Zle_Qle in H0.
    change (this 0) with 0%Q. change (inject_Z 0) with 0%Q in H0. lra.
Qed.

Lemma toFixed2_hundredths (x : Qc) : ∃ z : Z, toFixed2 x = num z / num 100.
Proof.
  unfold toFixed2, roundHundredths. case_decide; [|by eexists].
  exists (- Qfloor (this (- x * num 100 + dec 0.5)))%Z.
  apply Qc_is_canon. rewrite this_opp, !this_div, !this_num, inject_Z_opp.
  field.
Qed.

Lemma Math_min_le_l x y : Math_min x y <= x.
Proof. unfold Math_min. case_decide; qc2q; lra. Qed.

Lemma Math_min_le_r x y : Math_min x y <= y.
Proof. unfold Math_min. case_decide; qc2q; lra. Qed.

Lemma Math_min_glb x y z : z <= x → z <= y → z <= Math_min x y.
Proof. unfold Math_min. by case_decide. Qed.

Lemma tenth_hundredths : dec 0.1 = num 10 / num 100.
Proof. by apply Qc_is_canon. Qed.

(** The score of an archetype whose raw score lies in [lo, hi]. *)
Lemma clamp_round_bounds (a b : Z) (score : Qc) :
  (0 ≤ a ≤ 100)%Z → (b ≤ 100)%Z →
  num a / num 100 <= score → score <= num b / num 100 →
  num a / num 100 <= toFixed2 (Math_min 1 score) ∧
  toFixed2 (Math_min 1 score) <= num b / num 100.
Proof.
  intros Ha Hb Hlo Hhi. apply toFixed2_bounds; [lia| |].
  - apply Math_min_glb; [|done]. unfold Qcle. rewrite this_hundredths.
    assert (inject_Z a <= inject_Z 100)%Q as H by (rewrite <- Zle_Qle; lia).
    change (this 1) with 1%Q. change (inject_Z 100) with 100%Q in H. lra.
  - apply Qcle_trans with score; [apply Math_min_le_r|done].
Qed.

(** *** Scores *)

Lemma bonus_nonneg type : 0 <= bonus type.
Proof. unfold bonus. repeat case_decide; by vm_compute. Qed.

Lemma scoreOf_range type (f : Features) (base : Qc) :
  dec 0.1 <= base →
  (0 <= scoreOf type f base ∧ scoreOf type f base <= 1) ∧
  ∃ z : Z, scoreOf type f base = num z / num 100.
Proof.
  intros Hbase. unfold scoreOf. split; [|apply toFixed2_hundredths].
  set (raw := if thresholdPredicate type f then base + bonus type else base).
  assert (dec 0.1 <= raw) as Hraw.
  { unfold raw. destruct (thresholdPredicate type f); [|done].
    pose proof (bonus_nonneg type). qc2q. lra. }
  destruct (toFixed2_bounds 10 100 (Math_min 1 raw)) as [Hlo Hhi]; [lia| |
    |].
  - rewrite <- tenth_hundredths. apply Math_min_glb; [by vm_compute|done].
  - apply Qcle_trans with 1; [apply Math_min_le_l|by vm_compute].
  - split.
    + apply Qcle_trans with (num 10 / num 100); [by vm_compute|done].
    + apply Qcle_trans with (num 100 / num 100); [done|by vm_compute].
Qed.

Lemma base_range (r : Qc) :
  0 <= r → r < 1 →
  dec 0.1 <= dec 0.1 + r * dec 0.2 ∧ dec 0.1 + r * dec 0.2 < dec 0.3.
Proof. intros. qc2q. split; lra. Qed.

(** *** Selection *)

Lemma selectHighest_snoc scores type score :
  selectHighest (scores ++ [(type, score)])
  = let '(highestScore, detectedType) := selectHighest scores in
    if decide (highestScore < score) then (score, type)
    else (highestScore, detectedType).
Proof.
  unfold selectHighest, Object_entries. rewrite foldl_snoc.
  by destruct (foldl _ _ scores).
Qed.

(** The selected entry is the first one, in the order of the entries, that
    carries the highest score. *)
Lemma selectHighest_first_max (scores : list (string * Qc)) :
  let '(highestScore, detectedType) := selectHighest scores in
  Forall (λ '(_, s), s <= highestScore) scores ∧
  ((highestScore = 0 ∧ detectedType = "") ∨
   ∃ i : nat, scores !! i = Some (detectedType, highestScore) ∧
              Forall (λ '(_, s), s < highestScore) (take i scores)).
Proof.
  induction scores as [|[type score] scores IH] using rev_ind.
  { simpl. split; [constructor|by left]. }
  rewrite selectHighest_snoc. destruct (selectHighest scores) as [h t].
  destruct IH as [Hub Hfirst]. case_decide as Hlt.
  - split.
    + apply Forall_app. split; [|repeat constructor; apply Qcle_refl].
      eapply Forall_impl; [exact Hub|]. intros [? s] Hs.
      apply Qclt_le_weak. by eapply Qcle_lt_trans.
    + right. exists (length scores). split.
      * by rewrite lookup_app_r, Nat.sub_diag.
      * rewrite take_app_length. eapply Forall_impl; [exact Hub|].
        intros [? s] Hs. by eapply Qcle_lt_trans.
  - apply Qcnot_lt_le in Hlt. split.
    + apply Forall_app. split; [done|by repeat constructor].
    + destruct Hfirst as [?|(i & Hi & Hbefore)]; [by left|right].
      exists i. pose proof (lookup_lt_Some _ _ _ Hi).
      split; [by rewrite lookup_app_l|].
      by rewrite take_app_le by lia.
Qed.

(** The selection, case by case: the initial pair when no score is
    positive, and otherwise the first entry that carries the highest
    score. *)
Lemma selectHighest_exact (scores : list (string * Qc)) :
  let '(highestScore, detectedType) := selectHighest scores in
  (Forall (λ '(_, s), s <= 0) scores ∧ highestScore = 0 ∧ detectedType = "") ∨
  (0 < highestScore ∧
   ∃ i : nat, scores !! i = Some (detectedType, highestScore) ∧
              Forall (λ '(_, s), s <= highestScore) scores ∧
              Forall (λ '(_, s), s < highestScore) (take i scores)).
Proof.
  induction scores as [|[type score] scores IH] using rev_ind.
  { simpl. left. split; [constructor|done]. }
  rewrite selectHighest_snoc. destruct (selectHighest scores) as [h t].
  case_decide as Hlt.
  - right.
    assert (0 < score ∧ Forall (λ '(_, s), s <= h) scores) as [Hpos Hub].
    { destruct IH as [(Hub & -> & _)|(Hpos & i & _ & Hub & _)]; [done|].
      split; [by eapply Qclt_trans|done]. }
    split; [done|]. exists (length scores). split; [|split].
    + by rewrite lookup_app_r, Nat.sub_diag.
    + apply Forall_app. split; [|repeat constructor; apply Qcle_refl].
      eapply Forall_impl; [exact Hub|]. intros [? s] Hs.
      apply Qclt_le_weak. by eapply Qcle_lt_trans.
    + rewrite take_app_length. eapply Forall_impl; [exact Hub|].
      intros [? s] Hs. by eapply Qcle_lt_trans.
  - apply Qcnot_lt_le in Hlt.
    destruct IH as [(Hub & -> & ->)|(Hpos & i & Hi & Hub & Hbefore)]; [left|right].
    + split; [|done]. apply Forall_app. split; [done|by repeat constructor].
    + split; [done|]. exists i. pose proof (lookup_lt_Some _ _ _ Hi).
      split; [by rewrite lookup_app_l|]. split.
      * apply Forall_app. split; [done|by repeat constructor].
      * by rewrite take_app_le by lia.
Qed.

Lemma select_fourth (sL sT sC sF sCr sW : Qc) :
  0 < sF → sL < sF → sT < sF → sC < sF → sCr <= sF → sW <= sF →
  selectHighest [("Lawnmower", sL); ("Traffic", sT); ("Construction", sC);
                 ("Fan/HVAC", sF); ("Crowd", sCr); ("Wind", sW)]
  = (sF, "Fan/HVAC").
Proof.
  intros. unfold selectHighest, Object_entries. simpl.
  repeat case_decide; try done; exfalso; qc2q; lra.
Qed.

(** *** Accumulating loops as sums *)

Local Open Scope Z_scope.

Lemma sum_app (l k : list Qc) : Spec.sum (l ++ k) = (Spec.sum l + Spec.sum k)%Qc.
Proof.
  unfold Spec.sum. induction l as [|x l IH]; simpl; [ring|]. rewrite IH. ring.
Qed.

Lemma sum_nil : Spec.sum [] = 0%Qc.
Proof. done. Qed.

Lemma sum_singleton (x : Qc) : Spec.sum [x] = x.
Proof. unfold Spec.sum. simpl. ring. Qed.

Lemma seqZ_snoc lo k : lo ≤ k → seqZ lo (k + 1 - lo) = seqZ lo (k - lo) ++ [k].
Proof.
  intros. replace (k + 1 - lo) with ((k - lo) + 1) by lia.
  rewrite seqZ_app by lia. f_equal.
  rewrite seqZ_cons by lia. rewrite seqZ_nil by lia. f_equal. lia.
Qed.

Lemma for_up_sum_filter (P : Z → Prop) `{∀ i, Decision (P i)} (f : Z → Qc) lo hi :
  lo ≤ hi →
  for_up lo hi (λ i acc, if decide (P i) then (acc + f i)%Qc else acc) 0%Qc
  = Spec.sum (f <$> filter P (seqZ lo (hi - lo))).
Proof.
  intros Hle.
  apply (for_up_inv (λ k acc, acc = Spec.sum (f <$> filter P (seqZ lo (k - lo))))
           lo hi _ 0%Qc Hle).
  - by rewrite seqZ_nil by lia.
  - intros k acc Hk ->. rewrite seqZ_snoc by lia.
    rewrite filter_app, fmap_app, sum_app.
    rewrite filter_cons, filter_nil.
    case_decide; simpl; rewrite ?sum_singleton, ?sum_nil; ring.
Qed.

Lemma for_up_sum (f : Z → Qc) lo hi :
  lo ≤ hi →
  for_up lo hi (λ i acc, (acc + f i)%Qc) 0%Qc = Spec.sum (f <$> seqZ lo (hi - lo)).
Proof.
  intros Hle.
  apply (for_up_inv (λ k acc, acc = Spec.sum (f <$> seqZ lo (k - lo)))
           lo hi _ 0%Qc Hle).
  - by rewrite seqZ_nil by lia.
  - intros k acc Hk ->. rewrite seqZ_snoc by lia.
    rewrite fmap_app, sum_app. change (f <$> [k]) with [f k].
    by rewrite sum_singleton.
Qed.

(** The indices of a range that lie below a bound are an initial part of
    the range. *)
Lemma filter_below lo (d : nat) m :
  filter (λ i, i < m) (seqZ lo (Z.of_nat d)) = seqZ lo (Z.min (Z.of_nat d) (m - lo)).
Proof.
  induction d as [|d IH].
  { rewrite !seqZ_nil by lia. done. }
  replace (Z.of_nat (S d)) with (lo + Z.of_nat d + 1 - lo) by lia.
  rewrite seqZ_snoc by lia. replace (lo + Z.of_nat d - lo) with (Z.of_nat d) by lia.
  rewrite filter_app, IH, filter_cons, filter_nil. case_decide.
  - replace (Z.min (Z.of_nat d) (m - lo)) with (lo + Z.of_nat d - lo) by lia.
    rewrite <- seqZ_snoc by lia. f_equal. lia.
  - rewrite app_nil_r. f_equal. lia.
Qed.

(** *** The periodicity feature *)

Lemma sumCorrelation_spec (channelData : list Qc) :
  sumCorrelation channelData
  = Spec.sum ((λ lag,
       Math_abs (Spec.sum ((λ i : Z, rd channelData i * rd channelData (i + lag))%Qc
                           <$> filter (λ i, i + lag < len channelData) (seqZ 0 1024))))
     <$> seqZ 1 1023).
Proof.
  unfold sumCorrelation, frameSize.
  set (g := λ lag : Z,
     Math_abs (Spec.sum ((λ i : Z, rd channelData i * rd channelData (i + lag))%Qc
                         <$> filter (λ i, i + lag < len channelData) (seqZ 0 1024)))).
  rewrite (for_up_ext _ _ _ (λ lag acc, (acc + g lag)%Qc)).
  - by rewrite for_up_sum by lia.
  - intros lag acc _. unfold g. f_equal. f_equal.
    by rewrite (for_up_sum_filter (λ i, i + lag < len channelData)) by lia.
Qed.

Lemma in_bounds_terms (channelData : list Qc) lag :
  filter (λ i, i + lag < len channelData) (seqZ 0 1024)
  = seqZ 0 (Z.min 1024 (len channelData - lag)).
Proof.
  rewrite (list_filter_iff _ (λ i, i < len channelData - lag)) by (intros; lia).
  rewrite (filter_below 0 1024). f_equal. lia.
Qed.

(** * The claims *)

(** ** The adaptive filter *)

(** C1.  The sample loop of [applyLMSFilter] is the state machine of
    section 4.3: started on zero weights, a zero delay line and a zero
    feedback term, it writes one sample per input sample, the sample it
    writes at [n] is the error [inputSignal[n] + prevOutput] that the machine
    emits, and the loop variables end in the machine's final state (weights,
    delay line, feedback term).  [applyLMSFilter] then post-processes that
    output.  The statement holds for every filter length, [L = 0] included. *)
Theorem lms_loop_is_spec_machine (inputSignal outputSignal : list Qc)
    (stepSize : Qc) (filterLength : nat) :
  length outputSignal = length inputSignal →
  let r := lmsLoop inputSignal outputSignal stepSize filterLength in
  st_outputSignal r = Spec.runLMS inputSignal stepSize filterLength ∧
  length (st_outputSignal r) = length inputSignal ∧
  filterState r = (Spec.run stepSize (Spec.init filterLength) inputSignal).2 ∧
  applyLMSFilter inputSignal outputSignal stepSize filterLength
  = applyPostProcessing (Spec.runLMS inputSignal stepSize filterLength).
Proof.
  intros Hlen r.
  destruct (lmsLoop_refines inputSignal stepSize filterLength outputSignal Hlen)
    as [Hst Hout].
  fold r in Hst, Hout. split; [exact Hout|]. split; [|split; [exact Hst|]].
  - rewrite Hout. apply run_length.
  - by apply applyLMSFilter_spec.
Qed.

Lemma lms_loop_is_spec_machine_witness :
  length (new_Float32Array 4) = length fourSamples ∧
  let r := lmsLoop fourSamples (new_Float32Array 4) (dec 0.01) 2 in
  st_outputSignal r = Spec.runLMS fourSamples (dec 0.01) 2 ∧
  length (st_outputSignal r) = length fourSamples ∧
  filterState r = (Spec.run (dec 0.01) (Spec.init 2) fourSamples).2 ∧
  applyLMSFilter fourSamples (new_Float32Array 4) (dec 0.01) 2
  = applyPostProcessing (Spec.runLMS fourSamples (dec 0.01) 2).
Proof.
  split; [reflexivity|].
  apply (lms_loop_is_spec_machine fourSamples (new_Float32Array 4) (dec 0.01) 2).
  reflexivity.
Defined.

(** The four samples, by hand: e = 0.5, 1, -0.25 + (-0.0025),
    0.75 + (-0.001875). *)
Example lms_four_samples :
  this <$> st_outputSignal (lmsLoop fourSamples (new_Float32Array 4) (dec 0.01) 2)
  = [1 # 2; 1 # 1; -101 # 400; 1197 # 1600]%Q.
Proof. vm_compute. reflexivity. Qed.

(** C4.  On an all-zero input of length N the loop writes N zeros, the
    weights are still zero after the last sample, and so is the feedback
    term; post-processing leaves the zeros in place.  This holds for every
    step size and filter length. *)
Theorem silence_in_silence_out (N : nat) (stepSize : Qc) (filterLength : nat)
    (outputSignal : list Qc) :
  length outputSignal = N →
  let r := lmsLoop (replicate N 0%Qc) outputSignal stepSize filterLength in
  st_outputSignal r = replicate N 0%Qc ∧
  st_weights r = replicate filterLength 0%Qc ∧
  st_prevOutput r = 0%Qc ∧
  applyLMSFilter (replicate N 0%Qc) outputSignal stepSize filterLength
  = replicate N 0%Qc.
Proof.
  intros Hlen r.
  assert (length outputSignal = length (replicate N 0%Qc)) as Hlen'.
  { by rewrite length_replicate. }
  destruct (lmsLoop_refines _ stepSize filterLength outputSignal Hlen')
    as [Hst Hout].
  fold r in Hst, Hout. rewrite run_zeros in Hst, Hout. simpl in Hst, Hout.
  split; [done|].
  split; [exact (f_equal Spec.weights Hst)|].
  split; [exact (f_equal Spec.prevOutput Hst)|].
  unfold applyLMSFilter. fold r. rewrite Hout. unfold applyPostProcessing.
  by rewrite movingAverage_zeros, normalize_zeros.
Qed.

Lemma silence_in_silence_out_witness :
  length [dec 1; dec 2; dec 3; dec 4; dec 5] = 5%nat ∧
  let r := lmsLoop (replicate 5 0%Qc) [dec 1; dec 2; dec 3; dec 4; dec 5] (dec 7) 3 in
  st_outputSignal r = replicate 5 0%Qc ∧
  st_weights r = replicate 3 0%Qc ∧
  st_prevOutput r = 0%Qc ∧
  applyLMSFilter (replicate 5 0%Qc) [dec 1; dec 2; dec 3; dec 4; dec 5] (dec 7) 3
  = replicate 5 0%Qc.
Proof.
  split; [reflexivity|].
  apply (silence_in_silence_out 5 (dec 7) 3 [dec 1; dec 2; dec 3; dec 4; dec 5]).
  reflexivity.
Defined.

(** ** Post-processing *)

Lemma lookup_of_rd (a b : list Qc) (n : nat) :
  length a = length b → rd a (Z.of_nat n) = rd b (Z.of_nat n) → a !! n = b !! n.
Proof.
  intros Hlen Hrd. destruct (decide (n < length a)%nat) as [Hn|Hn].
  - destruct (lookup_lt_is_Some_2 a n Hn) as [x Hx].
    destruct (lookup_lt_is_Some_2 b n) as [y Hy]; [lia|].
    rewrite (rd_lookup a _ x), (rd_lookup b _ y) in Hrd
      by (by rewrite ?Nat2Z.id || lia).
    by rewrite Hx, Hy, Hrd.
  - by rewrite !lookup_ge_None_2 by lia.
Qed.

(** C6.  The averaging step keeps the length; it replaces the sample at
    index i by the 7-tap box average of the original samples exactly when
    3 <= i < n - 3, and leaves every other sample as it was: the first three
    and the last three samples are those of the input. *)
Theorem moving_average_frame (signal : list Qc) :
  length (movingAverage signal) = length signal ∧
  (∀ i, rd (movingAverage signal) i
        = if decide (3 ≤ i < len signal - 3) then Spec.boxAverage signal i
          else rd signal i) ∧
  take 3 (movingAverage signal) = take 3 signal ∧
  drop (length signal - 3) (movingAverage signal) = drop (length signal - 3) signal.
Proof.
  destruct (movingAverage_spec signal) as [Hl Hr].
  assert (length (movingAverage signal) = length signal) as Hlen.
  { unfold len in Hl. lia. }
  split; [done|]. split; [done|]. split.
  - apply list_eq. intros n. destruct (decide (n < 3)%nat) as [Hn|Hn].
    + rewrite !lookup_take_lt by done. apply lookup_of_rd; [done|].
      rewrite Hr. by rewrite decide_False by lia.
    + by rewrite !lookup_take_ge by lia.
  - apply list_eq. intros n. rewrite !lookup_drop.
    apply lookup_of_rd; [done|]. rewrite Hr. rewrite decide_False; [done|].
    unfold len. lia.
Qed.

(** Nine samples 1..9: the three in the middle are averages (4, 5, 6, which
    here equal the samples), and the peak 9 is scaled to 0.9. *)
Example post_processing_ramp :
  this <$> applyPostProcessing (num <$> [1; 2; 3; 4; 5; 6; 7; 8; 9])
  = [1 # 10; 1 # 5; 3 # 10; 2 # 5; 1 # 2; 3 # 5; 7 # 10; 4 # 5; 9 # 10]%Q.
Proof. vm_compute. reflexivity. Qed.

Example moving_average_step :
  this <$> movingAverage (num <$> [0; 0; 0; 7; 0; 0; 0; 0])
  = [0; 0; 0; 1; 1; 0; 0; 0]%Q.
Proof. vm_compute. reflexivity. Qed.

(** On rationals: the peak of the smoothed signal is computed; when it
    exceeds 0.9 every sample is multiplied by 0.9 / peak, otherwise the
    smoothed signal is returned as it is; either way no sample of the
    result exceeds 0.9 in absolute value, and neither does the peak of the
    result. *)
Lemma post_processing_exact (signal : list Qc) :
  let smoothed := movingAverage signal in
  let peak := maxAmplitude smoothed in
  (Forall (λ x, Math_abs x <= peak)%Qc smoothed ∧
   (peak = 0%Qc ∨ peak ∈ Math_abs <$> smoothed)) ∧
  applyPostProcessing signal
  = (if decide (dec 0.9 < peak)%Qc
     then (λ x, x * (dec 0.9 / peak))%Qc <$> smoothed
     else smoothed) ∧
  Forall (λ x, Math_abs x <= dec 0.9)%Qc (applyPostProcessing signal) ∧
  (maxAmplitude (applyPostProcessing signal) <= dec 0.9)%Qc.
Proof.
  intros smoothed peak.
  destruct (maxAmplitude_spec smoothed) as (_ & Hub & Hatt).
  split; [done|]. split; [apply normalize_spec|].
  pose proof (normalize_bound smoothed) as Hb. split; [exact Hb|].
  fold (applyPostProcessing signal) in Hb.
  destruct (maxAmplitude_spec (applyPostProcessing signal)) as (_ & _ & [->|Hin]).
  - by vm_compute.
  - apply list_elem_of_fmap in Hin as (x & -> & Hx).
    rewrite Forall_forall in Hb. by apply Hb.
Qed.

(** A NaN among the samples: the running maximum is NaN, the test
    [maxAmplitude > 0.9] is false, and the sample 4 is returned as it is. *)
Example post_processing_nan : Js.applyPostProcessing nanSignal = nanSignal.
Proof. reflexivity. Qed.

(** An infinite sample: the peak is infinite, the scale factor is 0, and
    the infinite sample becomes NaN. *)
Example post_processing_infinity :
  Js.applyPostProcessing [Js.Fin (dec 0.5); Js.PosInf; Js.Fin (num 4)]
  = [Js.Fin 0%Qc; Js.NaN; Js.Fin 0%Qc].
Proof. vm_compute. do 2 f_equal. by apply Qc_is_canon. Qed.

(** Infinities of both signs inside one window: their average is NaN, the
    peak is NaN and nothing is scaled. *)
Example post_processing_diverged :
  Js.applyPostProcessing
    [Js.Fin 1%Qc; Js.Fin 1%Qc; Js.PosInf; Js.Fin 1%Qc; Js.NegInf; Js.Fin 1%Qc;
     Js.Fin 1%Qc; Js.Fin 1%Qc]
  = [Js.Fin 1%Qc; Js.Fin 1%Qc; Js.PosInf; Js.NaN; Js.NaN; Js.Fin 1%Qc;
     Js.Fin 1%Qc; Js.Fin 1%Qc].
Proof. vm_compute. reflexivity. Qed.

(** C3 as stated fails: the array holds a NaN, so the peak the code
    computes is NaN, the test [maxAmplitude > 0.9] is false and nothing is
    scaled; the third sample of the result is 4, above 0.9. *)
Lemma post_processing_bound_fails_on_nan : ¬ amplitudeBoundAsStated nanSignal.
Proof.
  unfold amplitudeBoundAsStated.
  assert (Js.applyPostProcessing nanSignal = nanSignal) as -> by reflexivity.
  intros Hb. apply Forall_cons in Hb as [_ Hb]. apply Forall_cons in Hb as [_ Hb].
  apply Forall_cons in Hb as [Hb _]. revert Hb. by vm_compute.
Qed.

(** C3, amended.  On a signal whose samples are all finite, the smoothed
    signal and its peak are finite, the peak bounds every smoothed sample
    and is zero or reached by one of them; when the peak exceeds 0.9 every
    sample is multiplied by 0.9 / peak, otherwise the smoothed signal is
    returned as it is; either way every sample of the result is finite and
    at most 0.9 in absolute value, and so is the peak of the result. *)
Theorem post_processing_bound_on_finite_samples (signal : list Js.number) :
  Forall Js.isFinite signal →
  let smoothed := Js.movingAverage signal in
  let peak := Js.maxAmplitude smoothed in
  (Forall Js.isFinite smoothed ∧ Js.isFinite peak ∧
   Forall (λ x, Js.le (Js.Math_abs x) peak = true) smoothed ∧
   (peak = Js.Fin 0%Qc ∨ peak ∈ Js.Math_abs <$> smoothed)) ∧
  Js.applyPostProcessing signal
  = (if Js.gt peak (Js.Fin (dec 0.9))
     then (λ x, Js.mul x (Js.div (Js.Fin (dec 0.9)) peak)) <$> smoothed
     else smoothed) ∧
  Forall (λ x, Js.isFinite x ∧ Js.le (Js.Math_abs x) (Js.Fin (dec 0.9)) = true)
    (Js.applyPostProcessing signal) ∧
  Js.le (Js.maxAmplitude (Js.applyPostProcessing signal)) (Js.Fin (dec 0.9)) = true.
Proof.
  intros [l ->]%finite_samples smoothed peak. subst smoothed peak.
  rewrite applyPostProcessing_finite, movingAverage_finite, !maxAmplitude_finite.
  destruct (post_processing_exact l) as ((Hub & Hatt) & Hres & Hb & Hpk).
  cbv zeta in *. split; [|split; [|split]].
  - split; [apply Forall_fmap; by apply Forall_true|]. split; [done|]. split.
    + apply Forall_fmap. eapply Forall_impl; [exact Hub|]. intros x Hx.
      cbn [compose Js.Math_abs Js.le]. by apply bool_decide_eq_true.
    + destruct Hatt as [->|Hin]; [by left|right].
      apply list_elem_of_fmap in Hin as (x & -> & Hx).
      apply list_elem_of_fmap. exists (Js.Fin x). split; [done|].
      apply list_elem_of_fmap. by exists x.
  - rewrite Hres. cbn [Js.gt]. case_bool_decide as Hp.
    + rewrite decide_True by done. rewrite <- !list_fmap_compose.
      apply list_fmap_ext. intros _ x _.
      cbn [compose Js.mul Js.div]. rewrite decide_False; [done|].
      intros E. rewrite E in Hp. by vm_compute in Hp.
    + by rewrite decide_False by done.
  - apply Forall_fmap. eapply Forall_impl; [exact Hb|]. intros x Hx.
    cbn [compose Js.Math_abs Js.le Js.isFinite].
    split; [done|]. by apply bool_decide_eq_true.
  - cbn [Js.le]. by apply bool_decide_eq_true.
Qed.

Lemma post_processing_bound_on_finite_samples_witness :
  Forall Js.isFinite ramp ∧
  let smoothed := Js.movingAverage ramp in
  let peak := Js.maxAmplitude smoothed in
  (Forall Js.isFinite smoothed ∧ Js.isFinite peak ∧
   Forall (λ x, Js.le (Js.Math_abs x) peak = true) smoothed ∧
   (peak = Js.Fin 0%Qc ∨ peak ∈ Js.Math_abs <$> smoothed)) ∧
  Js.applyPostProcessing ramp
  = (if Js.gt peak (Js.Fin (dec 0.9))
     then (λ x, Js.mul x (Js.div (Js.Fin (dec 0.9)) peak)) <$> smoothed
     else smoothed) ∧
  Forall (λ x, Js.isFinite x ∧ Js.le (Js.Math_abs x) (Js.Fin (dec 0.9)) = true)
    (Js.applyPostProcessing ramp) ∧
  Js.le (Js.maxAmplitude (Js.applyPostProcessing ramp)) (Js.Fin (dec 0.9)) = true.
Proof.
  assert (Forall Js.isFinite ramp) as H by (repeat constructor).
  split; [exact H|]. exact (post_processing_bound_on_finite_samples ramp H).
Defined.

(** ** The per-channel driver *)

Lemma processAudio_valid (originalBuffer : AudioBuffer.t) (noiseType : string) :
  validBuffer originalBuffer → validBuffer (processAudio originalBuffer noiseType).
Proof.
  intros [Hn Hc]. rewrite processAudio_spec by done. split; simpl.
  - by rewrite length_fmap.
  - intros c (inputData & -> & Hin)%list_elem_of_fmap.
    rewrite filterChannel_length; [by apply Hc|].
    unfold new_Float32Array. rewrite length_replicate. symmetry. by apply Hc.
Qed.

Lemma processAudio_channel (originalBuffer : AudioBuffer.t) (noiseType : string) i :
  validBuffer originalBuffer →
  0 ≤ i < Z.of_nat (AudioBuffer.numberOfChannels originalBuffer) →
  getChannelData (processAudio originalBuffer noiseType) i
  = filterChannel noiseType (getChannelData originalBuffer i)
      (new_Float32Array (length (getChannelData originalBuffer i))).
Proof.
  intros [Hn Hc] Hi. rewrite processAudio_spec by done. unfold getChannelData. simpl.
  rewrite rd_fmap by (unfold len; lia). f_equal. f_equal. symmetry.
  apply Hc. apply rd_elem_of. unfold len. lia.
Qed.

(** C2.  For a valid buffer and any label, the result of [processAudio] has
    the channel count, the length and the sample rate of the input, and it
    is a valid buffer itself: it holds that many channels and each holds
    that many samples. *)
Theorem processAudio_preserves_shape (originalBuffer : AudioBuffer.t)
    (noiseType : string) :
  validBuffer originalBuffer →
  let processedBuffer := processAudio originalBuffer noiseType in
  AudioBuffer.numberOfChannels processedBuffer
  = AudioBuffer.numberOfChannels originalBuffer ∧
  AudioBuffer.length processedBuffer = AudioBuffer.length originalBuffer ∧
  AudioBuffer.sampleRate processedBuffer = AudioBuffer.sampleRate originalBuffer ∧
  length (AudioBuffer.channels processedBuffer)
  = AudioBuffer.numberOfChannels originalBuffer ∧
  Forall (λ c, length c = AudioBuffer.length originalBuffer)
         (AudioBuffer.channels processedBuffer).
Proof.
  intros Hvalid processedBuffer.
  destruct (processAudio_valid originalBuffer noiseType Hvalid) as [Hn Hc].
  fold processedBuffer in Hn, Hc. destruct Hvalid as [Hn0 _].
  assert (processedBuffer = _) as Heq by exact (processAudio_spec _ noiseType Hn0).
  assert (AudioBuffer.numberOfChannels processedBuffer
          = AudioBuffer.numberOfChannels originalBuffer) as H1 by by rewrite Heq.
  assert (AudioBuffer.length processedBuffer
          = AudioBuffer.length originalBuffer) as H2 by by rewrite Heq.
  split; [done|]. split; [done|]. split; [by rewrite Heq|].
  split; [by rewrite Hn|]. apply Forall_forall. intros c Hin.
  rewrite <- H2. by apply Hc.
Qed.

Lemma shortStereo_valid : validBuffer shortStereo.
Proof.
  split; [reflexivity|]. intros c Hc. simpl in Hc.
  apply elem_of_cons in Hc as [->|Hc]; [reflexivity|].
  apply elem_of_cons in Hc as [->|Hc]; [reflexivity|].
  by apply elem_of_nil in Hc.
Defined.

Lemma processAudio_preserves_shape_witness :
  validBuffer shortStereo ∧
  let processedBuffer := processAudio shortStereo "Traffic" in
  AudioBuffer.numberOfChannels processedBuffer
  = AudioBuffer.numberOfChannels shortStereo ∧
  AudioBuffer.length processedBuffer = AudioBuffer.length shortStereo ∧
  AudioBuffer.sampleRate processedBuffer = AudioBuffer.sampleRate shortStereo ∧
  length (AudioBuffer.channels processedBuffer)
  = AudioBuffer.numberOfChannels shortStereo ∧
  Forall (λ c, length c = AudioBuffer.length shortStereo)
         (AudioBuffer.channels processedBuffer).
Proof.
  split; [exact shortStereo_valid|].
  apply (processAudio_preserves_shape shortStereo "Traffic"). exact shortStereo_valid.
Defined.

(** C9.  The output in channel i of [processAudio] is the output of
    [processAudio] on the one-channel buffer that holds channel i alone,
    with the same label; and two valid buffers that agree on one channel
    (at whatever positions, with whatever other channels) produce the same
    output for it. *)
Theorem channels_are_independent (B : AudioBuffer.t) (label : string) (i : Z) :
  validBuffer B →
  0 ≤ i < Z.of_nat (AudioBuffer.numberOfChannels B) →
  getChannelData (processAudio B label) i
  = getChannelData (processAudio (onlyChannel B i) label) 0 ∧
  ∀ (B' : AudioBuffer.t) (j : Z),
    validBuffer B' →
    0 ≤ j < Z.of_nat (AudioBuffer.numberOfChannels B') →
    getChannelData B' j = getChannelData B i →
    getChannelData (processAudio B' label) j = getChannelData (processAudio B label) i.
Proof.
  intros Hvalid Hi.
  assert (∀ (B' : AudioBuffer.t) (j : Z),
            validBuffer B' →
            0 ≤ j < Z.of_nat (AudioBuffer.numberOfChannels B') →
            getChannelData B' j = getChannelData B i →
            getChannelData (processAudio B' label) j
            = getChannelData (processAudio B label) i) as Hany.
  { intros B' j Hvalid' Hj Heq.
    rewrite !processAudio_channel by done. by rewrite Heq. }
  split; [|exact Hany]. symmetry. apply Hany; [|simpl; lia|done].
  split; [done|]. intros c Hc. simpl in Hc. apply list_elem_of_singleton in Hc as ->.
  destruct Hvalid as [Hn Hc]. apply Hc. apply rd_elem_of. unfold len. lia.
Qed.

Lemma channels_are_independent_witness :
  validBuffer shortStereo ∧
  0 ≤ 1 < Z.of_nat (AudioBuffer.numberOfChannels shortStereo) ∧
  (getChannelData (processAudio shortStereo "lawnmower") 1
   = getChannelData (processAudio (onlyChannel shortStereo 1) "lawnmower") 0 ∧
   ∀ (B' : AudioBuffer.t) (j : Z),
     validBuffer B' →
     0 ≤ j < Z.of_nat (AudioBuffer.numberOfChannels B') →
     getChannelData B' j = getChannelData shortStereo 1 →
     getChannelData (processAudio B' "lawnmower") j
     = getChannelData (processAudio shortStereo "lawnmower") 1).
Proof.
  split; [exact shortStereo_valid|]. split; [simpl; lia|].
  apply (channels_are_independent shortStereo "lawnmower" 1);
    [exact shortStereo_valid|simpl; lia].
Defined.

(** The label table: the match is case-insensitive and an unknown label
    takes the default row, as the empty label does. *)
Example label_table (inputData outputData : list Qc) :
  filterChannel "Lawnmower" inputData outputData
  = applyLMSFilter inputData outputData (dec 0.01) 32 ∧
  filterChannel "TRAFFIC" inputData outputData
  = applyLMSFilter inputData outputData (dec 0.005) 128 ∧
  filterChannel "construction" inputData outputData
  = applyLMSFilter inputData outputData (dec 0.008) 64 ∧
  filterChannel "Fan/HVAC" inputData outputData
  = applyLMSFilter inputData outputData (dec 0.003) 256 ∧
  filterChannel "unknown-noise" inputData outputData
  = applyLMSFilter inputData outputData (dec 0.01) 128 ∧
  filterChannel "unknown-noise" inputData outputData
  = filterChannel "" inputData outputData.
Proof. repeat split. Qed.

(** Channel 0 of the stereo buffer, processed together with channel 1 and
    alone. *)
Example stereo_channel_0 :
  this <$> getChannelData (processAudio shortStereo "x") 0
  = this <$> applyLMSFilter fourSamples (new_Float32Array 4) (dec 0.01) 128.
Proof. vm_compute. reflexivity. Qed.

(** ** The classifier *)

(** C10.  Two buffers with the same first channel, classified with the same
    values from the random source, give the same features, the same scores
    and the same selected type (and leave the random source in the same
    state), whatever their other channels and attributes are. *)
Theorem classification_reads_channel_0 (b1 b2 : AudioBuffer.t) (rnd : nat → Qc) :
  getChannelData b1 0 = getChannelData b2 0 →
  extractFeatures b1 rnd = extractFeatures b2 rnd ∧
  classifyNoise b1 rnd = classifyNoise b2 rnd.
Proof.
  intros Heq.
  assert (extractFeatures b1 rnd = extractFeatures b2 rnd) as Hf.
  { unfold extractFeatures. by rewrite Heq. }
  split; [done|]. unfold classifyNoise, mbind, Rand_bind. by rewrite Hf.
Qed.

Lemma classification_reads_channel_0_witness :
  getChannelData hum 0 = getChannelData humStereo 0 ∧
  extractFeatures hum humDraws = extractFeatures humStereo humDraws ∧
  classifyNoise hum humDraws = classifyNoise humStereo humDraws.
Proof.
  split; [reflexivity|].
  apply (classification_reads_channel_0 hum humStereo humDraws). reflexivity.
Defined.

(** C8.  The periodicity feature is the sum, over the lags 1..1023, of the
    absolute value of the sum of signal[i] * signal[i + lag] over those i in
    0..1023 for which i + lag is inside the signal, divided by 1024.  For
    each lag the terms that contribute are the first
    min(1024, length - lag) ones (none when that is not positive), so a
    short signal contributes fewer terms; every sample read for a
    contributing term is inside the signal. *)
Theorem periodicity_is_autocorrelation_sum (buffer : AudioBuffer.t) (rnd : nat → Qc) :
  let signal := getChannelData buffer 0 in
  periodicity (extractFeatures buffer rnd).1 = Spec.periodicity signal ∧
  Spec.periodicity signal
  = (Spec.sum ((λ lag,
        Math_abs (Spec.sum ((λ i : Z, rd signal i * rd signal (i + lag))%Qc
                            <$> seqZ 0 (Z.min 1024 (len signal - lag)))))
      <$> seqZ 1 1023) / num 1024)%Qc ∧
  Forall (λ lag,
    Forall (λ i, 0 ≤ i < len signal ∧ 0 ≤ i + lag < len signal)
           (seqZ 0 (Z.min 1024 (len signal - lag))))
    (seqZ 1 1023).
Proof.
  intros signal. split; [|split].
  - change (periodicity (extractFeatures buffer rnd).1)
      with (sumCorrelation signal / num frameSize)%Qc.
    by rewrite sumCorrelation_spec.
  - unfold Spec.periodicity. f_equal. f_equal.
    apply list_fmap_ext. intros _ lag _. by rewrite in_bounds_terms.
  - apply Forall_forall. intros lag Hlag%elem_of_seqZ.
    apply Forall_forall. intros i Hi%elem_of_seqZ. lia.
Qed.

(** Three samples 0.3, 0.3, -1: lag 1 gives |0.09 - 0.3|, lag 2 gives
    |-0.3|, so the feature is 0.51 / 1024. *)
Example periodicity_three_samples :
  this (periodicity (extractFeatures
          {| AudioBuffer.numberOfChannels := 1; AudioBuffer.length := 3;
             AudioBuffer.sampleRate := num 8000;
             AudioBuffer.channels := [[dec 0.3; dec 0.3; dec (-1)]] |}
          humDraws).1)
  = (51 # 102400)%Q.
Proof. vm_compute. reflexivity. Qed.

Local Open Scope Qc_scope.

(** The raw score of an archetype before clamping and rounding. *)
Lemma scoreOf_bounds (a b : Z) type (f : Features) (base : Qc) :
  (0 ≤ a ≤ 100)%Z → (b ≤ 100)%Z →
  num a / num 100 <= (if thresholdPredicate type f then base + bonus type else base) →
  (if thresholdPredicate type f then base + bonus type else base) <= num b / num 100 →
  num a / num 100 <= scoreOf type f base ∧ scoreOf type f base <= num b / num 100.
Proof. intros. unfold scoreOf. by apply clamp_round_bounds. Qed.

Lemma scores_of_classification (audioBuffer : AudioBuffer.t) (rnd : nat → Qc) :
  let c := (classifyNoise audioBuffer rnd).1 in
  confidenceScores c
  = (λ '(k, type), (type, scoreOf type (features c) (dec 0.1 + rnd (S k) * dec 0.2)))
    <$> [(0%nat, "Lawnmower"); (1%nat, "Traffic"); (2%nat, "Construction");
         (3%nat, "Fan/HVAC"); (4%nat, "Crowd"); (5%nat, "Wind")].
Proof.
  intros c. unfold c. rewrite classifyNoise_unfold. cbn [confidenceScores features].
  generalize (extractFeatures audioBuffer rnd).1. intros f.
  by rewrite simulateModelPrediction_unfold.
Qed.

(** C7.  With every value of the random source in [0, 1) (so every base
    score in [0.1, 0.3)), the scores are those of the six archetypes in
    their fixed order, each one is min(1, raw score) rounded to hundredths,
    lies in [0, 1] and is a whole number of hundredths. *)
Theorem scores_in_unit_interval (audioBuffer : AudioBuffer.t) (rnd : nat → Qc) :
  unitDraws rnd →
  let c := (classifyNoise audioBuffer rnd).1 in
  (confidenceScores c).*1 = NOISE_TYPES ∧
  Forall (λ '(type, score),
            (0 <= score ∧ score <= 1) ∧ ∃ z : Z, score = num z / num 100)
         (confidenceScores c).
Proof.
  intros Hdraws c. unfold c. rewrite scores_of_classification.
  generalize (features (classifyNoise audioBuffer rnd).1). intros f.
  split; [done|]. apply Forall_fmap, Forall_forall. intros [k type] _.
  apply scoreOf_range. apply base_range; apply Hdraws.
Qed.

Lemma humDraws_unit : unitDraws humDraws.
Proof. intros n. unfold humDraws. case_decide; split; by vm_compute. Defined.

Lemma scores_in_unit_interval_witness :
  unitDraws humDraws ∧
  let c := (classifyNoise shortStereo humDraws).1 in
  (confidenceScores c).*1 = NOISE_TYPES ∧
  Forall (λ '(type, score),
            (0 <= score ∧ score <= 1) ∧ ∃ z : Z, score = num z / num 100)
         (confidenceScores c).
Proof.
  split; [exact humDraws_unit|].
  apply (scores_in_unit_interval shortStereo humDraws). exact humDraws_unit.
Defined.

(** *** The Fan/HVAC scenario *)

Lemma hundredths_30 : dec 0.3 = num 30 / num 100.
Proof. by apply Qc_is_canon. Qed.

Lemma hundredths_70 : dec 0.7 = num 70 / num 100.
Proof. by apply Qc_is_canon. Qed.

Section scenario.
Variables (f : Features) (rnd : nat → Qc).
Hypothesis Hdraws : unitDraws rnd.
Hypothesis Hper : dec 0.6 < periodicity f.
Hypothesis Hen : energy f < dec 0.1.
Hypothesis Hzc : zeroCrossings f < dec 0.2.

Local Abbreviation base k := (dec 0.1 + rnd k * dec 0.2).

Lemma fan_matches : thresholdPredicate "Fan/HVAC" f = true.
Proof.
  change (bool_decide (energy f < dec 0.1 ∧ zeroCrossings f < dec 0.2 ∧
                       dec 0.6 < periodicity f) = true).
  by apply bool_decide_eq_true.
Qed.

Lemma lawnmower_fails : thresholdPredicate "Lawnmower" f = false.
Proof.
  change (bool_decide (dec 0.1 < energy f ∧ dec 0.5 < periodicity f) = false).
  apply bool_decide_eq_false. intros [H _]. qc2q. lra.
Qed.

Lemma traffic_fails : thresholdPredicate "Traffic" f = false.
Proof.
  change (bool_decide (dec 0.05 < energy f ∧ energy f < dec 0.2 ∧
                       periodicity f < dec 0.3) = false).
  apply bool_decide_eq_false. intros (_ & _ & H). qc2q. lra.
Qed.

Lemma construction_fails : thresholdPredicate "Construction" f = false.
Proof.
  change (bool_decide (dec 0.15 < energy f ∧ dec 0.3 < zeroCrossings f) = false).
  apply bool_decide_eq_false. intros [H _]. qc2q. lra.
Qed.

Lemma crowd_fails : thresholdPredicate "Crowd" f = false.
Proof.
  change (bool_decide (periodicity f < dec 0.2) = false).
  apply bool_decide_eq_false. intros H. qc2q. lra.
Qed.

Lemma wind_matches_iff :
  thresholdPredicate "Wind" f = true ↔ zeroCrossings f < dec 0.15.
Proof.
  change (bool_decide (energy f < dec 0.15 ∧ zeroCrossings f < dec 0.15) = true
          ↔ zeroCrossings f < dec 0.15).
  rewrite bool_decide_eq_true. split; [by intros [_ ?]|].
  intros H. split; [|done]. qc2q. lra.
Qed.

(** A score without bonus lies in [0.1, 0.3]. *)
Lemma plain_score type k :
  thresholdPredicate type f = false →
  dec 0.1 <= scoreOf type f (base k) ∧ scoreOf type f (base k) <= dec 0.3.
Proof.
  intros Hp. rewrite tenth_hundredths at 1. rewrite hundredths_30.
  destruct (base_range (rnd k)) as [Hlo Hhi]; [apply Hdraws..|].
  apply scoreOf_bounds; [lia|lia|rewrite Hp ..].
  - by rewrite <- tenth_hundredths.
  - rewrite <- hundredths_30. by apply Qclt_le_weak.
Qed.

Lemma fan_score k :
  dec 0.7 <= scoreOf "Fan/HVAC" f (base k) ∧
  scoreOf "Fan/HVAC" f (base k) = toFixed2 (Math_min 1 (base k + dec 0.6)).
Proof.
  split; [|unfold scoreOf; by rewrite fan_matches].
  destruct (base_range (rnd k)) as [Hlo Hhi]; [apply Hdraws..|].
  rewrite hundredths_70.
  apply (scoreOf_bounds 70 100); [lia|lia|rewrite fan_matches ..].
  - rewrite <- hundredths_70. change (bonus "Fan/HVAC") with (dec 0.6).
    qc2q. lra.
  - change (bonus "Fan/HVAC") with (dec 0.6).
    unfold Qcle. rewrite this_hundredths. qc2q.
    change (inject_Z 100) with 100%Q. lra.
Qed.

Lemma wind_score k : scoreOf "Wind" f (base k) <= dec 0.7.
Proof.
  destruct (base_range (rnd k)) as [Hlo Hhi]; [apply Hdraws..|].
  rewrite hundredths_70.
  apply (scoreOf_bounds 10 70); [lia|lia|..].
  - rewrite <- tenth_hundredths. destruct (thresholdPredicate "Wind" f); [|done].
    change (bonus "Wind") with (dec 0.4). qc2q. lra.
  - rewrite <- hundredths_70. destruct (thresholdPredicate "Wind" f).
    + change (bonus "Wind") with (dec 0.4). qc2q. lra.
    + qc2q. lra.
Qed.

(** The six scores and the selection among them. *)
Lemma scenario_selection :
  let sF := scoreOf "Fan/HVAC" f (base 4) in
  selectHighest
    [("Lawnmower", scoreOf "Lawnmower" f (base 1));
     ("Traffic", scoreOf "Traffic" f (base 2));
     ("Construction", scoreOf "Construction" f (base 3));
     ("Fan/HVAC", sF);
     ("Crowd", scoreOf "Crowd" f (base 5));
     ("Wind", scoreOf "Wind" f (base 6))]
  = (sF, "Fan/HVAC") ∧
  scoreOf "Lawnmower" f (base 1) < sF ∧ scoreOf "Traffic" f (base 2) < sF ∧
  scoreOf "Construction" f (base 3) < sF ∧
  scoreOf "Crowd" f (base 5) < sF ∧ scoreOf "Wind" f (base 6) <= sF.
Proof.
  intros sF.
  destruct (plain_score "Lawnmower" 1 lawnmower_fails) as [_ HL].
  destruct (plain_score "Traffic" 2 traffic_fails) as [_ HT].
  destruct (plain_score "Construction" 3 construction_fails) as [_ HC].
  destruct (plain_score "Crowd" 5 crowd_fails) as [_ HCr].
  destruct (fan_score 4) as [HF _]. fold sF in HF.
  pose proof (wind_score 6) as HW.
  assert (dec 0.3 < dec 0.7) as H37 by by vm_compute.
  assert (∀ s, s <= dec 0.3 → s < sF) as Hlow.
  { intros s Hs. eapply Qcle_lt_trans; [exact Hs|].
    eapply Qclt_le_trans; [exact H37|exact HF]. }
  assert (scoreOf "Wind" f (base 6) <= sF) as HW'.
  { by eapply Qcle_trans. }
  split; [|by auto 10].
  apply select_fourth; auto using Qclt_le_weak.
Qed.
End scenario.

(** The first-max-wins rule in the scenario: Fan/HVAC at 0.70 against Wind
    at 0.70 (base 0.2998 plus 0.4, rounded). *)
Example tie_goes_to_the_first :
  selectHighest [("Lawnmower", dec 0.28); ("Traffic", dec 0.28);
                 ("Construction", dec 0.28); ("Fan/HVAC", dec 0.7);
                 ("Crowd", dec 0.28); ("Wind", dec 0.7)]
  = (dec 0.7, "Fan/HVAC").
Proof. reflexivity. Qed.

(** The features of the hum: energy 0.09, no zero crossing, periodicity
    3213/5120 (about 0.63). *)
Lemma hum_features :
  let f := (extractFeatures hum humDraws).1 in
  (this (energy f), this (zeroCrossings f), this (periodicity f))
  = (9 # 100, 0 # 1, 3213 # 5120)%Q.
Proof. vm_compute. reflexivity. Qed.

Lemma features_of_classification (b : AudioBuffer.t) (rnd : nat → Qc) :
  features (classifyNoise b rnd).1 = (extractFeatures b rnd).1.
Proof. by rewrite classifyNoise_unfold. Qed.

Lemma hum_scenario :
  let c := (classifyNoise hum humDraws).1 in
  dec 0.6 < periodicity (features c) ∧ energy (features c) < dec 0.1 ∧
  zeroCrossings (features c) < dec 0.2 ∧ zeroCrossings (features c) < dec 0.15.
Proof.
  intros c. unfold c. rewrite features_of_classification.
  pose proof hum_features as H. cbv zeta in H. revert H.
  generalize (extractFeatures hum humDraws).1. intros f H.
  injection H as He Hz Hp. unfold Qclt. rewrite He, Hz, Hp.
  repeat split.
Qed.

(** C5 (amended).  When the extracted features satisfy periodicity > 0.6,
    energy < 0.1 and zeroCrossings < 0.2, and every value of the random
    source lies in [0, 1), the classifier selects Fan/HVAC; the score it
    reports for Fan/HVAC is min(1, base + 0.6) rounded to hundredths; the
    predicate of Fan/HVAC holds, those of Lawnmower, Traffic, Construction
    and Crowd do not, and that of Wind holds exactly when
    zeroCrossings < 0.15; no score exceeds the Fan/HVAC score and the three
    scores before it in the enumeration order are strictly below it, so a
    tie (possible with Wind only) goes to Fan/HVAC, the first maximum. *)
Theorem hvac_scenario (audioBuffer : AudioBuffer.t) (rnd : nat → Qc) :
  unitDraws rnd →
  let c := (classifyNoise audioBuffer rnd).1 in
  dec 0.6 < periodicity (features c) →
  energy (features c) < dec 0.1 →
  zeroCrossings (features c) < dec 0.2 →
  noiseType c = "Fan/HVAC" ∧
  confidenceScores c !! 3%nat = Some ("Fan/HVAC", fanScore rnd) ∧
  Forall (λ type, thresholdPredicate type (features c) = true
                  ↔ type = "Fan/HVAC" ∨
                    (type = "Wind" ∧ zeroCrossings (features c) < dec 0.15))
         NOISE_TYPES ∧
  Forall (λ '(_, score), score <= fanScore rnd) (confidenceScores c) ∧
  Forall (λ '(_, score), score < fanScore rnd) (take 3 (confidenceScores c)).
Proof.
  intros Hdraws c. pose proof (scores_of_classification audioBuffer rnd) as Hs.
  fold c in Hs. cbv zeta in Hs.
  assert (noiseType c = (selectHighest (confidenceScores c)).2) as Ht.
  { unfold c. by rewrite classifyNoise_unfold. }
  rewrite Ht, Hs. generalize (features c). clear Hs Ht c. intros f Hper Hen Hzc.
  destruct (scenario_selection f rnd Hdraws Hper Hen Hzc)
    as (Hsel & HL & HT & HC & HCr & HW).
  destruct (fan_score f rnd Hdraws Hper Hen Hzc 4) as [_ HF].
  fold (fanScore rnd) in HF. cbn [fmap list_fmap]. rewrite HF in *.
  split; [by rewrite Hsel|].
  split; [done|]. split; [|split].
  - repeat apply Forall_cons_2; [..|apply Forall_nil_2].
    + rewrite (lawnmower_fails f) by done. split; [done|by intros [?|[? _]]].
    + rewrite (traffic_fails f) by done. split; [done|by intros [?|[? _]]].
    + rewrite (construction_fails f) by done. split; [done|by intros [?|[? _]]].
    + rewrite (fan_matches f) by done. split; [by left|done].
    + rewrite (crowd_fails f) by done. split; [done|by intros [?|[? _]]].
    + rewrite (wind_matches_iff f) by done. split; [by right|by intros [?|[_ ?]]].
  - repeat apply Forall_cons_2; [..|apply Forall_nil_2];
      auto using Qclt_le_weak, Qcle_refl.
  - simpl. repeat apply Forall_cons_2; [..|apply Forall_nil_2]; done.
Qed.

Lemma hvac_scenario_witness :
  unitDraws humDraws ∧
  let c := (classifyNoise hum humDraws).1 in
  dec 0.6 < periodicity (features c) ∧
  energy (features c) < dec 0.1 ∧
  zeroCrossings (features c) < dec 0.2 ∧
  noiseType c = "Fan/HVAC" ∧
  confidenceScores c !! 3%nat = Some ("Fan/HVAC", fanScore humDraws) ∧
  Forall (λ type, thresholdPredicate type (features c) = true
                  ↔ type = "Fan/HVAC" ∨
                    (type = "Wind" ∧ zeroCrossings (features c) < dec 0.15))
         NOISE_TYPES ∧
  Forall (λ '(_, score), score <= fanScore humDraws) (confidenceScores c) ∧
  Forall (λ '(_, score), score < fanScore humDraws) (take 3 (confidenceScores c)).
Proof.
  split; [exact humDraws_unit|]. intros c.
  destruct hum_scenario as (Hper & Hen & Hzc & _). fold c in Hper, Hen, Hzc.
  split; [exact Hper|]. split; [exact Hen|]. split; [exact Hzc|].
  exact (hvac_scenario hum humDraws humDraws_unit Hper Hen Hzc).
Defined.

(** C5 as stated fails: on the hum the features satisfy the three
    conditions and the random source is in range, yet the predicate of Wind
    holds too (energy 0.09 < 0.15, zeroCrossings 0 < 0.15), so the predicate
    of Fan/HVAC is not the only one matching. *)
Lemma hvac_predicate_is_not_alone : ¬ hvacScenarioAsStated hum humDraws.
Proof.
  unfold hvacScenarioAsStated. cbv zeta. intros H.
  destruct hum_scenario as (Hper & Hen & Hzc & Hzc'). cbv zeta in *.
  destruct (H humDraws_unit Hper Hen Hzc) as (_ & _ & Honly).
  clear H. revert Hper Hen Hzc Hzc' Honly.
  generalize (features (classifyNoise hum humDraws).1).
  intros f Hper Hen Hzc Hzc' Honly.
  assert ("Wind" = "Fan/HVAC") as Habs; [|discriminate Habs].
  apply Honly.
  - unfold NOISE_TYPES. do 5 apply list_elem_of_further. apply list_elem_of_here.
  - apply wind_matches_iff; assumption.
Qed.

(** * Further properties of the code *)

(** ** Peaks *)

Local Open Scope Qc_scope.

Lemma Math_abs_bounds x m : Math_abs x <= m ↔ - m <= x ∧ x <= m.
Proof. unfold Math_abs. case_decide; split; intros; qc2q; (lra || (split; lra)). Qed.

Lemma rd_in_peak (signal : list Qc) i :
  (0 ≤ i < len signal)%Z → Math_abs (rd signal i) <= maxAmplitude signal.
Proof.
  intros Hi. destruct (maxAmplitude_spec signal) as (_ & Hub & _).
  rewrite Forall_forall in Hub. apply Hub. by apply rd_elem_of.
Qed.

(** The peak is the only bound on the absolute values that is zero or
    reached by a sample. *)
Lemma peak_unique (signal : list Qc) (m : Qc) :
  Forall (λ x, Math_abs x <= m) signal →
  m = 0 ∨ m ∈ Math_abs <$> signal →
  maxAmplitude signal = m.
Proof.
  intros Hub Hatt. destruct (maxAmplitude_spec signal) as (H0 & Hub' & Hatt').
  rewrite Forall_forall in Hub, Hub'. apply Qcle_antisym.
  - destruct Hatt' as [->|(x & -> & Hx)%list_elem_of_fmap]; [|by apply Hub].
    destruct Hatt as [->|(x & -> & Hx)%list_elem_of_fmap];
      [apply Qcle_refl|apply Math_abs_nonneg].
  - destruct Hatt as [->|(x & -> & Hx)%list_elem_of_fmap]; [done|by apply Hub'].
Qed.

Lemma peak_scale (signal : list Qc) (c : Qc) :
  0 <= c →
  maxAmplitude ((λ x, x * c) <$> signal) = maxAmplitude signal * c.
Proof.
  intros Hc. destruct (maxAmplitude_spec signal) as (H0 & Hub & Hatt).
  apply peak_unique.
  - apply Forall_fmap. eapply Forall_impl; [exact Hub|]. intros x Hx. simpl.
    rewrite Math_abs_mult_nonneg by done. by apply Qcmult_le_compat_r.
  - destruct Hatt as [->|(x & Hx & Hin)%list_elem_of_fmap]; [left; ring|right].
    apply list_elem_of_fmap. exists (x * c). split.
    + by rewrite Hx, Math_abs_mult_nonneg.
    + apply list_elem_of_fmap. by exists x.
Qed.

Local Open Scope Z_scope.

(** ** [applySpectralSubtraction] *)

Lemma applySpectralSubtraction_spec (inputData outputData : list Qc)
    (fftSize overlapFactor : Qc) :
  let r := applySpectralSubtraction inputData outputData fftSize overlapFactor in
  len r = len outputData ∧
  ∀ i, rd r i = if decide (0 ≤ i < Z.min (len inputData) (len outputData))
                then (rd inputData i * dec 0.8)%Qc else rd outputData i.
Proof.
  unfold applySpectralSubtraction.
  pose proof (for_up_inv (λ k r, len r = len outputData ∧
      ∀ i, rd r i = if decide (0 ≤ i < Z.min k (len outputData))
                    then (rd inputData i * dec 0.8)%Qc else rd outputData i)
    0 (len inputData)
    (λ i outputData, wr outputData i (rd inputData i * dec 0.8)%Qc) outputData)
    as Hinv.
  apply Hinv.
  - apply len_nonneg.
  - split; [done|]. intros i. by rewrite decide_False by lia.
  - intros k r Hk [Hl Hr]. split; [by rewrite len_wr|]. intros i.
    destruct (decide (k < len outputData)) as [Hin|Hout].
    + rewrite rd_wr by lia. rewrite Hr. repeat case_decide; subst; try done; lia.
    + rewrite wr_outside by lia. rewrite Hr. repeat case_decide; try done; lia.
Qed.

(** X1.  [applySpectralSubtraction] keeps the length of the output array;
    it overwrites the positions below the shorter of the two lengths with
    0.8 times the input sample and leaves every other position of the
    output as it was; the FFT size and the overlap factor have no effect. *)
Theorem spectral_subtraction_frame (inputData outputData : list Qc)
    (fftSize overlapFactor fftSize' overlapFactor' : Qc) :
  let r := applySpectralSubtraction inputData outputData fftSize overlapFactor in
  length r = length outputData ∧
  (∀ i, rd r i = if decide (0 ≤ i < Z.min (len inputData) (len outputData))
                 then (rd inputData i * dec 0.8)%Qc else rd outputData i) ∧
  drop (length inputData) r = drop (length inputData) outputData ∧
  r = applySpectralSubtraction inputData outputData fftSize' overlapFactor'.
Proof.
  intros r. destruct (applySpectralSubtraction_spec inputData outputData
                        fftSize overlapFactor) as [Hl Hr]. fold r in Hl, Hr.
  assert (length r = length outputData) as Hlen by (unfold len in Hl; lia).
  split; [done|]. split; [done|]. split; [|done].
  apply list_eq. intros n. rewrite !lookup_drop.
  apply lookup_of_rd; [done|]. rewrite Hr. rewrite decide_False; [done|].
  unfold len. lia.
Qed.

Example spectral_subtraction_short_input :
  this <$> applySpectralSubtraction [dec 1; dec (-0.5)] [dec 9; dec 9; dec 9]
             (num 2048) (dec 0.5)
  = [4 # 5; -2 # 5; 9 # 1]%Q.
Proof. vm_compute. reflexivity. Qed.

(** X2.  On arrays of one length the result is the input scaled by 0.8,
    sample by sample, and its peak absolute amplitude is 0.8 times the peak
    of the input. *)
Theorem spectral_subtraction_attenuates (inputData outputData : list Qc)
    (fftSize overlapFactor : Qc) :
  length outputData = length inputData →
  let r := applySpectralSubtraction inputData outputData fftSize overlapFactor in
  r = (λ x, x * dec 0.8)%Qc <$> inputData ∧
  maxAmplitude r = (maxAmplitude inputData * dec 0.8)%Qc.
Proof.
  intros Hlen r. destruct (applySpectralSubtraction_spec inputData outputData
                             fftSize overlapFactor) as [Hl Hr]. fold r in Hl, Hr.
  assert (r = (λ x, x * dec 0.8)%Qc <$> inputData) as ->.
  { apply array_ext.
    - rewrite Hl. unfold len. rewrite length_fmap. lia.
    - intros i Hi. rewrite Hl in Hi. rewrite Hr, rd_fmap by (unfold len in *; lia).
      rewrite decide_True; [done|]. unfold len in *. lia. }
  split; [done|]. apply peak_scale. by vm_compute.
Qed.

Lemma spectral_subtraction_attenuates_witness :
  length (new_Float32Array 4) = length fourSamples ∧
  let r := applySpectralSubtraction fourSamples (new_Float32Array 4)
             (num 2048) (dec 0.5) in
  r = (λ x, x * dec 0.8)%Qc <$> fourSamples ∧
  maxAmplitude r = (maxAmplitude fourSamples * dec 0.8)%Qc.
Proof.
  split; [reflexivity|].
  apply (spectral_subtraction_attenuates fourSamples (new_Float32Array 4)).
  reflexivity.
Defined.

(** ** Post-processing *)

(** X3.  A signal of at most six samples has no interior sample: the
    averaging step returns it unchanged. *)
Theorem moving_average_short_signal (signal : list Qc) :
  (length signal ≤ 6)%nat → movingAverage signal = signal.
Proof.
  intros Hshort. destruct (movingAverage_spec signal) as [Hl Hr].
  apply array_ext; [done|]. intros i Hi. rewrite Hr.
  rewrite decide_False; [done|]. unfold len. lia.
Qed.

Lemma moving_average_short_signal_witness :
  (length fourSamples ≤ 6)%nat ∧ movingAverage fourSamples = fourSamples.
Proof.
  split; [vm_compute; lia|]. apply (moving_average_short_signal fourSamples).
  vm_compute. lia.
Defined.

Local Open Scope Qc_scope.

Lemma this_sevenths (x : Qc) : (this (x / num 7) == this x * (1 # 7))%Q.
Proof. rewrite this_div, this_num. reflexivity. Qed.

Lemma boxAverage_bound (signal : list Qc) (i : Z) (m : Qc) :
  (3 ≤ i < len signal - 3)%Z →
  (∀ j, (0 ≤ j < len signal)%Z → Math_abs (rd signal j) <= m) →
  Math_abs (Spec.boxAverage signal i) <= m.
Proof.
  intros Hi Hub. rewrite boxAverage_unfold.
  pose proof (proj1 (Math_abs_bounds _ _) (Hub (i + -3)%Z ltac:(lia))) as [? ?].
  pose proof (proj1 (Math_abs_bounds _ _) (Hub (i + -2)%Z ltac:(lia))) as [? ?].
  pose proof (proj1 (Math_abs_bounds _ _) (Hub (i + -1)%Z ltac:(lia))) as [? ?].
  pose proof (proj1 (Math_abs_bounds _ _) (Hub (i + 0)%Z ltac:(lia))) as [? ?].
  pose proof (proj1 (Math_abs_bounds _ _) (Hub (i + 1)%Z ltac:(lia))) as [? ?].
  pose proof (proj1 (Math_abs_bounds _ _) (Hub (i + 2)%Z ltac:(lia))) as [? ?].
  pose proof (proj1 (Math_abs_bounds _ _) (Hub (i + 3)%Z ltac:(lia))) as [? ?].
  apply Math_abs_bounds. unfold Qcle in *.
  rewrite this_sevenths, ?this_plus, ?this_opp in *.
  change (this 0) with 0%Q. split; lra.
Qed.

Lemma movingAverage_peak (signal : list Qc) :
  maxAmplitude (movingAverage signal) <= maxAmplitude signal.
Proof.
  destruct (movingAverage_spec signal) as [Hl Hr].
  destruct (maxAmplitude_spec signal) as (H0 & _ & _).
  destruct (maxAmplitude_spec (movingAverage signal)) as (_ & _ & [->|Hatt]);
    [done|].
  apply list_elem_of_fmap in Hatt as (x & -> & Hx).
  apply list_elem_of_lookup in Hx as [n Hn].
  pose proof (lookup_lt_Some _ _ _ Hn) as Hlt.
  rewrite <- (rd_lookup _ (Z.of_nat n) x) by (by rewrite ?Nat2Z.id || lia).
  rewrite Hr. unfold len in Hl. case_decide.
  - apply boxAverage_bound; [done|]. intros j Hj. by apply rd_in_peak.
  - apply rd_in_peak. unfold len. lia.
Qed.

Lemma normalize_peak (signal : list Qc) :
  maxAmplitude (normalize signal) = Math_min (dec 0.9) (maxAmplitude signal).
Proof.
  rewrite normalize_spec. unfold Math_min. case_decide as Hp.
  - assert (0 < maxAmplitude signal) as Hpos.
    { eapply Qclt_trans; [|exact Hp]. by vm_compute. }
    rewrite peak_scale.
    + rewrite decide_False by (by apply Qcle_not_lt, Qclt_le_weak).
      field. intros E. apply Qclt_not_eq in Hpos. by rewrite E in Hpos.
    + apply (Qcmult_lt_0_le_reg_r _ _ _ Hpos).
      rewrite Qcmult_0_l.
      replace (dec 0.9 / maxAmplitude signal * maxAmplitude signal) with (dec 0.9).
      * by vm_compute.
      * field. intros E. apply Qclt_not_eq in Hpos. by rewrite E in Hpos.
  - case_decide; [done|]. apply Qcle_antisym; by apply Qcnot_lt_le.
Qed.

(** X4.  On a signal whose samples are all finite the peaks are finite;
    smoothing never raises the peak absolute amplitude and neither does the
    normalisation, so the peak of the post-processed signal never exceeds
    the peak of the signal that came in. *)
Theorem post_processing_peak (signal : list Js.number) :
  Forall Js.isFinite signal →
  (Js.isFinite (Js.maxAmplitude signal) ∧
   Js.isFinite (Js.maxAmplitude (Js.movingAverage signal)) ∧
   Js.isFinite (Js.maxAmplitude (Js.applyPostProcessing signal))) ∧
  Js.le (Js.maxAmplitude (Js.movingAverage signal)) (Js.maxAmplitude signal)
  = true ∧
  Js.le (Js.maxAmplitude (Js.applyPostProcessing signal))
        (Js.maxAmplitude (Js.movingAverage signal)) = true ∧
  Js.le (Js.maxAmplitude (Js.applyPostProcessing signal)) (Js.maxAmplitude signal)
  = true.
Proof.
  intros [l ->]%finite_samples.
  rewrite applyPostProcessing_finite, movingAverage_finite, !maxAmplitude_finite.
  cbn [Js.le Js.isFinite]. rewrite !bool_decide_eq_true.
  pose proof (movingAverage_peak l) as Hs.
  assert (maxAmplitude (applyPostProcessing l) <= maxAmplitude (movingAverage l))
    as Hn.
  { unfold applyPostProcessing. rewrite normalize_peak. apply Math_min_le_r. }
  split; [done|]. split; [done|]. split; [done|]. by eapply Qcle_trans.
Qed.

Lemma post_processing_peak_witness :
  Forall Js.isFinite ramp ∧
  (Js.isFinite (Js.maxAmplitude ramp) ∧
   Js.isFinite (Js.maxAmplitude (Js.movingAverage ramp)) ∧
   Js.isFinite (Js.maxAmplitude (Js.applyPostProcessing ramp))) ∧
  Js.le (Js.maxAmplitude (Js.movingAverage ramp)) (Js.maxAmplitude ramp)
  = true ∧
  Js.le (Js.maxAmplitude (Js.applyPostProcessing ramp))
        (Js.maxAmplitude (Js.movingAverage ramp)) = true ∧
  Js.le (Js.maxAmplitude (Js.applyPostProcessing ramp)) (Js.maxAmplitude ramp)
  = true.
Proof.
  assert (Forall Js.isFinite ramp) as H by (repeat constructor).
  split; [exact H|]. exact (post_processing_peak ramp H).
Defined.

(** X5.  Normalising twice is normalising once. *)
Theorem normalize_idempotent (signal : list Qc) :
  normalize (normalize signal) = normalize signal.
Proof.
  rewrite (normalize_spec (normalize signal)). rewrite decide_False; [done|].
  rewrite normalize_peak. apply Qcle_not_lt, Math_min_le_l.
Qed.

(** X6.  A signal whose samples all lie within [-0.9, 0.9] is smoothed and
    not scaled: smoothing cannot push the peak above 0.9. *)
Theorem quiet_signal_is_only_smoothed (signal : list Qc) :
  Forall (λ x, Math_abs x <= dec 0.9) signal →
  applyPostProcessing signal = movingAverage signal.
Proof.
  intros Hquiet. unfold applyPostProcessing. rewrite normalize_spec.
  rewrite decide_False; [done|]. apply Qcle_not_lt.
  eapply Qcle_trans; [apply movingAverage_peak|].
  destruct (maxAmplitude_spec signal) as (_ & _ & [->|Hatt]); [by vm_compute|].
  apply list_elem_of_fmap in Hatt as (x & -> & Hx).
  rewrite Forall_forall in Hquiet. by apply Hquiet.
Qed.

Lemma quiet_signal_is_only_smoothed_witness :
  Forall (λ x, Math_abs x <= dec 0.9) [dec 0.9; dec (-0.2)] ∧
  applyPostProcessing [dec 0.9; dec (-0.2)] = movingAverage [dec 0.9; dec (-0.2)].
Proof.
  assert (Forall (λ x, Math_abs x <= dec 0.9) [dec 0.9; dec (-0.2)]) as H.
  { repeat apply Forall_cons_2; [by vm_compute|by vm_compute|apply Forall_nil_2]. }
  split; [exact H|]. exact (quiet_signal_is_only_smoothed _ H).
Defined.

Local Open Scope Z_scope.

(** ** The adaptive filter *)

Lemma filterOutput_zero_weights (L : nat) (d : list Qc) :
  Spec.filterOutput (replicate L 0%Qc) d = 0%Qc.
Proof.
  unfold Spec.filterOutput, Spec.sum. revert d.
  induction L as [|L IH]; intros [|x d]; simpl; try done.
  rewrite IH. ring.
Qed.

Lemma shiftIn_length (x : Qc) (d : list Qc) : length (Spec.shiftIn x d) = length d.
Proof. unfold Spec.shiftIn. rewrite length_take. simpl. lia. Qed.

(** With a zero step size, or with no tap at all, the weights never leave
    zero and the machine emits its input. *)
Lemma run_frozen (mu : Qc) (L : nat) (d : list Qc) (input : list Qc) :
  mu = 0%Qc ∨ L = 0%nat →
  length d = L →
  ∃ d', length d' = L ∧
    Spec.run mu {| Spec.weights := replicate L 0%Qc; Spec.delayLine := d;
                   Spec.prevOutput := 0%Qc |} input
    = (input, {| Spec.weights := replicate L 0%Qc; Spec.delayLine := d';
                 Spec.prevOutput := 0%Qc |}).
Proof.
  intros Hfrozen. revert d. induction input as [|x input IH]; intros d Hd.
  { by exists d. }
  rewrite run_cons. unfold Spec.step. cbn [Spec.weights Spec.delayLine Spec.prevOutput].
  rewrite filterOutput_zero_weights.
  assert (zip_with (λ w dk : Qc, (w - mu * (x + 0) * dk)%Qc)
            (replicate L 0%Qc) (Spec.shiftIn x d) = replicate L 0%Qc) as ->.
  { destruct Hfrozen as [->| ->]; [|done].
    pose proof (shiftIn_length x d) as Hl. rewrite Hd in Hl. clear Hd.
    revert Hl. generalize (Spec.shiftIn x d). clear.
    induction L as [|L IH]; intros [|y l] Hl; simpl in *; try done.
    rewrite IH by lia.
    by replace (0 - 0 * (x + 0) * y)%Qc with 0%Qc by ring. }
  destruct (IH (Spec.shiftIn x d)) as (d' & Hd' & ->);
    [by rewrite shiftIn_length|].
  exists d'. split; [done|]. f_equal. f_equal. ring.
Qed.

(** X7.  With step size 0, or with filter length 0, the sample loop copies
    the input to the output and leaves the weights at zero. *)
Theorem frozen_filter_copies_input (inputSignal outputSignal : list Qc)
    (stepSize : Qc) (filterLength : nat) :
  length outputSignal = length inputSignal →
  stepSize = 0%Qc ∨ filterLength = 0%nat →
  let r := lmsLoop inputSignal outputSignal stepSize filterLength in
  st_outputSignal r = inputSignal ∧
  st_weights r = replicate filterLength 0%Qc.
Proof.
  intros Hlen Hfrozen r.
  destruct (lmsLoop_refines inputSignal stepSize filterLength outputSignal Hlen)
    as [Hst Hout]. fold r in Hst, Hout.
  destruct (run_frozen stepSize filterLength (replicate filterLength 0%Qc)
              inputSignal Hfrozen) as (d' & _ & Hrun);
    [apply length_replicate|].
  change (Spec.run stepSize (Spec.init filterLength) inputSignal = (inputSignal,
    {| Spec.weights := replicate filterLength 0%Qc; Spec.delayLine := d';
       Spec.prevOutput := 0%Qc |})) in Hrun.
  rewrite Hrun in Hst, Hout. split; [done|]. exact (f_equal Spec.weights Hst).
Qed.

Lemma frozen_filter_copies_input_witness :
  length (new_Float32Array 4) = length fourSamples ∧
  (0%Qc = 0%Qc ∨ 32%nat = 0%nat) ∧
  let r := lmsLoop fourSamples (new_Float32Array 4) 0%Qc 32 in
  st_outputSignal r = fourSamples ∧ st_weights r = replicate 32 0%Qc.
Proof.
  split; [reflexivity|]. split; [by left|].
  apply (frozen_filter_copies_input fourSamples (new_Float32Array 4) 0%Qc 32);
    [reflexivity|by left].
Defined.

(** X8.  Whatever the step size and the filter length, the first two
    samples the loop writes are the first two input samples: the weights
    are zero while the first sample is filtered, so the feedback term is
    still zero at the second. *)
Theorem first_two_samples_pass (inputSignal outputSignal : list Qc)
    (stepSize : Qc) (filterLength : nat) :
  length outputSignal = length inputSignal →
  take 2 (st_outputSignal (lmsLoop inputSignal outputSignal stepSize filterLength))
  = take 2 inputSignal.
Proof.
  intros Hlen.
  destruct (lmsLoop_refines inputSignal stepSize filterLength outputSignal Hlen)
    as [_ ->].
  destruct inputSignal as [|x0 [|x1 input]]; [done|..].
  - rewrite run_cons. unfold Spec.step, Spec.init. cbn [fst take Spec.run Spec.prevOutput].
    by replace (x0 + 0)%Qc with x0 by ring.
  - rewrite run_cons. unfold Spec.step, Spec.init.
    cbn [Spec.weights Spec.delayLine Spec.prevOutput].
    rewrite filterOutput_zero_weights.
    rewrite run_cons. unfold Spec.step.
    cbn [Spec.weights Spec.delayLine Spec.prevOutput].
    destruct (Spec.run _ _ input) as [es st]. cbn [fst take].
    by replace (x0 + 0)%Qc with x0 by ring; replace (x1 + 0)%Qc with x1 by ring.
Qed.

Lemma first_two_samples_pass_witness :
  length (new_Float32Array 4) = length fourSamples ∧
  take 2 (st_outputSignal (lmsLoop fourSamples (new_Float32Array 4) (dec 0.01) 2))
  = take 2 fourSamples.
Proof.
  split; [reflexivity|].
  apply (first_two_samples_pass fourSamples (new_Float32Array 4) (dec 0.01) 2).
  reflexivity.
Defined.

Lemma run_app mu st input1 input2 :
  Spec.run mu st (input1 ++ input2)
  = let '(es1, st1) := Spec.run mu st input1 in
    let '(es2, st2) := Spec.run mu st1 input2 in
    (es1 ++ es2, st2).
Proof.
  revert st. induction input1 as [|x input1 IH]; intros st.
  { simpl. by destruct (Spec.run mu st input2). }
  change ((x :: input1) ++ input2) with (x :: (input1 ++ input2)).
  rewrite !run_cons. destruct (Spec.step mu x st) as [e st']. rewrite IH.
  destruct (Spec.run mu st' input1) as [es1 st1].
  by destruct (Spec.run mu st1 input2) as [es2 st2].
Qed.

(** X9.  The sample loop is causal: the first samples it writes for an input
    followed by more samples are the samples it writes for that input
    alone, and the filter state after them is the same. *)
Theorem lms_loop_is_causal (inputSignal more outputSignal outputSignal' : list Qc)
    (stepSize : Qc) (filterLength : nat) :
  length outputSignal = length inputSignal →
  length outputSignal' = length (inputSignal ++ more) →
  take (length inputSignal)
    (st_outputSignal (lmsLoop (inputSignal ++ more) outputSignal' stepSize filterLength))
  = st_outputSignal (lmsLoop inputSignal outputSignal stepSize filterLength).
Proof.
  intros Hlen Hlen'.
  destruct (lmsLoop_refines inputSignal stepSize filterLength outputSignal Hlen)
    as [_ ->].
  destruct (lmsLoop_refines _ stepSize filterLength outputSignal' Hlen')
    as [_ ->].
  rewrite run_app. pose proof (run_length stepSize (Spec.init filterLength)
                                 inputSignal) as Hl.
  destruct (Spec.run stepSize (Spec.init filterLength) inputSignal) as [es1 st1].
  destruct (Spec.run stepSize st1 more) as [es2 st2]. simpl in *.
  by rewrite <- Hl, take_app_length.
Qed.

Lemma lms_loop_is_causal_witness :
  length (new_Float32Array 2) = length [dec 0.5; dec 1] ∧
  length (new_Float32Array 4) = length ([dec 0.5; dec 1] ++ [dec (-0.25); dec 0.75]) ∧
  take (length [dec 0.5; dec 1])
    (st_outputSignal (lmsLoop ([dec 0.5; dec 1] ++ [dec (-0.25); dec 0.75])
                        (new_Float32Array 4) (dec 0.01) 2))
  = st_outputSignal (lmsLoop [dec 0.5; dec 1] (new_Float32Array 2) (dec 0.01) 2).
Proof.
  split; [reflexivity|]. split; [reflexivity|].
  apply (lms_loop_is_causal [dec 0.5; dec 1] [dec (-0.25); dec 0.75]);
    reflexivity.
Defined.

(** ** The per-channel driver and its caller *)

Lemma applyLMSFilter_silence (N : nat) (outputSignal : list Qc) stepSize filterLength :
  length outputSignal = N →
  applyLMSFilter (replicate N 0%Qc) outputSignal stepSize filterLength
  = replicate N 0%Qc.
Proof.
  intros Hlen. rewrite applyLMSFilter_spec by (by rewrite length_replicate).
  unfold Spec.runLMS. rewrite run_zeros. unfold applyPostProcessing. simpl.
  by rewrite movingAverage_zeros, normalize_zeros.
Qed.

Lemma filterChannel_silence (noiseType : string) (N : nat) :
  filterChannel noiseType (replicate N 0%Qc) (new_Float32Array N) = replicate N 0%Qc.
Proof.
  unfold filterChannel.
  repeat case_decide; apply applyLMSFilter_silence, length_replicate.
Qed.

(** X10.  Whatever the label, [processAudio] turns a buffer of silence into
    an equal buffer of silence. *)
Theorem silent_buffer_stays_silent (originalBuffer : AudioBuffer.t)
    (noiseType : string) :
  length (AudioBuffer.channels originalBuffer)
  = AudioBuffer.numberOfChannels originalBuffer →
  Forall (λ c, c = replicate (AudioBuffer.length originalBuffer) 0%Qc)
         (AudioBuffer.channels originalBuffer) →
  processAudio originalBuffer noiseType = originalBuffer.
Proof.
  intros Hn Hsilent. rewrite processAudio_spec by done.
  destruct originalBuffer as [n l r cs]. simpl in *. f_equal.
  clear Hn. induction Hsilent as [|c cs Hc _ IH]; [done|].
  rewrite fmap_cons, IH. f_equal. subst c. apply filterChannel_silence.
Qed.

Lemma silent_buffer_stays_silent_witness :
  length (AudioBuffer.channels silentStereo)
  = AudioBuffer.numberOfChannels silentStereo ∧
  Forall (λ c, c = replicate (AudioBuffer.length silentStereo) 0%Qc)
         (AudioBuffer.channels silentStereo) ∧
  processAudio silentStereo "Traffic" = silentStereo.
Proof.
  assert (Forall (λ c, c = replicate (AudioBuffer.length silentStereo) 0%Qc)
            (AudioBuffer.channels silentStereo)) as H.
  { repeat apply Forall_cons_2; [reflexivity|reflexivity|apply Forall_nil_2]. }
  split; [reflexivity|]. split; [exact H|].
  apply (silent_buffer_stays_silent silentStereo "Traffic"); [reflexivity|exact H].
Defined.

(** X11.  [processNoiseCancellation] leaves the processed audio as it is
    when there is no uploaded audio or no audio context; otherwise it
    stores a buffer with the shape of the uploaded one, and a missing or
    empty noise type is processed like the label "unknown", that is with
    the default row (step size 0.01, 128 taps). *)
Theorem processNoiseCancellation_cases (originalAudio : AudioBuffer.t)
    (noiseType : option string) (processedAudio : option AudioBuffer.t) :
  validBuffer originalAudio →
  processNoiseCancellation None true noiseType processedAudio = processedAudio ∧
  processNoiseCancellation (Some originalAudio) false noiseType processedAudio
  = processedAudio ∧
  (∃ result,
     processNoiseCancellation (Some originalAudio) true noiseType processedAudio
     = Some result ∧
     validBuffer result ∧
     AudioBuffer.numberOfChannels result = AudioBuffer.numberOfChannels originalAudio ∧
     AudioBuffer.length result = AudioBuffer.length originalAudio ∧
     AudioBuffer.sampleRate result = AudioBuffer.sampleRate originalAudio) ∧
  processNoiseCancellation (Some originalAudio) true None processedAudio
  = processNoiseCancellation (Some originalAudio) true (Some "") processedAudio ∧
  processNoiseCancellation (Some originalAudio) true None processedAudio
  = Some {| AudioBuffer.numberOfChannels := AudioBuffer.numberOfChannels originalAudio;
            AudioBuffer.length := AudioBuffer.length originalAudio;
            AudioBuffer.sampleRate := AudioBuffer.sampleRate originalAudio;
            AudioBuffer.channels :=
              (λ inputData,
                 applyLMSFilter inputData
                   (new_Float32Array (AudioBuffer.length originalAudio))
                   (dec 0.01) 128)
              <$> AudioBuffer.channels originalAudio |}.
Proof.
  intros Hvalid. split; [done|]. split; [done|]. split; [|split; [done|]].
  - exists (processAudio originalAudio (orUnknown noiseType)).
    split; [done|]. split; [by apply processAudio_valid|].
    destruct Hvalid as [Hn _]. by rewrite processAudio_spec.
  - destruct Hvalid as [Hn _]. unfold processNoiseCancellation.
    by rewrite processAudio_spec.
Qed.

Lemma processNoiseCancellation_cases_witness :
  validBuffer shortStereo ∧
  processNoiseCancellation None true (Some "Wind") None = None ∧
  processNoiseCancellation (Some shortStereo) false (Some "Wind") None = None ∧
  (∃ result,
     processNoiseCancellation (Some shortStereo) true (Some "Wind") None
     = Some result ∧
     validBuffer result ∧
     AudioBuffer.numberOfChannels result = AudioBuffer.numberOfChannels shortStereo ∧
     AudioBuffer.length result = AudioBuffer.length shortStereo ∧
     AudioBuffer.sampleRate result = AudioBuffer.sampleRate shortStereo) ∧
  processNoiseCancellation (Some shortStereo) true None None
  = processNoiseCancellation (Some shortStereo) true (Some "") None ∧
  processNoiseCancellation (Some shortStereo) true None None
  = Some {| AudioBuffer.numberOfChannels := AudioBuffer.numberOfChannels shortStereo;
            AudioBuffer.length := AudioBuffer.length shortStereo;
            AudioBuffer.sampleRate := AudioBuffer.sampleRate shortStereo;
            AudioBuffer.channels :=
              (λ inputData,
                 applyLMSFilter inputData
                   (new_Float32Array (AudioBuffer.length shortStereo))
                   (dec 0.01) 128)
              <$> AudioBuffer.channels shortStereo |}.
Proof.
  split; [exact shortStereo_valid|].
  exact (processNoiseCancellation_cases shortStereo (Some "Wind") None
           shortStereo_valid).
Defined.

(** ** The classifier *)

Local Open Scope Qc_scope.

(** X12.  For any list of scores, exactly one of two cases: no score is
    positive, and the selection returns the initial pair: score 0 and the
    empty type; or the selection returns the first entry, in the order of
    the list, among those with the highest score, that score is positive
    and it bounds all the others. *)
Theorem first_max_wins (scores : list (string * Qc)) :
  let '(highestScore, detectedType) := selectHighest scores in
  (Forall (λ '(_, s), s <= 0) scores ∧ highestScore = 0 ∧ detectedType = "") ∨
  (¬ Forall (λ '(_, s), s <= 0) scores ∧ 0 < highestScore ∧
   ∃ i : nat, scores !! i = Some (detectedType, highestScore) ∧
              Forall (λ '(_, s), s <= highestScore) scores ∧
              Forall (λ '(_, s), s < highestScore) (take i scores)).
Proof.
  pose proof (selectHighest_exact scores) as H.
  destruct (selectHighest scores) as [highestScore detectedType].
  destruct H as [H|(Hpos & i & Hi & Hrest)]; [by left|right].
  split; [|split; [done|by exists i]].
  intros Hnone. rewrite Forall_forall in Hnone.
  apply list_elem_of_lookup_2 in Hi. apply Hnone in Hi.
  by apply Qcle_not_lt in Hi.
Qed.

Lemma bonus_bounds type (f : Features) :
  bonus type <= dec 0.6 ∧
  (thresholdPredicate type f = true → dec 0.3 <= bonus type).
Proof.
  unfold bonus, thresholdPredicate.
  repeat case_decide; split; try (by vm_compute); done.
Qed.

Lemma hundredths_90 : dec 0.9 = num 90 / num 100.
Proof. by apply Qc_is_canon. Qed.

Lemma hundredths_40 : dec 0.4 = num 40 / num 100.
Proof. by apply Qc_is_canon. Qed.

Section scores.
Variables (type : string) (f : Features) (base : Qc).
Hypothesis Hlo : dec 0.1 <= base.
Hypothesis Hhi : base < dec 0.3.

Local Abbreviation raw :=
  (if thresholdPredicate type f then base + bonus type else base).

Lemma raw_bounds : dec 0.1 <= raw ∧ raw < dec 0.9.
Proof.
  destruct (bonus_bounds type f) as [Hb Hb'].
  destruct (thresholdPredicate type f).
  - specialize (Hb' eq_refl). clear - Hlo Hhi Hb Hb'. qc2q. split; lra.
  - clear - Hlo Hhi. qc2q. split; lra.
Qed.

Lemma clamp_inactive : Math_min 1 raw = raw.
Proof.
  destruct raw_bounds as [_ H]. unfold Math_min. rewrite decide_True; [done|].
  clear - H. qc2q. lra.
Qed.

Lemma score_bounds :
  dec 0.1 <= scoreOf type f base ∧ scoreOf type f base <= dec 0.9.
Proof.
  destruct raw_bounds as [H1 H2]. rewrite tenth_hundredths at 1.
  rewrite hundredths_90. apply scoreOf_bounds; [lia|lia|..].
  - by rewrite <- tenth_hundredths.
  - rewrite <- hundredths_90. by apply Qclt_le_weak.
Qed.

Lemma score_shows_bonus :
  thresholdPredicate type f = true ↔ dec 0.3 < scoreOf type f base.
Proof.
  destruct (bonus_bounds type f) as [Hb Hb'].
  destruct (thresholdPredicate type f) eqn:Hp.
  - split; [intros _|done]. specialize (Hb' eq_refl).
    assert (num 40 / num 100 <= scoreOf type f base) as H.
    { apply (scoreOf_bounds 40 90); [lia|lia|rewrite Hp ..].
      - rewrite <- hundredths_40. clear - Hlo Hb'. qc2q. lra.
      - rewrite <- hundredths_90. clear - Hhi Hb. qc2q. lra. }
    eapply Qclt_le_trans; [|exact H]. by vm_compute.
  - split; [done|]. intros H. exfalso.
    assert (scoreOf type f base <= num 30 / num 100) as H'.
    { apply (scoreOf_bounds 10 30); [lia|lia|rewrite Hp ..].
      - by rewrite <- tenth_hundredths.
      - rewrite <- hundredths_30. by apply Qclt_le_weak. }
    rewrite <- hundredths_30 in H'. by apply Qcle_not_lt in H'.
Qed.
End scores.

(** A set of features to instantiate statements with. *)
Lemma base_in_range : dec 0.1 <= dec 0.2 ∧ dec 0.2 < dec 0.3.
Proof. split; by vm_compute. Defined.

(** X13.  With a base score in [0.1, 0.3) the raw score stays below 0.9, so
    the clamp [Math.min(1, score)] never changes it: the reported score is
    the rounded raw score, and it lies in [0.1, 0.9]. *)
Theorem clamp_is_never_active (type : string) (f : Features) (base : Qc) :
  dec 0.1 <= base → base < dec 0.3 →
  scoreOf type f base
  = toFixed2 (if thresholdPredicate type f then base + bonus type else base) ∧
  dec 0.1 <= scoreOf type f base ∧ scoreOf type f base <= dec 0.9.
Proof.
  intros Hlo Hhi. split; [|by apply score_bounds].
  unfold scoreOf. by rewrite clamp_inactive.
Qed.

(** X14.  With a base score in [0.1, 0.3), an archetype's reported score
    exceeds 0.3 exactly when its threshold predicate holds: every bonus is
    at least 0.3, and rounding does not blur the line. *)
Theorem score_above_03_iff_matched (type : string) (f : Features) (base : Qc) :
  dec 0.1 <= base → base < dec 0.3 →
  thresholdPredicate type f = true ↔ dec 0.3 < scoreOf type f base.
Proof. intros. by apply score_shows_bonus. Qed.

Lemma clamp_is_never_active_witness :
  dec 0.1 <= dec 0.2 ∧ dec 0.2 < dec 0.3 ∧
  scoreOf "Wind" quietFeatures (dec 0.2)
  = toFixed2 (if thresholdPredicate "Wind" quietFeatures
              then dec 0.2 + bonus "Wind" else dec 0.2) ∧
  dec 0.1 <= scoreOf "Wind" quietFeatures (dec 0.2) ∧
  scoreOf "Wind" quietFeatures (dec 0.2) <= dec 0.9.
Proof.
  destruct base_in_range as [Hlo Hhi]. split; [exact Hlo|]. split; [exact Hhi|].
  exact (clamp_is_never_active "Wind" quietFeatures (dec 0.2) Hlo Hhi).
Defined.

Lemma score_above_03_iff_matched_witness :
  dec 0.1 <= dec 0.2 ∧ dec 0.2 < dec 0.3 ∧
  (thresholdPredicate "Crowd" quietFeatures = true
   ↔ dec 0.3 < scoreOf "Crowd" quietFeatures (dec 0.2)).
Proof.
  destruct base_in_range as [Hlo Hhi]. split; [exact Hlo|]. split; [exact Hhi|].
  exact (score_above_03_iff_matched "Crowd" quietFeatures (dec 0.2) Hlo Hhi).
Defined.

Lemma classified_type_listed (audioBuffer : AudioBuffer.t) (rnd : nat → Qc) :
  unitDraws rnd →
  let c := (classifyNoise audioBuffer rnd).1 in
  let highestScore := (selectHighest (confidenceScores c)).1 in
  noiseType c ∈ NOISE_TYPES ∧
  (noiseType c, highestScore) ∈ confidenceScores c ∧
  Forall (λ '(_, s), s <= highestScore) (confidenceScores c) ∧
  dec 0.1 <= highestScore.
Proof.
  intros Hdraws c highestScore. subst highestScore.
  assert (noiseType c = (selectHighest (confidenceScores c)).2) as Ht.
  { unfold c. by rewrite classifyNoise_unfold. }
  pose proof (scores_of_classification audioBuffer rnd) as Hs.
  fold c in Hs. cbv zeta in Hs. rewrite Ht, Hs.
  generalize (features c). clear Ht Hs c. intros f.
  set (scores := _ <$> _).
  assert (scores.*1 = NOISE_TYPES) as Hkeys by done.
  assert (("Lawnmower", scoreOf "Lawnmower" f (dec 0.1 + rnd 1%nat * dec 0.2))
          ∈ scores) as Hfirst by apply list_elem_of_here.
  pose proof (selectHighest_first_max scores) as Hsel.
  destruct (selectHighest scores) as [h t]. cbn [fst snd].
  destruct Hsel as [Hub Hwhich]. rewrite Forall_forall in Hub.
  assert (dec 0.1 <= h) as Hh.
  { eapply Qcle_trans; [|exact (Hub _ Hfirst)].
    destruct (base_range (rnd 1%nat)) as [Hlo Hhi]; [apply Hdraws..|].
    by apply score_bounds. }
  destruct Hwhich as [[-> _]|(i & Hi & _)].
  { exfalso. revert Hh. by vm_compute. }
  assert ((t, h) ∈ scores) as Hin.
  { apply list_elem_of_lookup. by exists i. }
  split; [|split; [done|split; [by apply Forall_forall|done]]].
  rewrite <- Hkeys. apply list_elem_of_fmap. by exists (t, h).
Qed.

(** X15.  With every random value in [0, 1), the classifier always selects
    one of the six archetypes (never the empty initial label); the entry it
    selects is in the score map, its score is at least 0.1 and no score is
    higher. *)
Theorem classification_always_selects (audioBuffer : AudioBuffer.t)
    (rnd : nat → Qc) :
  unitDraws rnd →
  let c := (classifyNoise audioBuffer rnd).1 in
  let highestScore := (selectHighest (confidenceScores c)).1 in
  noiseType c ∈ NOISE_TYPES ∧
  (noiseType c, highestScore) ∈ confidenceScores c ∧
  Forall (λ '(_, s), s <= highestScore) (confidenceScores c) ∧
  dec 0.1 <= highestScore.
Proof. exact (classified_type_listed audioBuffer rnd). Qed.

Lemma classification_always_selects_witness :
  unitDraws humDraws ∧
  let c := (classifyNoise shortStereo humDraws).1 in
  let highestScore := (selectHighest (confidenceScores c)).1 in
  noiseType c ∈ NOISE_TYPES ∧
  (noiseType c, highestScore) ∈ confidenceScores c ∧
  Forall (λ '(_, s), s <= highestScore) (confidenceScores c) ∧
  dec 0.1 <= highestScore.
Proof.
  split; [exact humDraws_unit|].
  exact (classification_always_selects shortStereo humDraws humDraws_unit).
Defined.

(** X16.  The label the classifier hands over meets the rows of
    [processAudio]: Lawnmower, Traffic, Construction and Fan/HVAC get their
    own step size and filter length (the capitalised labels match the
    lower-case cases), Crowd and Wind get the default row; and the caller
    passes the label on as it is. *)
Theorem classified_label_selects_row (audioBuffer : AudioBuffer.t)
    (rnd : nat → Qc) (inputData outputData : list Qc) :
  unitDraws rnd →
  let label := noiseType (classifyNoise audioBuffer rnd).1 in
  orUnknown (Some label) = label ∧
  ((label = "Lawnmower" ∧ filterChannel label inputData outputData
                          = applyLMSFilter inputData outputData (dec 0.01) 32) ∨
   (label = "Traffic" ∧ filterChannel label inputData outputData
                        = applyLMSFilter inputData outputData (dec 0.005) 128) ∨
   (label = "Construction" ∧ filterChannel label inputData outputData
                             = applyLMSFilter inputData outputData (dec 0.008) 64) ∨
   (label = "Fan/HVAC" ∧ filterChannel label inputData outputData
                         = applyLMSFilter inputData outputData (dec 0.003) 256) ∨
   ((label = "Crowd" ∨ label = "Wind") ∧
    filterChannel label inputData outputData
    = applyLMSFilter inputData outputData (dec 0.01) 128)).
Proof.
  intros Hdraws label.
  destruct (classified_type_listed audioBuffer rnd Hdraws) as [Hin _].
  fold label in Hin. revert Hin. generalize label. clear label. intros label Hin.
  unfold NOISE_TYPES in Hin.
  repeat (apply elem_of_cons in Hin as [->|Hin]); [..|by apply elem_of_nil in Hin].
  - split; [done|]. by left.
  - split; [done|]. right. by left.
  - split; [done|]. do 2 right. by left.
  - split; [done|]. do 3 right. by left.
  - split; [done|]. do 4 right. split; [by left|done].
  - split; [done|]. do 4 right. split; [by right|done].
Qed.

Lemma classified_label_selects_row_witness :
  unitDraws humDraws ∧
  let label := noiseType (classifyNoise shortStereo humDraws).1 in
  orUnknown (Some label) = label ∧
  ((label = "Lawnmower" ∧ filterChannel label fourSamples (new_Float32Array 4)
                          = applyLMSFilter fourSamples (new_Float32Array 4) (dec 0.01) 32) ∨
   (label = "Traffic" ∧ filterChannel label fourSamples (new_Float32Array 4)
                        = applyLMSFilter fourSamples (new_Float32Array 4) (dec 0.005) 128) ∨
   (label = "Construction" ∧ filterChannel label fourSamples (new_Float32Array 4)
                             = applyLMSFilter fourSamples (new_Float32Array 4) (dec 0.008) 64) ∨
   (label = "Fan/HVAC" ∧ filterChannel label fourSamples (new_Float32Array 4)
                         = applyLMSFilter fourSamples (new_Float32Array 4) (dec 0.003) 256) ∨
   ((label = "Crowd" ∨ label = "Wind") ∧
    filterChannel label fourSamples (new_Float32Array 4)
    = applyLMSFilter fourSamples (new_Float32Array 4) (dec 0.01) 128)).
Proof.
  split; [exact humDraws_unit|].
  exact (classified_label_selects_row shortStereo humDraws fourSamples
           (new_Float32Array 4) humDraws_unit).
Defined.

(** *** Feature ranges *)

Lemma extractFeatures_fields (buffer : AudioBuffer.t) (rnd : nat → Qc) :
  (extractFeatures buffer rnd).1
  = let channelData := getChannelData buffer 0 in
    let crossings :=
      for_up 1 (len channelData) (λ i zeroCrossings,
        if decide ((0 <= rd channelData i ∧ rd channelData (i - 1) < 0) ∨
                   (rd channelData i < 0 ∧ 0 <= rd channelData (i - 1)))
        then zeroCrossings + 1 else zeroCrossings) 0 in
    {| energy := foldl (λ sum val, sum + val * val) 0 channelData
                 / num (len channelData);
       zeroCrossings := crossings / num (len channelData);
       spectralCentroid := crossings / num (len channelData) * num 10000;
       spectralFlatness := rnd 0%nat * dec 0.5 + dec 0.2;
       periodicity := sumCorrelation channelData / num frameSize |}.
Proof. reflexivity. Qed.

Lemma div_num_nonneg (x : Qc) (n : Z) : 0 <= x → (0 ≤ n)%Z → 0 <= x / num n.
Proof.
  intros Hx Hn. unfold Qcle in *. rewrite this_div, this_num.
  change (this 0) with 0%Q in *. rewrite Zle_Qle in Hn.
  change (inject_Z 0) with 0%Q in Hn.
  apply Qmult_le_0_compat; [done|]. by apply Qinv_le_0_compat.
Qed.

Lemma div_num_lt_one (x : Qc) (n : Z) : 0 <= x → x < num n ∨ x = 0 → x / num n < 1.
Proof.
  intros Hx [Hlt| ->].
  - unfold Qcle, Qclt in *. rewrite this_div. change (this 1) with 1%Q.
    change (this 0) with 0%Q in *.
    apply Qlt_shift_div_r; [by eapply Qle_lt_trans|]. by rewrite Qmult_1_l.
  - unfold Qcdiv. rewrite Qcmult_0_l. by vm_compute.
Qed.

Lemma sum_squares_nonneg (l : list Qc) (a : Qc) :
  0 <= a → 0 <= foldl (λ sum val, sum + val * val) a l.
Proof.
  revert a. induction l as [|x l IH]; intros a Ha; [done|]. simpl. apply IH.
  unfold Qcle in *. rewrite this_plus, this_mult. change (this 0) with 0%Q in *.
  nra.
Qed.

Lemma sum_nonneg (l : list Qc) : Forall (λ x, 0 <= x) l → 0 <= Spec.sum l.
Proof.
  unfold Spec.sum. induction 1 as [|x l Hx _ IH]; simpl; [done|].
  clear - Hx IH. qc2q. lra.
Qed.

Lemma num_succ (k : Z) : num k + 1 = num (k + 1).
Proof.
  apply Qc_is_canon. rewrite this_plus, !this_num, inject_Z_plus. reflexivity.
Qed.

Lemma crossings_count (channelData : list Qc) :
  let crossings :=
    for_up 1 (len channelData) (λ i zeroCrossings,
      if decide ((0 <= rd channelData i ∧ rd channelData (i - 1) < 0) ∨
                 (rd channelData i < 0 ∧ 0 <= rd channelData (i - 1)))
      then zeroCrossings + 1 else zeroCrossings) 0 in
  0 <= crossings ∧ (crossings < num (len channelData) ∨ crossings = 0).
Proof.
  intros crossings. destruct (decide (1 ≤ len channelData)%Z) as [Hlen|Hlen].
  - assert (0 <= crossings ∧ crossings <= num (len channelData - 1)) as [H0 H1].
    { unfold crossings.
      apply (for_up_inv (λ k zc, 0 <= zc ∧ zc <= num (k - 1))
               1 (len channelData) _ 0 Hlen).
      - split; by vm_compute.
      - intros k zc Hk [H0 H1]. replace (k + 1 - 1)%Z with (k - 1 + 1)%Z by lia.
        rewrite <- num_succ. case_decide; split; clear - H0 H1; qc2q; lra. }
    split; [done|]. left. eapply Qcle_lt_trans; [exact H1|].
    replace (len channelData) with (len channelData - 1 + 1)%Z at 2 by lia.
    rewrite <- num_succ. generalize (num (len channelData - 1)). intros q.
    qc2q. lra.
  - unfold crossings. rewrite for_up_nil by lia. split; [done|by right].
Qed.

(** X17.  For a first channel of at least one sample, the extracted energy
    and periodicity are not negative, the zero-crossing rate lies in
    [0, 1), the spectral centroid is 10000 times that rate, and with a
    random value in [0, 1) the spectral flatness lies in [0.2, 0.7). *)
Theorem feature_ranges (buffer : AudioBuffer.t) (rnd : nat → Qc) :
  getChannelData buffer 0 ≠ [] →
  unitDraws rnd →
  let f := (extractFeatures buffer rnd).1 in
  0 <= energy f ∧
  (0 <= zeroCrossings f ∧ zeroCrossings f < 1) ∧
  spectralCentroid f = zeroCrossings f * num 10000 ∧
  (dec 0.2 <= spectralFlatness f ∧ spectralFlatness f < dec 0.7) ∧
  0 <= periodicity f.
Proof.
  intros _ Hdraws f. unfold f. rewrite extractFeatures_fields. cbv zeta.
  cbn [energy zeroCrossings spectralCentroid spectralFlatness periodicity].
  generalize (getChannelData buffer 0). intros channelData.
  destruct (crossings_count channelData) as [Hc0 Hc1].
  split; [|split; [|split; [done|split]]].
  - apply div_num_nonneg; [by apply sum_squares_nonneg|apply len_nonneg].
  - split; [apply div_num_nonneg; [done|apply len_nonneg]|].
    by apply div_num_lt_one.
  - destruct (Hdraws 0%nat) as [H0 H1]. clear - H0 H1. qc2q. split; lra.
  - apply div_num_nonneg; [|done]. rewrite sumCorrelation_spec.
    apply sum_nonneg, Forall_fmap, Forall_forall. intros lag _.
    apply Math_abs_nonneg.
Qed.

Lemma feature_ranges_witness :
  getChannelData shortStereo 0 ≠ [] ∧
  unitDraws humDraws ∧
  let f := (extractFeatures shortStereo humDraws).1 in
  0 <= energy f ∧
  (0 <= zeroCrossings f ∧ zeroCrossings f < 1) ∧
  spectralCentroid f = zeroCrossings f * num 10000 ∧
  (dec 0.2 <= spectralFlatness f ∧ spectralFlatness f < dec 0.7) ∧
  0 <= periodicity f.
Proof.
  assert (getChannelData shortStereo 0 ≠ []) as Hsome by discriminate.
  split; [exact Hsome|]. split; [exact humDraws_unit|].
  exact (feature_ranges shortStereo humDraws Hsome humDraws_unit).
Defined.

(** *** Silence *)

Lemma rd_zeros (N : nat) (i : Z) : rd (replicate N 0) i = 0.
Proof.
  unfold rd. case_decide; [|done]. rewrite list_lookup_total_alt.
  destruct (replicate N 0 !! Z.to_nat i) as [x|] eqn:Hx; [|done].
  by apply lookup_replicate in Hx as [-> _].
Qed.

Lemma sum_of_zeros {A} (g : A → Qc) (l : list A) :
  (∀ x, g x = 0) → Spec.sum (g <$> l) = 0.
Proof.
  intros Hg. induction l as [|x l IH]; [done|].
  change (g x + Spec.sum (g <$> l) = 0). rewrite Hg, IH. ring.
Qed.

Lemma for_up_nochange {S} lo hi (body : Z → S → S) (s : S) :
  (∀ i s, body i s = s) → for_up lo hi body s = s.
Proof.
  intros Hbody. destruct (decide (lo ≤ hi)%Z) as [Hle|Hgt].
  - apply (for_up_inv (λ _ r, r = s) lo hi body s Hle); [done|].
    intros i r _ ->. apply Hbody.
  - apply for_up_nil. lia.
Qed.

Lemma silence_features (buffer : AudioBuffer.t) (rnd : nat → Qc) (N : nat) :
  getChannelData buffer 0 = replicate N 0 →
  let f := (extractFeatures buffer rnd).1 in
  energy f = 0 ∧ zeroCrossings f = 0 ∧ periodicity f = 0.
Proof.
  intros Hsilent f. unfold f. rewrite extractFeatures_fields. cbv zeta.
  cbn [energy zeroCrossings periodicity]. rewrite Hsilent.
  split; [|split].
  - assert (foldl (λ sum val : Qc, sum + val * val) 0 (replicate N 0) = 0) as ->.
    { clear. induction N as [|N IH]; [done|]. simpl.
      by replace (0 + 0 * 0) with 0 by ring. }
    unfold Qcdiv. ring.
  - assert (for_up 1 (len (replicate N 0)) (λ i zeroCrossings,
              if decide ((0 <= rd (replicate N 0) i ∧ rd (replicate N 0) (i - 1) < 0) ∨
                         (rd (replicate N 0) i < 0 ∧ 0 <= rd (replicate N 0) (i - 1)))
              then zeroCrossings + 1 else zeroCrossings) 0 = 0) as ->.
    { apply for_up_nochange. intros i zc. rewrite !rd_zeros.
      rewrite decide_False; [done|]. intros [[_ H]|[H _]]; revert H; by vm_compute. }
    unfold Qcdiv. ring.
  - rewrite sumCorrelation_spec.
    rewrite sum_of_zeros; [unfold Qcdiv; ring|]. intros lag.
    rewrite sum_of_zeros; [done|]. intros i. rewrite !rd_zeros. ring.
Qed.

Lemma select_last_two (sL sT sC sF sCr sW : Qc) :
  0 < sCr → sL < sCr → sT < sCr → sC < sCr → sF < sCr →
  (selectHighest [("Lawnmower", sL); ("Traffic", sT); ("Construction", sC);
                  ("Fan/HVAC", sF); ("Crowd", sCr); ("Wind", sW)]).2
  = if decide (sCr < sW) then "Wind" else "Crowd".
Proof.
  intros. unfold selectHighest, Object_entries. simpl.
  repeat case_decide; try done; exfalso; qc2q; lra.
Qed.

(** X18.  A buffer whose first channel is silent and holds at least one
    sample has energy, zero-crossing rate and periodicity 0; the predicates
    of Crowd and Wind hold and no other does; and the classifier selects
    Wind when its score is strictly above that of Crowd, and Crowd
    otherwise. *)
Theorem silence_is_crowd_or_wind (buffer : AudioBuffer.t) (rnd : nat → Qc)
    (N : nat) :
  (1 ≤ N)%nat →
  getChannelData buffer 0 = replicate N 0 →
  unitDraws rnd →
  let c := (classifyNoise buffer rnd).1 in
  (energy (features c) = 0 ∧ zeroCrossings (features c) = 0 ∧
   periodicity (features c) = 0) ∧
  Forall (λ type, thresholdPredicate type (features c) = true
                  ↔ type = "Crowd" ∨ type = "Wind") NOISE_TYPES ∧
  noiseType c
  = (if decide (scoreOf "Crowd" (features c) (dec 0.1 + rnd 5%nat * dec 0.2)
                < scoreOf "Wind" (features c) (dec 0.1 + rnd 6%nat * dec 0.2))
     then "Wind" else "Crowd").
Proof.
  intros _ Hsilent Hdraws c.
  pose proof (silence_features buffer rnd N Hsilent) as Hf. cbv zeta in Hf.
  rewrite <- features_of_classification in Hf. fold c in Hf.
  assert (noiseType c = (selectHighest (confidenceScores c)).2) as Ht.
  { unfold c. by rewrite classifyNoise_unfold. }
  pose proof (scores_of_classification buffer rnd) as Hs.
  fold c in Hs. cbv zeta in Hs. rewrite Ht, Hs. revert Hf.
  generalize (features c). clear Ht Hs c. intros f (He & Hz & Hp).
  split; [done|].
  assert (thresholdPredicate "Lawnmower" f = false) as HpL.
  { change (bool_decide (dec 0.1 < energy f ∧ dec 0.5 < periodicity f) = false).
    apply bool_decide_eq_false. rewrite He. intros [H _]. revert H. by vm_compute. }
  assert (thresholdPredicate "Traffic" f = false) as HpT.
  { change (bool_decide (dec 0.05 < energy f ∧ energy f < dec 0.2 ∧
                         periodicity f < dec 0.3) = false).
    apply bool_decide_eq_false. rewrite He. intros [H _]. revert H. by vm_compute. }
  assert (thresholdPredicate "Construction" f = false) as HpC.
  { change (bool_decide (dec 0.15 < energy f ∧ dec 0.3 < zeroCrossings f) = false).
    apply bool_decide_eq_false. rewrite He. intros [H _]. revert H. by vm_compute. }
  assert (thresholdPredicate "Fan/HVAC" f = false) as HpF.
  { change (bool_decide (energy f < dec 0.1 ∧ zeroCrossings f < dec 0.2 ∧
                         dec 0.6 < periodicity f) = false).
    apply bool_decide_eq_false. rewrite Hp. intros (_ & _ & H). revert H.
    by vm_compute. }
  assert (thresholdPredicate "Crowd" f = true) as HpCr.
  { change (bool_decide (periodicity f < dec 0.2) = true).
    apply bool_decide_eq_true. rewrite Hp. by vm_compute. }
  assert (thresholdPredicate "Wind" f = true) as HpW.
  { change (bool_decide (energy f < dec 0.15 ∧ zeroCrossings f < dec 0.15) = true).
    apply bool_decide_eq_true. rewrite He, Hz. split; by vm_compute. }
  split.
  - repeat apply Forall_cons_2; [..|apply Forall_nil_2].
    + rewrite HpL. split; [done|by intros [?|?]].
    + rewrite HpT. split; [done|by intros [?|?]].
    + rewrite HpC. split; [done|by intros [?|?]].
    + rewrite HpF. split; [done|by intros [?|?]].
    + rewrite HpCr. split; [by left|done].
    + rewrite HpW. split; [by right|done].
  - cbn [fmap list_fmap].
    assert (∀ k, dec 0.1 <= dec 0.1 + rnd k * dec 0.2 ∧
                 dec 0.1 + rnd k * dec 0.2 < dec 0.3) as Hbase.
    { intros k. apply base_range; apply Hdraws. }
    assert (∀ type k, thresholdPredicate type f = false →
              scoreOf type f (dec 0.1 + rnd k * dec 0.2) <= dec 0.3) as Hplain.
    { intros type k Hpr. apply Qcnot_lt_le. intros H.
      apply (score_shows_bonus type f _ (proj1 (Hbase k)) (proj2 (Hbase k))) in H.
      congruence. }
    assert (dec 0.3 < scoreOf "Crowd" f (dec 0.1 + rnd 5%nat * dec 0.2)) as HsCr.
    { by apply (score_shows_bonus "Crowd" f _ (proj1 (Hbase _)) (proj2 (Hbase _))). }
    apply select_last_two.
    + eapply Qclt_trans; [|exact HsCr]. by vm_compute.
    + eapply Qcle_lt_trans; [by apply Hplain|done].
    + eapply Qcle_lt_trans; [by apply Hplain|done].
    + eapply Qcle_lt_trans; [by apply Hplain|done].
    + eapply Qcle_lt_trans; [by apply Hplain|done].
Qed.

Lemma silence_is_crowd_or_wind_witness :
  (1 ≤ 5)%nat ∧
  getChannelData silentStereo 0 = replicate 5 0 ∧
  unitDraws humDraws ∧
  let c := (classifyNoise silentStereo humDraws).1 in
  (energy (features c) = 0 ∧ zeroCrossings (features c) = 0 ∧
   periodicity (features c) = 0) ∧
  Forall (λ type, thresholdPredicate type (features c) = true
                  ↔ type = "Crowd" ∨ type = "Wind") NOISE_TYPES ∧
  noiseType c
  = (if decide (scoreOf "Crowd" (features c) (dec 0.1 + humDraws 5%nat * dec 0.2)
                < scoreOf "Wind" (features c) (dec 0.1 + humDraws 6%nat * dec 0.2))
     then "Wind" else "Crowd").
Proof.
  assert (1 ≤ 5)%nat as Hsome by lia.
  split; [exact Hsome|]. split; [reflexivity|]. split; [exact humDraws_unit|].
  exact (silence_is_crowd_or_wind silentStereo humDraws 5 Hsome eq_refl
           humDraws_unit).
Defined.

(** *** Rounding and display *)

Lemma Qfloor_between (y : Q) (z : Z) :
  (inject_Z z <= y)%Q → (y < inject_Z (z + 1))%Q → Qfloor y = z.
Proof.
  intros Hlo Hhi. apply Z.le_antisymm.
  - assert (Qfloor y < z + 1)%Z; [|lia]. rewrite Zlt_Qlt.
    eapply Qle_lt_trans; [apply Qfloor_le|done].
  - rewrite <- (Qfloor_Z z). by apply Qfloor_resp_le.
Qed.

Lemma roundHundredths_error (x : Qc) :
  x - dec 0.005 < roundHundredths x ∧ roundHundredths x <= x + dec 0.005.
Proof.
  unfold roundHundredths.
  assert (this (x * num 100 + dec 0.5) == this x * 100 + (1 # 2))%Q as Hy.
  { rewrite this_plus, this_mult, this_num, this_Q2Qc.
    change (inject_Z 100) with 100%Q. lra. }
  revert Hy. generalize (this (x * num 100 + dec 0.5)). intros y Hy.
  pose proof (Qfloor_le y) as Hlo. pose proof (Qlt_floor y) as Hhi.
  rewrite inject_Z_plus in Hhi. change (inject_Z 1) with 1%Q in Hhi.
  unfold Qclt, Qcle.
  rewrite this_hundredths, this_minus, this_plus, !this_Q2Qc.
  split; lra.
Qed.

Lemma roundHundredths_fixed (z : Z) :
  roundHundredths (num z / num 100) = num z / num 100.
Proof.
  unfold roundHundredths. f_equal. f_equal. apply Qfloor_between.
  - rewrite this_plus, this_mult, this_hundredths, this_num, this_Q2Qc.
    change (inject_Z 100) with 100%Q. lra.
  - rewrite this_plus, this_mult, this_hundredths, this_num, this_Q2Qc.
    rewrite inject_Z_plus. change (inject_Z 100) with 100%Q.
    change (inject_Z 1) with 1%Q. lra.
Qed.

Lemma opp_hundredths (z : Z) : - (num z / num 100) = num (- z) / num 100.
Proof.
  apply Qc_is_canon. rewrite this_opp, !this_hundredths, inject_Z_opp. lra.
Qed.

Lemma toFixed2_fixed (z : Z) : toFixed2 (num z / num 100) = num z / num 100.
Proof.
  unfold toFixed2. case_decide; [|apply roundHundredths_fixed].
  rewrite opp_hundredths, roundHundredths_fixed, opp_hundredths.
  by rewrite Z.opp_involutive.
Qed.

(** X20.  [toFixed(2)] moves a number by at most 0.005, and rounding a
    rounded number changes nothing. *)
Theorem toFixed2_accuracy (x : Qc) :
  (x - dec 0.005 <= toFixed2 x ∧ toFixed2 x <= x + dec 0.005) ∧
  toFixed2 (toFixed2 x) = toFixed2 x.
Proof.
  split.
  - unfold toFixed2. case_decide.
    + destruct (roundHundredths_error (- x)) as [Hlo Hhi].
      generalize dependent (roundHundredths (- x)). intros r Hlo Hhi.
      clear - Hlo Hhi. qc2q. rewrite ?this_opp in *. split; lra.
    + destruct (roundHundredths_error x) as [Hlo Hhi].
      generalize dependent (roundHundredths x). intros r Hlo Hhi.
      clear - Hlo Hhi. qc2q. split; lra.
  - destruct (toFixed2_hundredths x) as [z ->]. apply toFixed2_fixed.
Qed.

Lemma percentShown_hundredths (z : Z) : percentShown (num z / num 100) = num z.
Proof.
  unfold percentShown, Math_round. f_equal. apply Qfloor_between.
  - rewrite this_plus, this_mult, this_hundredths, this_num, this_Q2Qc.
    change (inject_Z 100) with 100%Q. lra.
  - rewrite this_plus, this_mult, this_hundredths, this_num, this_Q2Qc.
    rewrite inject_Z_plus. change (inject_Z 100) with 100%Q.
    change (inject_Z 1) with 1%Q. lra.
Qed.

(** X21.  The percentage printed beside a score of the classifier is exact:
    it is 100 times the score, a whole number from 10 to 90. *)
Theorem percent_shown_is_exact (audioBuffer : AudioBuffer.t) (rnd : nat → Qc) :
  unitDraws rnd →
  let c := (classifyNoise audioBuffer rnd).1 in
  Forall (λ '(_, score),
            percentShown score = score * num 100 ∧
            ∃ z : Z, percentShown score = num z ∧ (10 ≤ z ≤ 90)%Z)
         (confidenceScores c).
Proof.
  intros Hdraws c. unfold c. rewrite scores_of_classification.
  generalize (features (classifyNoise audioBuffer rnd).1). intros f.
  apply Forall_fmap, Forall_forall. intros [k type] _. simpl.
  destruct (base_range (rnd (S k))) as [Hlo Hhi]; [apply Hdraws..|].
  destruct (score_bounds type f _ Hlo Hhi) as [H1 H2].
  destruct (toFixed2_hundredths
              (Math_min 1 (if thresholdPredicate type f
                           then dec 0.1 + rnd (S k) * dec 0.2 + bonus type
                           else dec 0.1 + rnd (S k) * dec 0.2))) as [z Hz].
  fold (scoreOf type f (dec 0.1 + rnd (S k) * dec 0.2)) in Hz.
  rewrite Hz in *. rewrite percentShown_hundredths. split.
  - apply Qc_is_canon. rewrite this_mult, this_hundredths, !this_num.
    change (inject_Z 100) with 100%Q. lra.
  - exists z. split; [done|]. unfold Qcle in H1, H2.
    rewrite this_hundredths, this_Q2Qc in H1, H2.
    assert (inject_Z 10 <= inject_Z z)%Q as Ha.
    { change (inject_Z 10) with 10%Q. lra. }
    assert (inject_Z z <= inject_Z 90)%Q as Hb.
    { change (inject_Z 90) with 90%Q. lra. }
    rewrite <- Zle_Qle in Ha, Hb. lia.
Qed.

Lemma percent_shown_is_exact_witness :
  unitDraws humDraws ∧
  let c := (classifyNoise shortStereo humDraws).1 in
  Forall (λ '(_, score),
            percentShown score = score * num 100 ∧
            ∃ z : Z, percentShown score = num z ∧ (10 ≤ z ≤ 90)%Z)
         (confidenceScores c).
Proof.
  split; [exact humDraws_unit|].
  exact (percent_shown_is_exact shortStereo humDraws humDraws_unit).
Defined.

Local Open Scope Z_scope.

(** X19.  The periodicity feature reads the first 2047 samples only: two
    signals of at least 2047 samples that agree on them have the same
    periodicity, whatever follows. *)
Theorem periodicity_reads_2047_samples (b1 b2 : AudioBuffer.t)
    (rnd1 rnd2 : nat → Qc) :
  2047 ≤ len (getChannelData b1 0) →
  2047 ≤ len (getChannelData b2 0) →
  take 2047 (getChannelData b1 0) = take 2047 (getChannelData b2 0) →
  periodicity (extractFeatures b1 rnd1).1 = periodicity (extractFeatures b2 rnd2).1.
Proof.
  rewrite !extractFeatures_fields. cbv zeta. cbn [periodicity].
  generalize (getChannelData b1 0) (getChannelData b2 0). intros s1 s2 H1 H2 Heq.
  f_equal. rewrite !sumCorrelation_spec. f_equal.
  apply list_fmap_ext. intros n lag [Hlag Hn]%lookup_seqZ. f_equal. f_equal.
  rewrite !in_bounds_terms.
  replace (Z.min 1024 (len s1 - lag)) with 1024 by lia.
  replace (Z.min 1024 (len s2 - lag)) with 1024 by lia.
  apply list_fmap_ext. intros m i [Hi Hm]%lookup_seqZ.
  rewrite <- (rd_take s1 2047 i), <- (rd_take s1 2047 (i + lag)) by lia.
  rewrite <- (rd_take s2 2047 i), <- (rd_take s2 2047 (i + lag)) by lia.
  by rewrite Heq.
Qed.

Lemma periodicity_reads_2047_samples_witness :
  2047 ≤ len (getChannelData (longTone [dec 0.5]) 0) ∧
  2047 ≤ len (getChannelData (longTone [dec (-0.5); dec 1]) 0) ∧
  take 2047 (getChannelData (longTone [dec 0.5]) 0)
  = take 2047 (getChannelData (longTone [dec (-0.5); dec 1]) 0) ∧
  periodicity (extractFeatures (longTone [dec 0.5]) humDraws).1
  = periodicity (extractFeatures (longTone [dec (-0.5); dec 1]) humDraws).1.
Proof.
  assert (2047 ≤ len (getChannelData (longTone [dec 0.5]) 0)) as H1.
  { vm_compute. discriminate. }
  assert (2047 ≤ len (getChannelData (longTone [dec (-0.5); dec 1]) 0)) as H2.
  { vm_compute. discriminate. }
  assert (take 2047 (getChannelData (longTone [dec 0.5]) 0)
          = take 2047 (getChannelData (longTone [dec (-0.5); dec 1]) 0)) as H3.
  { vm_compute. reflexivity. }
  split; [exact H1|]. split; [exact H2|]. split; [exact H3|].
  exact (periodicity_reads_2047_samples _ _ humDraws humDraws H1 H2 H3).
Defined.

(** *** The displayed list *)

Local Open Scope Qc_scope.

Lemma firstMaxAt_unique scores i j e e' :
  firstMaxAt scores i e → firstMaxAt scores j e' → e = e'.
Proof.
  intros (Hi & Hub & Hbefore) (Hj & Hub' & Hbefore').
  rewrite Forall_forall in Hub, Hub', Hbefore, Hbefore'.
  destruct (Nat.lt_trichotomy i j) as [Hlt|[->|Hlt]].
  - exfalso. assert (e ∈ take j scores) as Hin.
    { apply list_elem_of_lookup. exists i. by rewrite lookup_take_lt. }
    assert (e' ∈ scores) as Hin' by (apply list_elem_of_lookup; eauto).
    specialize (Hbefore' _ Hin). specialize (Hub _ Hin').
    destruct e as [t s], e' as [t' s']. simpl in *.
    by apply Qcle_not_lt in Hub.
  - congruence.
  - exfalso. assert (e' ∈ take i scores) as Hin.
    { apply list_elem_of_lookup. exists j. by rewrite lookup_take_lt. }
    assert (e ∈ scores) as Hin' by (apply list_elem_of_lookup; eauto).
    specialize (Hbefore _ Hin). specialize (Hub' _ Hin').
    destruct e as [t s], e' as [t' s']. simpl in *.
    by apply Qcle_not_lt in Hub'.
Qed.

Lemma insertSorted_perm {A} (compare : A → A → Qc) (a : A) (l : list A) :
  insertSorted compare a l ≡ₚ a :: l.
Proof.
  induction l as [|b l IH]; [done|]. simpl. case_decide; [|done].
  rewrite IH. apply Permutation_swap.
Qed.

Lemma Array_sort_perm {A} (compare : A → A → Qc) (l : list A) :
  Array_sort compare l ≡ₚ l.
Proof.
  induction l as [|a l IH]; [done|].
  change (insertSorted compare a (Array_sort compare l) ≡ₚ a :: l).
  by rewrite insertSorted_perm, IH.
Qed.

Lemma displayed_head (scores : list (string * Qc)) :
  scores ≠ [] →
  ∃ i e, head (displayedScores scores) = Some e ∧ firstMaxAt scores i e.
Proof.
  unfold displayedScores, Object_entries.
  induction scores as [|[t s] scores IH]; [done|]. intros _.
  change (Array_sort _ ((t, s) :: scores))
    with (insertSorted (λ '(_, a) '(_, b), b - a) (t, s)
            (Array_sort (λ '(_, a) '(_, b), b - a) scores)).
  destruct scores as [|e0 scores'].
  { exists 0%nat, (t, s). split; [done|]. split; [done|]. split.
    - repeat constructor. apply Qcle_refl.
    - constructor. }
  destruct IH as (j & [t' s'] & Hhead & Hj & Hub & Hbefore); [done|].
  set (l := e0 :: scores') in *.
  destruct (Array_sort _ l) as [|m rest]; [done|].
  simpl in Hhead. injection Hhead as ->. simpl.
  case_decide as Hcmp.
  - assert (s < s') as Hlt by (clear - Hcmp; qc2q; lra).
    exists (S j), (t', s'). split; [done|]. split; [done|]. split.
    + constructor; [by apply Qclt_le_weak|done].
    + simpl. by constructor.
  - assert (s' <= s) as Hle by (clear - Hcmp; apply Qcnot_lt_le in Hcmp; qc2q; lra).
    exists 0%nat, (t, s). split; [done|]. split; [done|]. split.
    + constructor; [apply Qcle_refl|].
      eapply Forall_impl; [exact Hub|]. intros [? x] Hx. simpl in *.
      by eapply Qcle_trans.
    + constructor.
Qed.

(** X22.  The confidence list is shown sorted by falling score, and its top
    row is the detected noise type with the highest score: the stable sort
    keeps the first of several equal maxima first, as the selection loop
    does.  The rows shown are the entries of the score map, rearranged. *)
Theorem detected_type_heads_the_list (audioBuffer : AudioBuffer.t)
    (rnd : nat → Qc) :
  unitDraws rnd →
  let c := (classifyNoise audioBuffer rnd).1 in
  head (displayedScores (confidenceScores c))
  = Some (noiseType c, (selectHighest (confidenceScores c)).1) ∧
  displayedScores (confidenceScores c) ≡ₚ confidenceScores c.
Proof.
  intros Hdraws c. split; [|apply Array_sort_perm].
  destruct (classified_type_listed audioBuffer rnd Hdraws) as (_ & _ & _ & Hh).
  fold c in Hh.
  assert (noiseType c = (selectHighest (confidenceScores c)).2) as ->.
  { unfold c. by rewrite classifyNoise_unfold. }
  assert (confidenceScores c ≠ []) as Hne.
  { unfold c. by rewrite scores_of_classification. }
  revert Hh Hne. generalize (confidenceScores c). clear c. intros scores Hh Hne.
  destruct (displayed_head scores Hne) as (i & e & -> & He). f_equal.
  pose proof (selectHighest_first_max scores) as Hsel.
  destruct (selectHighest scores) as [h t]. cbn [fst snd] in *.
  destruct Hsel as [Hub [[-> _]|(j & Hj & Hbefore)]].
  { exfalso. revert Hh. by vm_compute. }
  by apply (firstMaxAt_unique scores i j).
Qed.

Lemma detected_type_heads_the_list_witness :
  unitDraws humDraws ∧
  let c := (classifyNoise shortStereo humDraws).1 in
  head (displayedScores (confidenceScores c))
  = Some (noiseType c, (selectHighest (confidenceScores c)).1) ∧
  displayedScores (confidenceScores c) ≡ₚ confidenceScores c.
Proof.
  split; [exact humDraws_unit|].
  exact (detected_type_heads_the_list shortStereo humDraws humDraws_unit).
Defined.

Example displayed_tie :
  (displayedScores [("Lawnmower", dec 0.28); ("Traffic", dec 0.7);
                    ("Crowd", dec 0.1); ("Wind", dec 0.7)]).*1
  = ["Traffic"; "Wind"; "Lawnmower"; "Crowd"].
Proof. reflexivity. Qed.

(** *** Matching archetypes win *)

Lemma listed_score (f : Features) (rnd : nat → Qc) (type : string) :
  type ∈ NOISE_TYPES →
  ∃ k : nat,
    (k, type) ∈ [(0%nat, "Lawnmower"); (1%nat, "Traffic"); (2%nat, "Construction");
                 (3%nat, "Fan/HVAC"); (4%nat, "Crowd"); (5%nat, "Wind")].
Proof.
  unfold NOISE_TYPES. intros Hin.
  repeat (apply elem_of_cons in Hin as [->|Hin]); [..|by apply elem_of_nil in Hin];
    eexists; eauto 10 using list_elem_of_here, list_elem_of_further.
Qed.

Lemma matched_type_wins (audioBuffer : AudioBuffer.t) (rnd : nat → Qc) :
  unitDraws rnd →
  let c := (classifyNoise audioBuffer rnd).1 in
  Exists (λ type, thresholdPredicate type (features c) = true) NOISE_TYPES →
  thresholdPredicate (noiseType c) (features c) = true ∧
  dec 0.3 < (selectHighest (confidenceScores c)).1.
Proof.
  intros Hdraws c.
  assert (noiseType c = (selectHighest (confidenceScores c)).2) as Ht.
  { unfold c. by rewrite classifyNoise_unfold. }
  pose proof (scores_of_classification audioBuffer rnd) as Hs.
  fold c in Hs. cbv zeta in Hs. rewrite Ht, Hs.
  generalize (features c). clear Ht Hs c. intros f Hmatch.
  set (entry := λ '(k, type),
         (type, scoreOf type f (dec 0.1 + rnd (S k) * dec 0.2))).
  set (keys := [(0%nat, "Lawnmower"); (1%nat, "Traffic"); (2%nat, "Construction");
                (3%nat, "Fan/HVAC"); (4%nat, "Crowd"); (5%nat, "Wind")]).
  assert (∀ k, dec 0.1 <= dec 0.1 + rnd k * dec 0.2 ∧
               dec 0.1 + rnd k * dec 0.2 < dec 0.3) as Hbase.
  { intros k. apply base_range; apply Hdraws. }
  pose proof (selectHighest_first_max (entry <$> keys)) as Hsel.
  destruct (selectHighest (entry <$> keys)) as [h t]. cbn [fst snd].
  destruct Hsel as [Hub Hwhich]. rewrite Forall_forall in Hub.
  apply Exists_exists in Hmatch as (m & Hm & Hpm).
  destruct (listed_score f rnd m Hm) as [km Hkm]. fold keys in Hkm.
  assert (dec 0.3 < h) as Hh.
  { eapply Qclt_le_trans;
      [|apply (Hub (entry (km, m))); apply list_elem_of_fmap; eauto].
    simpl.
    by apply (score_shows_bonus m f _ (proj1 (Hbase (S km))) (proj2 (Hbase (S km)))). }
  split; [|done].
  destruct Hwhich as [[-> _]|(i & Hi & _)].
  { exfalso. revert Hh. by vm_compute. }
  assert ((t, h) ∈ entry <$> keys) as Hin.
  { apply list_elem_of_lookup. by exists i. }
  apply list_elem_of_fmap in Hin as ([k type] & Heq & _). simpl in Heq.
  injection Heq as -> ->.
  by apply (score_shows_bonus type f _ (proj1 (Hbase (S k))) (proj2 (Hbase (S k)))).
Qed.

(** X23.  When the predicate of at least one archetype holds, the selected
    archetype is one whose predicate holds, and its score exceeds 0.3: an
    archetype without bonus cannot win against one with a bonus. *)
Theorem selected_type_matches (audioBuffer : AudioBuffer.t) (rnd : nat → Qc) :
  unitDraws rnd →
  let c := (classifyNoise audioBuffer rnd).1 in
  Exists (λ type, thresholdPredicate type (features c) = true) NOISE_TYPES →
  thresholdPredicate (noiseType c) (features c) = true ∧
  dec 0.3 < (selectHighest (confidenceScores c)).1.
Proof. exact (matched_type_wins audioBuffer rnd). Qed.

Lemma silentStereo_matches :
  Exists (λ type,
            thresholdPredicate type
              (features (classifyNoise silentStereo humDraws).1) = true)
         NOISE_TYPES.
Proof.
  destruct (silence_features silentStereo humDraws 5 eq_refl)
    as (_ & _ & Hp).
  rewrite <- features_of_classification in Hp.
  revert Hp. generalize (features (classifyNoise silentStereo humDraws).1).
  intros f Hp. apply Exists_exists. exists "Crowd". split.
  - unfold NOISE_TYPES. do 4 apply list_elem_of_further. apply list_elem_of_here.
  - change (bool_decide (periodicity f < dec 0.2) = true).
    apply bool_decide_eq_true. rewrite Hp. by vm_compute.
Defined.

Lemma selected_type_matches_witness :
  unitDraws humDraws ∧
  let c := (classifyNoise silentStereo humDraws).1 in
  Exists (λ type, thresholdPredicate type (features c) = true) NOISE_TYPES ∧
  thresholdPredicate (noiseType c) (features c) = true ∧
  dec 0.3 < (selectHighest (confidenceScores c)).1.
Proof.
  split; [exact humDraws_unit|]. split; [exact silentStereo_matches|].
  exact (selected_type_matches silentStereo humDraws humDraws_unit
           silentStereo_matches).
Defined.

(** ** Polarity *)

Lemma Math_abs_opp (x : Qc) : Math_abs (- x) = Math_abs x.
Proof.
  unfold Math_abs. repeat case_decide; try ring; try done.
  - exfalso. qc2q. rewrite ?this_opp in *. lra.
  - apply Qc_is_canon. qc2q. rewrite ?this_opp in *. lra.
Qed.

Lemma filterOutput_opp (w d : list Qc) :
  Spec.filterOutput w (Qcopp <$> d) = - Spec.filterOutput w d.
Proof.
  unfold Spec.filterOutput, Spec.sum. revert d.
  induction w as [|x w IH]; intros [|y d]; simpl; try ring.
  rewrite IH. ring.
Qed.

Lemma update_opp (c : Qc) (w d : list Qc) :
  zip_with (λ wk dk, wk - c * dk) w (Qcopp <$> d)
  = zip_with (λ wk dk, wk - (- c) * dk) w d.
Proof.
  revert d. induction w as [|x w IH]; intros [|y d]; simpl; try done.
  rewrite IH. f_equal. ring.
Qed.

Lemma step_opp mu x st :
  Spec.step mu (- x) (negState st)
  = ((- (Spec.step mu x st).1), negState (Spec.step mu x st).2).
Proof.
  unfold Spec.step, negState. cbn [fst snd Spec.weights Spec.delayLine Spec.prevOutput].
  assert (Spec.shiftIn (- x) (Qcopp <$> Spec.delayLine st)
          = Qcopp <$> Spec.shiftIn x (Spec.delayLine st)) as ->.
  { unfold Spec.shiftIn. by rewrite length_fmap, fmap_take. }
  rewrite filterOutput_opp, update_opp. f_equal; [ring|]. f_equal.
  by replace (- (mu * (- x + - Spec.prevOutput st)))
    with (mu * (x + Spec.prevOutput st)) by ring.
Qed.

Lemma run_opp mu st input :
  Spec.run mu (negState st) (Qcopp <$> input)
  = (Qcopp <$> (Spec.run mu st input).1, negState (Spec.run mu st input).2).
Proof.
  revert st. induction input as [|x input IH]; intros st; [done|].
  rewrite fmap_cons, !run_cons, step_opp.
  destruct (Spec.step mu x st) as [e st']. cbn [fst snd]. rewrite IH.
  by destruct (Spec.run mu st' input).
Qed.

Lemma movingAverage_opp (signal : list Qc) :
  movingAverage (Qcopp <$> signal) = Qcopp <$> movingAverage signal.
Proof.
  destruct (movingAverage_spec signal) as [Hl Hr].
  destruct (movingAverage_spec (Qcopp <$> signal)) as [Hl' Hr'].
  assert (len (Qcopp <$> signal) = len signal) as Hlen.
  { unfold len. by rewrite length_fmap. }
  apply array_ext.
  - rewrite Hl', Hlen. unfold len. rewrite length_fmap. unfold len in Hl. lia.
  - intros i Hi. rewrite Hl', Hlen in Hi.
    rewrite rd_fmap by lia. rewrite Hr', Hr, Hlen. case_decide.
    + rewrite !boxAverage_unfold. rewrite !rd_fmap by lia.
      unfold Qcdiv. ring.
    + by rewrite rd_fmap.
Qed.

Lemma maxAmplitude_opp (signal : list Qc) :
  maxAmplitude (Qcopp <$> signal) = maxAmplitude signal.
Proof.
  destruct (maxAmplitude_spec signal) as (H0 & Hub & Hatt). apply peak_unique.
  - apply Forall_fmap. eapply Forall_impl; [exact Hub|]. intros x Hx. simpl.
    by rewrite Math_abs_opp.
  - destruct Hatt as [?|(x & Hx & Hin)%list_elem_of_fmap]; [by left|right].
    apply list_elem_of_fmap. exists (- x). split; [by rewrite Math_abs_opp|].
    apply list_elem_of_fmap. by exists x.
Qed.

Lemma normalize_opp (signal : list Qc) :
  normalize (Qcopp <$> signal) = Qcopp <$> normalize signal.
Proof.
  rewrite !normalize_spec, maxAmplitude_opp. case_decide; [|done].
  rewrite <- !list_fmap_compose. apply list_fmap_ext. intros _ x _. simpl. ring.
Qed.

(** X25.  Inverting the polarity of the input inverts the polarity of the
    output and changes nothing else: the weights the loop ends with are the
    same, the samples it writes are negated, and so is the result of
    [applyLMSFilter] after post-processing. *)
Theorem polarity_inversion_commutes (inputSignal outputSignal outputSignal' : list Qc)
    (stepSize : Qc) (filterLength : nat) :
  length outputSignal = length inputSignal →
  length outputSignal' = length inputSignal →
  let r := lmsLoop inputSignal outputSignal stepSize filterLength in
  let r' := lmsLoop (Qcopp <$> inputSignal) outputSignal' stepSize filterLength in
  st_weights r' = st_weights r ∧
  st_outputSignal r' = Qcopp <$> st_outputSignal r ∧
  applyLMSFilter (Qcopp <$> inputSignal) outputSignal' stepSize filterLength
  = Qcopp <$> applyLMSFilter inputSignal outputSignal stepSize filterLength.
Proof.
  intros Hlen Hlen' r r'.
  destruct (lmsLoop_refines inputSignal stepSize filterLength outputSignal Hlen)
    as [Hst Hout]. fold r in Hst, Hout.
  destruct (lmsLoop_refines (Qcopp <$> inputSignal) stepSize filterLength
              outputSignal') as [Hst' Hout']; [by rewrite length_fmap|].
  fold r' in Hst', Hout'.
  assert (Spec.init filterLength = negState (Spec.init filterLength)) as Hinit.
  { unfold negState, Spec.init. simpl. f_equal.
    by rewrite fmap_replicate. }
  rewrite Hinit, run_opp in Hst', Hout'. cbn [fst snd] in Hst', Hout'.
  rewrite <- Hst in Hst'. rewrite <- Hout in Hout'.
  split; [exact (f_equal Spec.weights Hst')|]. split; [done|].
  unfold applyLMSFilter. fold r r'. rewrite Hout'. unfold applyPostProcessing.
  by rewrite movingAverage_opp, normalize_opp.
Qed.

Lemma polarity_inversion_commutes_witness :
  length (new_Float32Array 4) = length fourSamples ∧
  length (new_Float32Array 4) = length fourSamples ∧
  let r := lmsLoop fourSamples (new_Float32Array 4) (dec 0.01) 2 in
  let r' := lmsLoop (Qcopp <$> fourSamples) (new_Float32Array 4) (dec 0.01) 2 in
  st_weights r' = st_weights r ∧
  st_outputSignal r' = Qcopp <$> st_outputSignal r ∧
  applyLMSFilter (Qcopp <$> fourSamples) (new_Float32Array 4) (dec 0.01) 2
  = Qcopp <$> applyLMSFilter fourSamples (new_Float32Array 4) (dec 0.01) 2.
Proof.
  split; [reflexivity|]. split; [reflexivity|].
  apply (polarity_inversion_commutes fourSamples (new_Float32Array 4)
           (new_Float32Array 4) (dec 0.01) 2); reflexivity.
Defined.

(** ** Loudness *)

Lemma scaled_sign (x c : Qc) : 0 < c → (0 <= x * c ↔ 0 <= x) ∧ (x * c < 0 ↔ x < 0).
Proof.
  intros Hc. unfold Qcle, Qclt in *. rewrite this_mult.
  change (this 0) with 0%Q in *. repeat split; intros; nra.
Qed.

Lemma sum_squares_scaled (c : Qc) (l : list Qc) (a : Qc) :
  foldl (λ sum val, sum + val * val) (a * (c * c)) ((λ x, x * c) <$> l)
  = foldl (λ sum val, sum + val * val) a l * (c * c).
Proof.
  revert a. induction l as [|x l IH]; intros a; [done|]. simpl.
  rewrite <- IH. f_equal. ring.
Qed.

Lemma sum_scaled {A} (g g' : A → Qc) (k : Qc) (l : list A) :
  (∀ i x, l !! i = Some x → g' x = g x * k) →
  Spec.sum (g' <$> l) = Spec.sum (g <$> l) * k.
Proof.
  induction l as [|x l IH]; intros Hg; [unfold Spec.sum; simpl; ring|].
  change (g' x + Spec.sum (g' <$> l) = (g x + Spec.sum (g <$> l)) * k).
  rewrite (Hg 0%nat x) by done. rewrite IH; [ring|].
  intros i y Hy. by apply (Hg (S i)).
Qed.

Lemma sumCorrelation_scaled (c : Qc) (s : list Qc) :
  0 <= c →
  sumCorrelation ((λ x, x * c) <$> s) = sumCorrelation s * (c * c).
Proof.
  intros Hc. rewrite !sumCorrelation_spec.
  assert (len ((λ x, x * c) <$> s) = len s) as Hlen.
  { unfold len. by rewrite length_fmap. }
  apply sum_scaled. intros n lag [-> Hn]%lookup_seqZ.
  rewrite Hlen, !in_bounds_terms.
  rewrite <- Math_abs_mult_nonneg.
  2:{ clear - Hc. unfold Qcle in *. rewrite this_mult.
      change (this 0) with 0%Q in *. nra. }
  f_equal. apply sum_scaled. intros m i [-> Hm]%lookup_seqZ.
  rewrite !rd_fmap by lia. ring.
Qed.

(** X24.  Making the signal louder by a factor c > 0 multiplies the energy
    and the periodicity by c * c and leaves the zero-crossing rate and the
    spectral centroid as they are: the classifier's thresholds on energy
    and periodicity are thresholds on loudness. *)
Theorem features_scale_with_loudness (b b' : AudioBuffer.t) (rnd : nat → Qc)
    (c : Qc) :
  0 < c →
  getChannelData b' 0 = (λ x, x * c) <$> getChannelData b 0 →
  let f := (extractFeatures b rnd).1 in
  let f' := (extractFeatures b' rnd).1 in
  energy f' = energy f * (c * c) ∧
  zeroCrossings f' = zeroCrossings f ∧
  spectralCentroid f' = spectralCentroid f ∧
  spectralFlatness f' = spectralFlatness f ∧
  periodicity f' = periodicity f * (c * c).
Proof.
  intros Hc Hscaled f f'. unfold f, f'. rewrite !extractFeatures_fields. cbv zeta.
  cbn [energy zeroCrossings spectralCentroid spectralFlatness periodicity].
  rewrite Hscaled. generalize (getChannelData b 0). intros s.
  assert (len ((λ x, x * c) <$> s) = len s) as Hlen.
  { unfold len. by rewrite length_fmap. }
  assert (for_up 1 (len ((λ x, x * c) <$> s)) (λ i zeroCrossings,
            if decide ((0 <= rd ((λ x, x * c) <$> s) i ∧
                        rd ((λ x, x * c) <$> s) (i - 1) < 0) ∨
                       (rd ((λ x, x * c) <$> s) i < 0 ∧
                        0 <= rd ((λ x, x * c) <$> s) (i - 1)))
            then zeroCrossings + 1 else zeroCrossings) 0
          = for_up 1 (len s) (λ i zeroCrossings,
              if decide ((0 <= rd s i ∧ rd s (i - 1) < 0) ∨
                         (rd s i < 0 ∧ 0 <= rd s (i - 1)))
              then zeroCrossings + 1 else zeroCrossings) 0) as Hzc.
  { rewrite Hlen. apply for_up_ext. intros i zc Hi.
    rewrite !rd_fmap by lia.
    destruct (scaled_sign (rd s i) c Hc) as [H1 H2].
    destruct (scaled_sign (rd s (i - 1)) c Hc) as [H3 H4].
    repeat case_decide; try done; tauto. }
  rewrite Hzc, Hlen. split; [|split; [done|split; [done|split; [done|]]]].
  - replace (0 : Qc) with (0 * (c * c)) at 1 by ring.
    rewrite sum_squares_scaled. unfold Qcdiv. ring.
  - rewrite sumCorrelation_scaled by (by apply Qclt_le_weak).
    unfold Qcdiv. ring.
Qed.

Lemma features_scale_with_loudness_witness :
  0 < dec 2 ∧
  getChannelData
    {| AudioBuffer.numberOfChannels := 1; AudioBuffer.length := 4;
       AudioBuffer.sampleRate := num 44100;
       AudioBuffer.channels := [(λ x, x * dec 2) <$> fourSamples] |} 0
  = (λ x, x * dec 2) <$> getChannelData shortStereo 0 ∧
  let f := (extractFeatures shortStereo humDraws).1 in
  let f' := (extractFeatures
               {| AudioBuffer.numberOfChannels := 1; AudioBuffer.length := 4;
                  AudioBuffer.sampleRate := num 44100;
                  AudioBuffer.channels := [(λ x, x * dec 2) <$> fourSamples] |}
               humDraws).1 in
  energy f' = energy f * (dec 2 * dec 2) ∧
  zeroCrossings f' = zeroCrossings f ∧
  spectralCentroid f' = spectralCentroid f ∧
  spectralFlatness f' = spectralFlatness f ∧
  periodicity f' = periodicity f * (dec 2 * dec 2).
Proof.
  split; [by vm_compute|]. split; [reflexivity|].
  apply (features_scale_with_loudness shortStereo _ humDraws (dec 2));
    [by vm_compute|reflexivity].
Defined.
